(** * Weave: the relevance-filtered conversational context engine

    A shallow embedding of the parts of the Weave repository that its
    specification talks about, with the properties the specification
    states about them.

    - [Email]       services/email/email_service.go  (base64Encode)
    - [ToolSupport] the model-capability tables and isModelSupportToolCall
    - [Float64]     float64 with its range, infinities and NaN
    - [BM25]        services/aichat/pkg/bm25.go
    - [Schema]      the messages the chat code passes around
    - [Filter]      the history filter of the specification
    - [Reader]      stream readers, with their calls counted
    - [ChatService] ProcessUserInput and ProcessUserInputStream
    - [CLI]         the streaming turn of services/aichat/cmd/main.go
    - [Server]      loadEnvFile of the server's main.go

    Conventions.  Go's [int] and [uint] are 64 bits wide; every integer
    below is a count or a byte group far below that width, so they are
    modelled by [Z] (or [nat] for lengths) without wrap-around.  Go's
    [float64] comes in two readings.  Where only the formula matters it
    is idealised as the real numbers [R]: [math.Log] is [ln], [math.Max]
    is [Rmax].  Where the sign or the finiteness of a score is at stake
    it is [Float64.float64], which has the range of float64, its
    infinities and NaN, and is exact inside the range; the two readings
    agree as long as no intermediate result leaves the range
    ([BM25.score_word_exact]).  A Go slice is a window on a backing
    array in a heap where a claim depends on who else holds the array.
    A Go [string] is a byte sequence, as Rocq's [string] is. *)

From Stdlib Require Import ZArith List String Ascii Bool Lia DecimalString.
From Stdlib Require Import Reals Lra Permutation.
From stdpp Require Import base option list gmap strings sorting.

Open Scope Z_scope.

(** ** Bytes of a Go string *)

Definition byte_of (c : ascii) : Z := Z.of_N (N_of_ascii c).

Definition bytes (s : string) : list Z := map byte_of (list_ascii_of_string s).

Lemma byte_of_range c : 0 <= byte_of c < 256.
Proof.
  unfold byte_of. pose proof (N_ascii_bounded c). lia.
Qed.

Lemma bytes_length s : length (bytes s) = String.length s.
Proof.
  unfold bytes. rewrite length_map.
  induction s; simpl; auto.
Qed.

(** Lists walked three elements at a time, as the encoder's loop does. *)
Lemma list_ind3 {A} (P : list A -> Prop) :
  P [] -> (forall x, P [x]) -> (forall x y, P [x; y]) ->
  (forall x y z l, P l -> P (x :: y :: z :: l)) ->
  forall l, P l.
Proof.
  intros H0 H1 H2 H3 l.
  assert (H : P l /\ (forall x, P (x :: l)) /\ (forall x y, P (x :: y :: l))).
  { induction l as [|a l (IH0 & IH1 & IH2)]; auto. }
  apply H.
Qed.

(** * services/email/email_service.go *)
Module Email.

Definition base64Chars : string :=
  "ABCDEFGHIJKLMNOPQRSTUVWXYZabcdefghijklmnopqrstuvwxyz0123456789+/".

(** [base64Chars[i]].  Every index the encoder uses is masked with
    [0x3F], so the out-of-range case (a panic in Go) does not arise. *)
Definition char_at (i : Z) : ascii :=
  match String.get (Z.to_nat i) base64Chars with
  | Some c => c
  | None => "000"%char
  end.

(** One turn of the loop body at index [i]: [t0 t1 t2] is the zero-filled
    [triplet], [has1] is [i+1 < n] and [has2] is [i+2 < n]. *)
Definition encode_group (t0 t1 t2 : Z) (has1 has2 : bool) : list ascii :=
  let a := Z.shiftl t0 16 in
  let b := Z.shiftl t1 8 in
  let c := t2 in
  let total := Z.lor (Z.lor a b) c in
  [ char_at (Z.land (Z.shiftr total 18) 63);
    char_at (Z.land (Z.shiftr total 12) 63);
    if has1 then char_at (Z.land (Z.shiftr total 6) 63) else "="%char;
    if has2 then char_at (Z.land total 63) else "="%char ].

(** The loop [for i := 0; i < n; i += 3], on the part of [data] from [i]
    on. *)
Fixpoint encode_loop (data : list Z) : list ascii :=
  match data with
  | [] => []
  | [x] => encode_group x 0 0 false false
  | [x; y] => encode_group x y 0 true false
  | x :: y :: z :: rest => encode_group x y z true true ++ encode_loop rest
  end.

Definition base64Encode (input : string) : string :=
  string_of_list_ascii (encode_loop (bytes input)).

(** ** RFC 4648, section 4: the reference encoder and decoder *)

(** Table 1 of the RFC, read as a function of the 6-bit value. *)
Definition rfc4648_char (v : Z) : ascii :=
  if v <? 26 then ascii_of_N (Z.to_N (v + 65))
  else if v <? 52 then ascii_of_N (Z.to_N (v + 71))
  else if v <? 62 then ascii_of_N (Z.to_N (v - 4))
  else if v =? 62 then "+"%char
  else "/"%char.

(** Table 1 read backwards. *)
Definition rfc4648_value (c : ascii) : option Z :=
  let n := byte_of c in
  if (65 <=? n) && (n <=? 90) then Some (n - 65)
  else if (97 <=? n) && (n <=? 122) then Some (n - 71)
  else if (48 <=? n) && (n <=? 57) then Some (n + 4)
  else if n =? 43 then Some 62
  else if n =? 47 then Some 63
  else None.

(** A 24-bit input group is read as four 6-bit groups; a final group of
    8 bits gives two characters and "==", one of 16 bits gives three
    characters and "=". *)
Fixpoint rfc4648_encode (data : list Z) : list ascii :=
  match data with
  | [] => []
  | [b0] =>
      [rfc4648_char (b0 / 4); rfc4648_char (b0 mod 4 * 16);
       "="%char; "="%char]
  | [b0; b1] =>
      [rfc4648_char (b0 / 4); rfc4648_char (b0 mod 4 * 16 + b1 / 16);
       rfc4648_char (b1 mod 16 * 4); "="%char]
  | b0 :: b1 :: b2 :: rest =>
      [rfc4648_char (b0 / 4); rfc4648_char (b0 mod 4 * 16 + b1 / 16);
       rfc4648_char (b1 mod 16 * 4 + b2 / 64); rfc4648_char (b2 mod 64)]
      ++ rfc4648_encode rest
  end.

Definition is_pad (c : ascii) : bool := Ascii.eqb c "="%char.

(** The decoder takes four characters at a time; padding is accepted in
    the last group only, and the bits it discards must be zero. *)
Fixpoint rfc4648_decode (cs : list ascii) : option (list Z) :=
  match cs with
  | [] => Some []
  | c0 :: c1 :: c2 :: c3 :: rest =>
      match rfc4648_value c0, rfc4648_value c1 with
      | Some s0, Some s1 =>
          let b0 := s0 * 4 + s1 / 16 in
          if is_pad c2 then
            match rest with
            | [] => if is_pad c3 && (s1 mod 16 =? 0) then Some [b0] else None
            | _ => None
            end
          else
            match rfc4648_value c2 with
            | Some s2 =>
                let b1 := s1 mod 16 * 16 + s2 / 4 in
                if is_pad c3 then
                  match rest with
                  | [] => if s2 mod 4 =? 0 then Some [b0; b1] else None
                  | _ => None
                  end
                else
                  match rfc4648_value c3 with
                  | Some s3 =>
                      match rfc4648_decode rest with
                      | Some tl => Some (b0 :: b1 :: (s2 mod 4 * 64 + s3) :: tl)
                      | None => None
                      end
                  | None => None
                  end
            | None => None
            end
      | _, _ => None
      end
  | _ => None
  end.

(** Number of "=" characters the RFC prescribes for [n] input bytes. *)
Definition pad_count (n : nat) : nat :=
  match (n mod 3)%nat with
  | 1%nat => 2%nat
  | 2%nat => 1%nat
  | _ => 0%nat
  end.

Definition in_alphabet (c : ascii) : Prop := exists v, rfc4648_value c = Some v.

(** *** The bit operations as arithmetic *)

Lemma lor_disjoint hi lo n :
  0 <= n -> 0 <= lo < 2 ^ n -> Z.lor (Z.shiftl hi n) lo = hi * 2 ^ n + lo.
Proof.
  intros Hn Hlo.
  assert (Hland : Z.land (Z.shiftl hi n) lo = 0).
  { apply Z.bits_inj'. intros k Hk.
    rewrite Z.land_spec, Z.bits_0.
    destruct (Z_lt_ge_dec k n) as [Hlt | Hge].
    - rewrite Z.shiftl_spec_low by lia. reflexivity.
    - destruct (Z.eq_dec lo 0) as [-> | Hnz].
      + rewrite Z.bits_0. apply andb_false_r.
      + rewrite (Z.bits_above_log2 lo k); [apply andb_false_r | lia |].
        apply Z.log2_lt_pow2; try lia.
        apply Z.lt_le_trans with (2 ^ n); try lia.
        apply Z.pow_le_mono_r; lia. }
  pose proof (Z.add_lor_land (Z.shiftl hi n) lo) as Hadd.
  rewrite Hland in Hadd. rewrite Z.shiftl_mul_pow2 in * by lia. lia.
Qed.

Lemma total_arith t0 t1 t2 :
  0 <= t0 < 256 -> 0 <= t1 < 256 -> 0 <= t2 < 256 ->
  Z.lor (Z.lor (Z.shiftl t0 16) (Z.shiftl t1 8)) t2
  = t0 * 65536 + t1 * 256 + t2.
Proof.
  intros H0 H1 H2.
  rewrite (Z.shiftl_mul_pow2 t1 8) by lia.
  rewrite (lor_disjoint t0 (t1 * 2 ^ 8) 16) by lia.
  replace (t0 * 2 ^ 16 + t1 * 2 ^ 8) with (Z.shiftl (t0 * 256 + t1) 8)
    by (rewrite Z.shiftl_mul_pow2; lia).
  rewrite lor_disjoint by lia. lia.
Qed.

Lemma sextet_arith total k :
  0 <= k -> Z.land (Z.shiftr total k) 63 = (total / 2 ^ k) mod 64.
Proof.
  intros Hk. change 63 with (Z.ones 6).
  rewrite Z.land_ones by lia.
  rewrite Z.shiftr_div_pow2 by lia. reflexivity.
Qed.

(** The four 6-bit groups the code extracts are those of the RFC. *)
Lemma sextets_rfc t0 t1 t2 :
  0 <= t0 < 256 -> 0 <= t1 < 256 -> 0 <= t2 < 256 ->
  let total := Z.lor (Z.lor (Z.shiftl t0 16) (Z.shiftl t1 8)) t2 in
  Z.land (Z.shiftr total 18) 63 = t0 / 4 /\
  Z.land (Z.shiftr total 12) 63 = t0 mod 4 * 16 + t1 / 16 /\
  Z.land (Z.shiftr total 6) 63 = t1 mod 16 * 4 + t2 / 64 /\
  Z.land total 63 = t2 mod 64.
Proof.
  intros H0 H1 H2 total. subst total.
  rewrite <- (Z.shiftr_0_r (Z.lor _ t2)) at 4.
  rewrite !sextet_arith by lia.
  rewrite total_arith by lia.
  change (2 ^ 18) with 262144. change (2 ^ 12) with 4096.
  change (2 ^ 6) with 64. change (2 ^ 0) with 1.
  repeat split; Z.div_mod_to_equations; lia.
Qed.

(** *** The alphabet *)

Lemma sextet_cases (P : Z -> Prop) :
  (forall n : nat, (n < 64)%nat -> P (Z.of_nat n)) ->
  forall v, 0 <= v < 64 -> P v.
Proof.
  intros H v Hv. rewrite <- (Z2Nat.id v) by lia. apply H. lia.
Qed.

Lemma char_at_rfc v : 0 <= v < 64 -> char_at v = rfc4648_char v.
Proof.
  revert v. apply sextet_cases. intros n Hn.
  do 64 (destruct n as [|n]; [reflexivity|]). lia.
Qed.

Lemma value_char v : 0 <= v < 64 -> rfc4648_value (rfc4648_char v) = Some v.
Proof.
  revert v. apply sextet_cases. intros n Hn.
  do 64 (destruct n as [|n]; [reflexivity|]). lia.
Qed.

Lemma char_not_pad v : 0 <= v < 64 -> is_pad (rfc4648_char v) = false.
Proof.
  revert v. apply sextet_cases. intros n Hn.
  do 64 (destruct n as [|n]; [reflexivity|]). lia.
Qed.

Lemma pad_not_in_alphabet : rfc4648_value "="%char = None.
Proof. reflexivity. Qed.

Lemma char_in_alphabet v : 0 <= v < 64 -> in_alphabet (rfc4648_char v).
Proof. intros Hv. exists v. apply value_char, Hv. Qed.

(** *** The code against the reference encoder *)

Definition is_byte (b : Z) : Prop := 0 <= b < 256.

Lemma bytes_are_bytes s : Forall is_byte (bytes s).
Proof.
  unfold bytes, is_byte.
  induction s as [|c s IH]; simpl; constructor; auto using byte_of_range.
Qed.

Lemma encode_group_rfc t0 t1 t2 has1 has2 :
  is_byte t0 -> is_byte t1 -> is_byte t2 ->
  encode_group t0 t1 t2 has1 has2 =
  [ rfc4648_char (t0 / 4);
    rfc4648_char (t0 mod 4 * 16 + t1 / 16);
    if has1 then rfc4648_char (t1 mod 16 * 4 + t2 / 64) else "="%char;
    if has2 then rfc4648_char (t2 mod 64) else "="%char ].
Proof.
  unfold is_byte. intros H0 H1 H2. unfold encode_group.
  destruct (sextets_rfc t0 t1 t2 H0 H1 H2) as (E0 & E1 & E2 & E3).
  cbv zeta in E0, E1, E2, E3. rewrite E0, E1, E2, E3.
  rewrite !char_at_rfc by (Z.div_mod_to_equations; lia).
  reflexivity.
Qed.

Lemma encode_loop_rfc data :
  Forall is_byte data -> encode_loop data = rfc4648_encode data.
Proof.
  induction data as [| x | x y | x y z rest IH] using list_ind3; intros Hb.
  - reflexivity.
  - apply Forall_cons_1 in Hb as [Hx _]. simpl.
    rewrite encode_group_rfc by (auto; unfold is_byte; lia).
    rewrite Z.div_0_l, Z.add_0_r by lia. reflexivity.
  - apply Forall_cons_1 in Hb as [Hx Hb].
    apply Forall_cons_1 in Hb as [Hy _]. simpl.
    rewrite encode_group_rfc by (auto; unfold is_byte; lia).
    rewrite Z.div_0_l, Z.add_0_r by lia. reflexivity.
  - apply Forall_cons_1 in Hb as [Hx Hb].
    apply Forall_cons_1 in Hb as [Hy Hb].
    apply Forall_cons_1 in Hb as [Hz Hb].
    change (encode_loop (x :: y :: z :: rest))
      with (encode_group x y z true true ++ encode_loop rest).
    rewrite encode_group_rfc, IH by auto. reflexivity.
Qed.

(** *** Decoding what the reference encoder wrote *)

Lemma rfc4648_roundtrip data :
  Forall is_byte data -> rfc4648_decode (rfc4648_encode data) = Some data.
Proof.
  unfold is_byte.
  induction data as [| x | x y | x y z rest IH] using list_ind3; intros Hb.
  - reflexivity.
  - apply Forall_cons_1 in Hb as [Hx _]. simpl.
    rewrite !value_char by (Z.div_mod_to_equations; lia). simpl.
    replace (x mod 4 * 16 mod 16 =? 0) with true
      by (symmetry; apply Z.eqb_eq; Z.div_mod_to_equations; lia).
    f_equal. f_equal. Z.div_mod_to_equations; lia.
  - apply Forall_cons_1 in Hb as [Hx Hb].
    apply Forall_cons_1 in Hb as [Hy _]. simpl.
    rewrite !value_char by (Z.div_mod_to_equations; lia).
    rewrite char_not_pad by (Z.div_mod_to_equations; lia). simpl.
    replace (y mod 16 * 4 mod 4 =? 0) with true
      by (symmetry; apply Z.eqb_eq; Z.div_mod_to_equations; lia).
    f_equal. f_equal; [|f_equal]; Z.div_mod_to_equations; lia.
  - apply Forall_cons_1 in Hb as [Hx Hb].
    apply Forall_cons_1 in Hb as [Hy Hb].
    apply Forall_cons_1 in Hb as [Hz Hb].
    change (rfc4648_encode (x :: y :: z :: rest))
      with ([rfc4648_char (x / 4); rfc4648_char (x mod 4 * 16 + y / 16);
             rfc4648_char (y mod 16 * 4 + z / 64); rfc4648_char (z mod 64)]
            ++ rfc4648_encode rest).
    cbn [app rfc4648_decode].
    rewrite !value_char by (Z.div_mod_to_equations; lia).
    rewrite !char_not_pad by (Z.div_mod_to_equations; lia).
    rewrite IH by auto.
    f_equal. f_equal; [|f_equal; [|f_equal]]; Z.div_mod_to_equations; lia.
Qed.

(** *** Length and padding of the reference encoding *)

Lemma rfc4648_encode_length data :
  length (rfc4648_encode data) = (4 * ((length data + 2) / 3))%nat.
Proof.
  induction data as [| x | x y | x y z rest IH] using list_ind3;
    try reflexivity.
  change (rfc4648_encode (x :: y :: z :: rest))
    with ([rfc4648_char (x / 4); rfc4648_char (x mod 4 * 16 + y / 16);
           rfc4648_char (y mod 16 * 4 + z / 64); rfc4648_char (z mod 64)]
          ++ rfc4648_encode rest).
  rewrite length_app, IH. cbn [length].
  replace (S (S (S (length rest))) + 2)%nat
    with ((length rest + 2) + 1 * 3)%nat by lia.
  rewrite Nat.div_add by lia. lia.
Qed.

Lemma pad_count_step n : pad_count (S (S (S n))) = pad_count n.
Proof.
  unfold pad_count.
  replace (S (S (S n))) with (n + 1 * 3)%nat by lia.
  rewrite Nat.Div0.mod_add. reflexivity.
Qed.

Lemma rfc4648_encode_padding data :
  Forall is_byte data ->
  exists body,
    rfc4648_encode data = body ++ repeat "="%char (pad_count (length data))
    /\ Forall in_alphabet body.
Proof.
  unfold is_byte.
  induction data as [| x | x y | x y z rest IH] using list_ind3; intros Hb.
  - exists []. split; [reflexivity | constructor].
  - apply Forall_cons_1 in Hb as [Hx _].
    exists [rfc4648_char (x / 4); rfc4648_char (x mod 4 * 16)].
    split; [reflexivity|].
    repeat constructor; apply char_in_alphabet; Z.div_mod_to_equations; lia.
  - apply Forall_cons_1 in Hb as [Hx Hb].
    apply Forall_cons_1 in Hb as [Hy _].
    exists [rfc4648_char (x / 4); rfc4648_char (x mod 4 * 16 + y / 16);
            rfc4648_char (y mod 16 * 4)].
    split; [reflexivity|].
    repeat constructor; apply char_in_alphabet; Z.div_mod_to_equations; lia.
  - apply Forall_cons_1 in Hb as [Hx Hb].
    apply Forall_cons_1 in Hb as [Hy Hb].
    apply Forall_cons_1 in Hb as [Hz Hb].
    destruct (IH Hb) as (body & Hbody & Halpha).
    exists ([rfc4648_char (x / 4); rfc4648_char (x mod 4 * 16 + y / 16);
             rfc4648_char (y mod 16 * 4 + z / 64); rfc4648_char (z mod 64)]
            ++ body).
    split.
    + cbn [length]. rewrite pad_count_step, <- app_assoc, <- Hbody.
      reflexivity.
    + repeat constructor; try assumption;
        apply char_in_alphabet; Z.div_mod_to_equations; lia.
Qed.

Lemma string_of_list_ascii_length l :
  String.length (string_of_list_ascii l) = length l.
Proof. induction l; simpl; auto. Qed.

(** C10.  For every input string of [n] bytes, [base64Encode] returns the
    RFC 4648 base64 encoding of its bytes: it is the output of the
    reference encoder, its length is [4 * ceil (n / 3)], it ends in the
    "=" padding the RFC prescribes for a final group of one or two bytes
    (and holds no other "="), and the reference decoder maps it back to
    the input. *)
Theorem base64Encode_rfc4648 (input : string) :
  let n := String.length input in
  let out := list_ascii_of_string (base64Encode input) in
  out = rfc4648_encode (bytes input) /\
  String.length (base64Encode input) = (4 * ((n + 2) / 3))%nat /\
  (exists body,
      out = body ++ repeat "="%char (pad_count n) /\ Forall in_alphabet body) /\
  rfc4648_decode out = Some (bytes input).
Proof.
  intros n out. subst n out. unfold base64Encode.
  pose proof (bytes_are_bytes input) as Hb.
  rewrite list_ascii_of_string_of_list_ascii, string_of_list_ascii_length.
  rewrite encode_loop_rfc by assumption.
  rewrite rfc4648_encode_length, <- bytes_length.
  repeat split.
  - apply rfc4648_encode_padding, Hb.
  - apply rfc4648_roundtrip, Hb.
Qed.

(** The subject of a verification mail, as [SendEmail] encodes it. *)
Example base64Encode_subject :
  base64Encode "Weave" = "V2VhdmU="%string /\
  base64Encode "code" = "Y29kZQ=="%string /\
  base64Encode "abc" = "YWJj"%string.
Proof. repeat split; reflexivity. Qed.

(** ** The rest of the mail service *)

(** [strconv.Itoa] *)
Definition Itoa (n : Z) : string := NilZero.string_of_int (Z.to_int n).

(** The loop of [GenerateVerificationCode] from index [i] on, [count]
    turns to go; [rand i] is what the call of
    [rand.Int(rand.Reader, big.NewInt(10))] in turn [i] returns, a
    number or an error. *)
Fixpoint draw_digits (count i : nat) (rand : nat -> Z + string)
  : list string + string :=
  match count with
  | O => inl []
  | S count' =>
      match rand i with
      | inr err => inr err
      | inl num =>
          match draw_digits count' (S i) rand with
          | inl result => inl (Itoa num :: result)
          | inr err => inr err
          end
      end
  end.

Definition GenerateVerificationCode (rand : nat -> Z + string)
  : string * option string :=
  match draw_digits 6 0 rand with
  | inl result => (String.concat "" result, None)
  | inr err => (""%string, Some err)
  end.

Definition digit_char (n : Z) : ascii := ascii_of_N (Z.to_N (n + 48)).

Record EmailConfig := mkEmailConfig {
  SMTPServer : string;
  SMTPPort : Z;
  Username : string;
  Password : string;
  From : string
}.

(** The [header] map of [SendEmail], filled in the order of the source. *)
Definition header (config : EmailConfig) (to subject : string)
  : gmap string string :=
  <["Content-Type"%string := "text/html; charset=UTF-8"%string]>
    (<["MIME-Version"%string := "1.0"%string]>
       (<["Subject"%string :=
            ("=?UTF-8?B?" ++ base64Encode subject ++ "?=")%string]>
          (<["To"%string := to]>
             (<["From"%string := From config]> ∅)))).

Definition CRLF : string := String "013"%char (String "010"%char "").

(** The message [SendEmail] hands to [smtp.SendMail]; [range] is the
    order in which [range header] yields the entries. *)
Definition message (range : gmap string string -> list (string * string))
    (config : EmailConfig) (to subject body : string) : string :=
  (fold_left
     (fun message kv => message ++ fst kv ++ ": " ++ snd kv ++ CRLF)
     (range (header config to subject)) ""
   ++ CRLF ++ body)%string.

(** [smtp.SendMail(serverAddr, auth, from, to, msg)], with the arguments
    of [smtp.PlainAuth] for [auth]. *)
Definition SendEmail
    (range : gmap string string -> list (string * string))
    (SendMail : string -> string * string * string * string -> string ->
                list string -> string -> option string)
    (config : EmailConfig) (to subject body : string) : option string :=
  let auth := (""%string, Username config, Password config,
               SMTPServer config) in
  let serverAddr :=
    (SMTPServer config ++ ":" ++ Itoa (SMTPPort config))%string in
  SendMail serverAddr auth (From config) [to]
    (message range config to subject body).

(** Printable ASCII other than the space. *)
Definition printable (c : ascii) : Prop := 33 <= byte_of c <= 126.

Lemma Itoa_digit n :
  0 <= n < 10 -> Itoa n = String (digit_char n) "".
Proof.
  intros Hn. rewrite <- (Z2Nat.id n) by lia.
  assert (Hlt : (Z.to_nat n < 10)%nat) by lia.
  generalize dependent (Z.to_nat n). clear n Hn. intros k Hlt.
  do 10 (destruct k as [|k]; [reflexivity|]). lia.
Qed.

Lemma draw_digits_spec (rand : nat -> Z + string) :
  (forall i n, rand i = inl n -> 0 <= n < 10) ->
  forall count i,
    match draw_digits count i rand with
    | inl result =>
        exists ns,
          map rand (seq i count) = map inl ns /\
          result = map (fun n => String (digit_char n) "") ns
    | inr err =>
        exists k, (k < count)%nat /\ rand (i + k)%nat = inr err /\
                  forall j, (j < k)%nat -> exists n, rand (i + j)%nat = inl n
    end.
Proof.
  intros Hrange. induction count as [|count IH]; intros i;
    cbn [draw_digits].
  - exists []. split; reflexivity.
  - destruct (rand i) as [num | err] eqn:Hi.
    + specialize (IH (S i)).
      destruct (draw_digits count (S i) rand) as [result | err].
      * destruct IH as (ns & Hns & ->). exists (num :: ns).
        cbn [seq map]. rewrite Hi, Hns, (Itoa_digit num) by eauto.
        split; reflexivity.
      * destruct IH as (k & Hk & Herr & Hbefore). exists (S k).
        split; [lia|]. replace (i + S k)%nat with (S i + k)%nat by lia.
        split; [exact Herr|]. intros [|j] Hj.
        -- rewrite Nat.add_0_r. eauto.
        -- replace (i + S j)%nat with (S i + j)%nat by lia.
           apply Hbefore. lia.
    + exists 0%nat. split; [lia|]. rewrite Nat.add_0_r.
      split; [exact Hi|]. intros j Hj. lia.
Qed.

Lemma concat_digits ns :
  String.concat "" (map (fun n => String (digit_char n) "") ns)
  = string_of_list_ascii (map digit_char ns).
Proof.
  induction ns as [|n [|m ns] IH]; [reflexivity | reflexivity|].
  cbn [map] in *. cbn [String.concat string_of_list_ascii] in *.
  rewrite IH. reflexivity.
Qed.

(** X8.  With every successful draw of [rand.Int] below 10, as
    [rand.Int] promises: [GenerateVerificationCode] either returns a
    code of exactly six decimal digits, the digits drawn in order, and
    no error; or it returns the empty string with the error of the first
    draw that failed. *)
Theorem GenerateVerificationCode_six_digits (rand : nat -> Z + string) :
  (forall i n, rand i = inl n -> 0 <= n < 10) ->
  match GenerateVerificationCode rand with
  | (code, None) =>
      String.length code = 6%nat /\
      exists ns,
        map rand (seq 0 6) = map inl ns /\
        Forall (fun n => 0 <= n < 10) ns /\
        code = string_of_list_ascii (map digit_char ns)
  | (code, Some err) =>
      code = ""%string /\
      exists k, (k < 6)%nat /\ rand k = inr err /\
                forall j, (j < k)%nat -> exists n, rand j = inl n
  end.
Proof.
  intros Hrange. unfold GenerateVerificationCode.
  pose proof (draw_digits_spec rand Hrange 6 0) as Hspec.
  destruct (draw_digits 6 0 rand) as [result | err].
  - destruct Hspec as (ns & Hns & ->). rewrite concat_digits.
    assert (Hlen : length ns = 6%nat).
    { apply (f_equal (@length _)) in Hns.
      rewrite !length_map, length_seq in Hns. lia. }
    split; [rewrite string_of_list_ascii_length, length_map; exact Hlen|].
    exists ns. split; [exact Hns|]. split; [|reflexivity].
    apply Forall_forall. intros n Hn.
    apply list_elem_of_lookup in Hn as [i Hi].
    assert (Hi' : map inl ns !! i = Some (inl n : Z + string))
      by (rewrite list_lookup_fmap, Hi; reflexivity).
    rewrite <- Hns, list_lookup_fmap in Hi'.
    destruct (seq 0 6 !! i) as [j|] eqn:Hj; [|discriminate].
    injection Hi' as Hi'. eapply Hrange, Hi'.
  - destruct Hspec as (k & Hk & Herr & Hbefore).
    split; [reflexivity|]. exists k. split; [exact Hk|].
    split; [exact Herr | exact Hbefore].
Qed.

(** A source of draws 3, 0, 7, 4, 1, 8, ... *)
Definition counting_rand (i : nat) : Z + string :=
  inl (Z.of_nat ((7 * i + 3) mod 10)).

Lemma GenerateVerificationCode_six_digits_witness :
  (forall i n, counting_rand i = inl n -> 0 <= n < 10) /\
  GenerateVerificationCode counting_rand = ("307418"%string, None) /\
  match GenerateVerificationCode counting_rand with
  | (code, None) =>
      String.length code = 6%nat /\
      exists ns,
        map counting_rand (seq 0 6) = map inl ns /\
        Forall (fun n => 0 <= n < 10) ns /\
        code = string_of_list_ascii (map digit_char ns)
  | (code, Some err) =>
      code = ""%string /\
      exists k, (k < 6)%nat /\ counting_rand k = inr err /\
                forall j, (j < k)%nat -> exists n, counting_rand j = inl n
  end.
Proof.
  assert (Hrange : forall i n, counting_rand i = inl n -> 0 <= n < 10).
  { intros i n Hn. injection Hn as <-.
    pose proof (Nat.mod_upper_bound (7 * i + 3) 10). lia. }
  split; [exact Hrange|]. split; [reflexivity|].
  exact (GenerateVerificationCode_six_digits counting_rand Hrange).
Defined.

(** *** The Subject header *)

Lemma list_ascii_of_string_app (a c : string) :
  list_ascii_of_string (a ++ c)
  = (list_ascii_of_string a ++ list_ascii_of_string c)%list.
Proof.
  induction a as [|x a IH]; [reflexivity|].
  change (x :: list_ascii_of_string (a ++ c)
          = x :: (list_ascii_of_string a ++ list_ascii_of_string c)%list).
  f_equal. exact IH.
Qed.

Lemma string_length_app (a c : string) :
  String.length (a ++ c) = (String.length a + String.length c)%nat.
Proof.
  induction a as [|x a IH]; [reflexivity|].
  change (S (String.length (a ++ c))
          = S (String.length a + String.length c)).
  f_equal. exact IH.
Qed.

Lemma substring_prefix (m s : string) :
  substring 0 (String.length m) (m ++ s) = m.
Proof.
  induction m as [|x m IH]; [destruct s; reflexivity|].
  change (String x (substring 0 (String.length m) (m ++ s)) = String x m).
  f_equal. exact IH.
Qed.

Lemma substring_middle (p m s : string) :
  substring (String.length p) (String.length m) (p ++ m ++ s) = m.
Proof.
  induction p as [|x p IH]; [exact (substring_prefix m s)|].
  change (substring (String.length p) (String.length m) (p ++ m ++ s) = m).
  exact IH.
Qed.

Lemma in_alphabet_printable c : in_alphabet c -> printable c.
Proof.
  intros [v Hv]. unfold rfc4648_value in Hv. unfold printable.
  set (n := byte_of c) in *. cbv zeta in Hv.
  destruct ((65 <=? n) && (n <=? 90)) eqn:H1;
    [apply andb_true_iff in H1; lia|].
  destruct ((97 <=? n) && (n <=? 122)) eqn:H2;
    [apply andb_true_iff in H2; lia|].
  destruct ((48 <=? n) && (n <=? 57)) eqn:H3;
    [apply andb_true_iff in H3; lia|].
  destruct (Z.eqb_spec n 43); [lia|].
  destruct (Z.eqb_spec n 47); [lia | discriminate].
Qed.

Lemma printable_check (l : list ascii) :
  forallb (fun c => (33 <=? byte_of c) && (byte_of c <=? 126)) l = true ->
  Forall printable l.
Proof.
  induction l as [|c l IH]; cbn [forallb]; intros Hl; constructor.
  - apply andb_true_iff in Hl as [Hc _].
    apply andb_true_iff in Hc. unfold printable. lia.
  - apply IH. apply andb_true_iff in Hl. tauto.
Qed.

Lemma base64Encode_printable input :
  Forall printable (list_ascii_of_string (base64Encode input)).
Proof.
  unfold base64Encode. rewrite list_ascii_of_string_of_list_ascii.
  pose proof (bytes_are_bytes input) as Hb.
  rewrite encode_loop_rfc by exact Hb.
  destruct (rfc4648_encode_padding (bytes input) Hb) as (body & -> & Hbody).
  apply Forall_app. split.
  - eapply Forall_impl; [exact Hbody|]. apply in_alphabet_printable.
  - apply Forall_forall. intros c Hc.
    apply list_elem_of_In, repeat_spec in Hc. subst c.
    unfold printable. change (byte_of "=") with 61. lia.
Qed.

(** X9.  Whatever bytes the subject of a mail holds, line breaks
    included, the Subject header [SendEmail] builds consists of
    printable ASCII characters other than the space, so it cannot end
    its header line; and between "=?UTF-8?B?" and "?=" it holds a
    base64 text that the reference decoder maps back to the subject. *)
Theorem Subject_header_is_safe (config : EmailConfig)
    (to subject : string) :
  exists value,
    header config to subject !! "Subject"%string = Some value /\
    Forall printable (list_ascii_of_string value) /\
    rfc4648_decode
      (list_ascii_of_string
         (substring 10 (String.length value - 12) value))
    = Some (bytes subject).
Proof.
  eexists. split; [|split].
  - unfold header.
    rewrite lookup_insert_ne by discriminate.
    rewrite lookup_insert_ne by discriminate.
    apply lookup_insert_eq.
  - rewrite !list_ascii_of_string_app, !Forall_app.
    split; [|split]; [|apply base64Encode_printable|];
      apply printable_check; reflexivity.
  - rewrite !string_length_app.
    replace (String.length "=?UTF-8?B?" + (String.length (base64Encode subject)
               + String.length "?=") - 12)%nat
      with (String.length (base64Encode subject)) by (cbn [String.length]; lia).
    change 10%nat with (String.length "=?UTF-8?B?").
    rewrite substring_middle.
    unfold base64Encode. rewrite list_ascii_of_string_of_list_ascii.
    rewrite encode_loop_rfc by apply bytes_are_bytes.
    apply rfc4648_roundtrip, bytes_are_bytes.
Qed.

End Email.

(** * The model-capability tables (package model) *)
Module ToolSupport.

(** [m[k]] on a [map[string]bool]: the zero value [false] for a key that
    is not there. *)
Definition index (m : gmap string bool) (k : string) : bool :=
  match m !! k with
  | Some v => v
  | None => false
  end.

(** A name is on a list when the table holds [name: true]; the tables of
    the source hold no other kind of entry. *)
Definition listed (m : gmap string bool) (name : string) : Prop :=
  m !! name = Some true.

Definition only_true (m : gmap string bool) : Prop :=
  forall k v, m !! k = Some v -> v = true.

Definition table (names : list string) : gmap string bool :=
  list_to_map (map (fun n => (n, true)) names).

(** ** The version with the tables written out *)
Module Static.

Open Scope string_scope.

Definition unsupportedToolCallModels : gmap string bool :=
  table
    [ "deepseek-r1"; "deepseek-v3"; "deepseek-math";
      "llama2"; "llama2:7b"; "llama2:13b"; "llama2:70b";
      "codellama"; "codellama:7b"; "codellama:13b"; "codellama:34b";
      "codellama:70b";
      "stablelm2"; "stablelm2:1.6b"; "stablelm2:12b";
      "qwen2:0.5b"; "qwen2:1.5b"; "qwen2:7b";
      "gemma2:2b"; "gemma2:9b";
      "phi3"; "phi3:mini"; "phi3:medium";
      "mixtral:8x7b"; "mixtral:8x22b";
      "gpt-3.5-turbo-instruct"; "text-davinci-003"; "dall-e";
      "claude-instant-1";
      "text-embedding-ada-002"; "text-embedding-3-small";
      "text-embedding-3-large" ].

Definition supportedToolCallModels : gmap string bool :=
  table
    [ "gpt-3.5-turbo"; "gpt-3.5-turbo-0125"; "gpt-3.5-turbo-1106";
      "gpt-4"; "gpt-4-0613"; "gpt-4-0125-preview"; "gpt-4-turbo";
      "gpt-4-turbo-2024-04-09"; "gpt-4o"; "gpt-4o-mini";
      "claude-2"; "claude-2.1"; "claude-3-opus"; "claude-3-sonnet";
      "claude-3-haiku"; "claude-3-5-sonnet";
      "llama3.1"; "llama3.1:8b"; "llama3.1:8b-instruct"; "llama3.1:70b";
      "llama3.1:70b-instruct"; "llama3.1:405b"; "llama3.1:405b-instruct";
      "llama3.2"; "llama3.2:1b"; "llama3.2:3b"; "llama3.2:1b-instruct";
      "llama3.2:3b-instruct";
      "mistral:7b-instruct-v0.2"; "mistral:7b-instruct-v0.3";
      "mistral-small:22b-instruct-v0.1"; "mistral-small:22b-instruct-v0.2";
      "mistral-small3.1"; "mistral-small3.1:22b";
      "mistral-small3.1:22b-instruct"; "mistral-nemo";
      "mistral-nemo:12b-instruct";
      "deepseek-chat"; "deepseek-coder"; "deepseek-v2-chat";
      "deepseek-v2-coder";
      "gemini-pro"; "gemini-pro-1.5"; "gemini-1.5-flash"; "gemini-1.5-pro";
      "qwen2:7b-instruct"; "qwen2:14b-instruct"; "qwen2:32b-instruct";
      "qwen2:72b-instruct"; "qwen2.5:7b-instruct"; "qwen2.5:14b-instruct";
      "qwen2.5:32b-instruct"; "qwen2.5:72b-instruct";
      "qwen2.5-coder:7b-instruct"; "qwen2.5-coder:14b-instruct";
      "qwen2.5-coder:32b-instruct";
      "codestral:22b-instruct"; "codestral:mamba-7b-instruct";
      "gemma2:2b-instruct"; "gemma2:9b-instruct"; "gemma2:27b-instruct";
      "phi3:mini-instruct"; "phi3:medium-instruct"; "phi3:vision-instruct";
      "qwen-plus"; "qwen-turbo"; "qwen-max";
      "glm-4"; "glm-4v";
      "moonshot-v1-8k"; "moonshot-v1-32k"; "moonshot-v1-128k" ].

(** The function reads the two package variables; they are arguments
    here. *)
Definition isModelSupportToolCall
    (unsupported supported : gmap string bool) (modelName : string) : bool :=
  if index unsupported modelName then false
  else if index supported modelName then true
  else false.

End Static.

(** ** The version that loads the tables from the configuration *)
Module Configured.

Section Load.

(** [strings.Split] and [strings.TrimSpace] of Go's library. *)
Variable Split : string -> string -> list string.
Variable TrimSpace : string -> string.

Definition SplitString (s sep : string) : list string :=
  if decide (s = ""%string) then [] else Split s sep.

(** One of the two loops of [initModelSupportConfig]. *)
Definition load_models (modelList : string) : gmap string bool :=
  if decide (modelList = ""%string) then ∅
  else
    fold_left
      (fun m model =>
         let model := TrimSpace model in
         if decide (model = ""%string) then m else <[model := true]> m)
      (SplitString modelList ","%string) ∅.

End Load.

(** A package variable of map type is [nil] until
    [initModelSupportConfig] has run. *)
Definition isModelSupportToolCall
    (unsupported supported : option (gmap string bool))
    (modelName : string) : bool :=
  if match unsupported with
     | Some m => index m modelName
     | None => false
     end
  then false
  else if match supported with
          | Some m => index m modelName
          | None => false
          end
  then true
  else false.

End Configured.

(** The two lists as either version sees them. *)
Definition listed_opt (m : option (gmap string bool)) (name : string) : Prop :=
  match m with
  | Some m => listed m name
  | None => False
  end.

Lemma index_listed m name : index m name = true <-> listed m name.
Proof.
  unfold index, listed. destruct (m !! name) as [[|]|]; split; congruence.
Qed.

Lemma index_listed_opt m name :
  match m with Some m => index m name | None => false end = true
  <-> listed_opt m name.
Proof.
  destruct m as [m|]; simpl; [apply index_listed|]. split; [discriminate | tauto].
Qed.

Lemma only_true_listed m name :
  only_true m -> (listed m name <-> is_Some (m !! name)).
Proof.
  intros Hm. unfold listed. split; [eauto|].
  intros [v Hv]. rewrite Hv. f_equal. eapply Hm, Hv.
Qed.

Lemma table_only_true names : only_true (table names).
Proof.
  unfold only_true, table. induction names as [|n names IH]; intros k v; simpl.
  - rewrite lookup_empty. discriminate.
  - rewrite lookup_insert. case_decide; [congruence | apply IH].
Qed.

Lemma table_listed names name : listed (table names) name <-> In name names.
Proof.
  unfold listed, table. induction names as [|n names IH]; simpl.
  - rewrite lookup_empty. split; [discriminate | tauto].
  - rewrite lookup_insert. case_decide; [subst; tauto|].
    rewrite IH. split; [tauto | intros [? | ?]; congruence].
Qed.

Lemma load_models_only_true Split TrimSpace modelList :
  only_true (Configured.load_models Split TrimSpace modelList).
Proof.
  unfold Configured.load_models.
  case_decide; [intros k v; rewrite lookup_empty; discriminate|].
  generalize (Configured.SplitString Split modelList ",").
  assert (Hinit : only_true (∅ : gmap string bool))
    by (intros k v; rewrite lookup_empty; discriminate).
  revert Hinit. generalize (∅ : gmap string bool).
  intros m Hm l. revert m Hm.
  induction l as [|x l IH]; intros m Hm; simpl; [exact Hm|].
  apply IH. case_decide; [exact Hm|].
  intros k v. rewrite lookup_insert. case_decide; [congruence | apply Hm].
Qed.

(** C9.  In both versions, [isModelSupportToolCall] answers [true] only
    for a name on the supported list; a name on both lists gets [false]
    (the unsupported list is consulted first), and so does a name on
    neither list.  Altogether the answer is [true] exactly for the names
    on the supported list that are not on the unsupported one. *)
Theorem isModelSupportToolCall_default_deny
    (unsupported supported : gmap string bool)
    (unsupported' supported' : option (gmap string bool))
    (modelName : string) :
  ((Static.isModelSupportToolCall unsupported supported modelName = true ->
    listed supported modelName) /\
   (listed unsupported modelName -> listed supported modelName ->
    Static.isModelSupportToolCall unsupported supported modelName = false) /\
   (~ listed unsupported modelName -> ~ listed supported modelName ->
    Static.isModelSupportToolCall unsupported supported modelName = false) /\
   (Static.isModelSupportToolCall unsupported supported modelName = true <->
    listed supported modelName /\ ~ listed unsupported modelName)) /\
  ((Configured.isModelSupportToolCall unsupported' supported' modelName = true ->
    listed_opt supported' modelName) /\
   (listed_opt unsupported' modelName -> listed_opt supported' modelName ->
    Configured.isModelSupportToolCall unsupported' supported' modelName = false) /\
   (~ listed_opt unsupported' modelName -> ~ listed_opt supported' modelName ->
    Configured.isModelSupportToolCall unsupported' supported' modelName = false) /\
   (Configured.isModelSupportToolCall unsupported' supported' modelName = true <->
    listed_opt supported' modelName /\ ~ listed_opt unsupported' modelName)).
Proof.
  unfold Static.isModelSupportToolCall, Configured.isModelSupportToolCall.
  pose proof (index_listed unsupported modelName) as Hu.
  pose proof (index_listed supported modelName) as Hs.
  pose proof (index_listed_opt unsupported' modelName) as Hu'.
  pose proof (index_listed_opt supported' modelName) as Hs'.
  split.
  - destruct (index unsupported modelName), (index supported modelName);
      intuition congruence.
  - destruct (match unsupported' with Some m => index m modelName | None => false end),
      (match supported' with Some m => index m modelName | None => false end);
      intuition congruence.
Qed.

(** On the tables of the source: no model is on both lists, a listed
    model gets its list's answer and an unknown one is refused; a model
    put on both lists is refused. *)
Example static_tables :
  (forall name,
      ~ (listed Static.unsupportedToolCallModels name /\
         listed Static.supportedToolCallModels name)) /\
  Static.isModelSupportToolCall (table ["qwen2:7b"%string])
    (table ["qwen2:7b"%string]) "qwen2:7b" = false /\
  Configured.isModelSupportToolCall None None "gpt-4o" = false /\
  Static.isModelSupportToolCall Static.unsupportedToolCallModels
    Static.supportedToolCallModels "gpt-4o" = true /\
  Static.isModelSupportToolCall Static.unsupportedToolCallModels
    Static.supportedToolCallModels "deepseek-r1" = false /\
  Static.isModelSupportToolCall Static.unsupportedToolCallModels
    Static.supportedToolCallModels "weave-local" = false.
Proof.
  split; [|repeat split; vm_compute; reflexivity].
  intros name [Hu Hs].
  apply table_listed in Hu. apply table_listed in Hs.
  simpl in Hu. repeat (destruct Hu as [<- | Hu];
    [simpl in Hs; intuition discriminate|]). exact Hu.
Qed.

(** ** Loading the lists from the configuration *)

Section Config.

Variable Split : string -> string -> list string.
Variable TrimSpace : string -> string.

(** [initModelSupportConfig]: the two package variables, supported and
    unsupported, after it has run on the two configuration strings. *)
Definition initModelSupportConfig
    (supportedModelList unsupportedModelList : string)
  : option (gmap string bool) * option (gmap string bool) :=
  (Some (Configured.load_models Split TrimSpace supportedModelList),
   Some (Configured.load_models Split TrimSpace unsupportedModelList)).

(** A name is named by a configuration string when it is, trimmed and
    not empty, one of the comma-separated pieces of the string. *)
Definition named (modelList name : string) : Prop :=
  modelList <> ""%string /\ name <> ""%string /\
  exists piece, In piece (Split modelList ","%string) /\
                TrimSpace piece = name.

Lemma listed_fold_models (pieces : list string) : forall m name,
  listed
    (fold_left
       (fun m model =>
          let model := TrimSpace model in
          if decide (model = ""%string) then m else <[model := true]> m)
       pieces m) name
  <-> listed m name \/
      (name <> ""%string /\
       exists piece, In piece pieces /\ TrimSpace piece = name).
Proof.
  induction pieces as [|p pieces IH]; intros m name; cbn [fold_left].
  - split; [tauto|]. intros [? | (_ & ? & [] & _)]. assumption.
  - rewrite IH. cbv zeta.
    destruct (decide (TrimSpace p = ""%string)) as [Hempty | Hne].
    + split.
      * intros [Hm | (Hn & piece & Hin & Hp)]; [tauto|].
        right. split; [exact Hn|]. exists piece. split; [right|]; assumption.
      * intros [Hm | (Hn & piece & [-> | Hin] & Hp)]; [tauto | congruence|].
        right. eauto.
    + unfold listed at 1. rewrite lookup_insert.
      destruct (decide (TrimSpace p = name)) as [Heq | Hneq].
      * split; [|tauto]. intros _. right. split; [congruence|].
        exists p. split; [left; reflexivity | exact Heq].
      * fold (listed m name). split.
        -- intros [Hm | (Hn & piece & Hin & Hp)]; [tauto|].
           right. split; [exact Hn|]. exists piece.
           split; [right|]; assumption.
        -- intros [Hm | (Hn & piece & [-> | Hin] & Hp)];
             [tauto | congruence|]. right. eauto.
Qed.

Lemma listed_load_models modelList name :
  listed (Configured.load_models Split TrimSpace modelList) name
  <-> named modelList name.
Proof.
  unfold Configured.load_models, Configured.SplitString, named.
  destruct (decide (modelList = ""%string)) as [Hempty | Hne].
  - unfold listed. rewrite lookup_empty. split; [discriminate | tauto].
  - rewrite listed_fold_models. unfold listed at 1. rewrite lookup_empty.
    split.
    + intros [Habs | [Hn Hp]]; [discriminate | tauto].
    + intros (_ & Hn & Hp). right. tauto.
Qed.

(** X17.  After [initModelSupportConfig], a model supports tool calls
    exactly when its name is one of the trimmed, non-empty pieces of the
    supported list and none of the unsupported list; with an empty
    supported list no model does. *)
Theorem configured_tool_support
    (supportedModelList unsupportedModelList modelName : string) :
  let '(supported, unsupported) :=
    initModelSupportConfig supportedModelList unsupportedModelList in
  (Configured.isModelSupportToolCall unsupported supported modelName = true
   <-> named supportedModelList modelName /\
       ~ named unsupportedModelList modelName) /\
  (supportedModelList = ""%string ->
   Configured.isModelSupportToolCall unsupported supported modelName
   = false).
Proof.
  cbn [initModelSupportConfig].
  unfold Configured.isModelSupportToolCall.
  pose proof (index_listed
    (Configured.load_models Split TrimSpace unsupportedModelList) modelName)
    as Hu.
  pose proof (index_listed
    (Configured.load_models Split TrimSpace supportedModelList) modelName)
    as Hs.
  rewrite listed_load_models in Hu, Hs.
  split.
  - destruct (index _ modelName), (index _ modelName);
      intuition congruence.
  - intros Hempty.
    assert (Hnot : ~ named supportedModelList modelName)
      by (unfold named; tauto).
    destruct (index _ modelName), (index _ modelName);
      intuition congruence.
Qed.

End Config.

End ToolSupport.

(** * float64, with its range *)
Module Float64.

Local Open Scope R_scope.

(** A [float64] is a finite number, an infinity or NaN.  Inside the
    range the arithmetic below is exact: rounding errors are left out.
    The range is that of IEEE 754 binary64, with the infinities and NaN
    of its arithmetic: a result whose magnitude reaches [2^1024 - 2^970]
    rounds to an infinity.  There is one zero, which divides as [+0]
    does; every divisor of the code that can be zero is a [+0]. *)
Inductive float64 :=
| Finite (x : R)
| Inf (negative : bool)
| NaN.

Definition ulp_top : R := 2 ^ 970.

(** [math.MaxFloat64], which is [2^1024 - 2^971]. *)
Definition MaxFloat64 : R := 18014398509481982 * ulp_top.

(** Half a unit in the last place above it. *)
Definition overflow : R := 18014398509481983 * ulp_top.

Definition negative_real (x : R) : bool :=
  if Rlt_dec x 0 then true else false.

Definition round (x : R) : float64 :=
  if Rlt_dec (Rabs x) overflow then Finite x else Inf (negative_real x).

Definition add (a b : float64) : float64 :=
  match a, b with
  | NaN, _ => NaN
  | _, NaN => NaN
  | Inf s, Inf t => if Bool.eqb s t then Inf s else NaN
  | Inf s, Finite _ => Inf s
  | Finite _, Inf t => Inf t
  | Finite x, Finite y => round (x + y)
  end.

Definition opp (a : float64) : float64 :=
  match a with
  | Finite x => Finite (- x)
  | Inf s => Inf (negb s)
  | NaN => NaN
  end.

Definition sub (a b : float64) : float64 := add a (opp b).

Definition mul (a b : float64) : float64 :=
  match a, b with
  | NaN, _ => NaN
  | _, NaN => NaN
  | Inf s, Inf t => Inf (xorb s t)
  | Inf s, Finite y =>
      if Req_dec_T y 0 then NaN else Inf (xorb s (negative_real y))
  | Finite x, Inf t =>
      if Req_dec_T x 0 then NaN else Inf (xorb (negative_real x) t)
  | Finite x, Finite y => round (x * y)
  end.

Definition div (a b : float64) : float64 :=
  match a, b with
  | NaN, _ => NaN
  | _, NaN => NaN
  | Inf _, Inf _ => NaN
  | Inf s, Finite y => Inf (xorb s (negative_real y))
  | Finite _, Inf _ => Finite 0
  | Finite x, Finite y =>
      if Req_dec_T y 0 then
        if Req_dec_T x 0 then NaN else Inf (negative_real x)
      else round (x / y)
  end.

(** [math.Max]: [+Inf] wins, then NaN. *)
Definition Max (a b : float64) : float64 :=
  match a, b with
  | Inf false, _ => Inf false
  | _, Inf false => Inf false
  | NaN, _ => NaN
  | _, NaN => NaN
  | Inf true, _ => b
  | _, Inf true => a
  | Finite x, Finite y => Finite (Rmax x y)
  end.

(** [math.Log]: [Log(+Inf) = +Inf], [Log(0) = -Inf], NaN below 0. *)
Definition Log (a : float64) : float64 :=
  match a with
  | NaN => NaN
  | Inf false => Inf false
  | Inf true => NaN
  | Finite x =>
      if Rlt_dec x 0 then NaN
      else if Req_dec_T x 0 then Inf true
      else Finite (ln x)
  end.

(** [float64(n)] for an [int]. *)
Definition of_int (n : Z) : float64 := Finite (IZR n).

(** [a > 0] *)
Definition is_positive (a : float64) : bool :=
  match a with
  | Finite x => if Rlt_dec 0 x then true else false
  | Inf s => negb s
  | NaN => false
  end.

(** [a == 0] *)
Definition is_zero (a : float64) : bool :=
  match a with
  | Finite x => if Req_dec_T x 0 then true else false
  | _ => false
  end.

Lemma ulp_top_positive : 0 < ulp_top.
Proof. unfold ulp_top. apply pow_lt. lra. Qed.

Lemma MaxFloat64_below_overflow : MaxFloat64 < overflow.
Proof. unfold MaxFloat64, overflow. pose proof ulp_top_positive. lra. Qed.

Lemma ulp_top_large : 1 <= ulp_top.
Proof. unfold ulp_top. apply pow_R1_Rle. lra. Qed.

Lemma round_exact x : Rabs x <= MaxFloat64 -> round x = Finite x.
Proof.
  intros Hx. unfold round. pose proof MaxFloat64_below_overflow.
  destruct (Rlt_dec (Rabs x) overflow); [reflexivity | lra].
Qed.

Lemma round_nonneg_exact x : 0 <= x <= MaxFloat64 -> round x = Finite x.
Proof. intros Hx. apply round_exact. rewrite Rabs_pos_eq; lra. Qed.

Lemma round_overflow x : overflow <= x -> round x = Inf false.
Proof.
  intros Hx. unfold round, negative_real.
  pose proof ulp_top_positive. unfold overflow in *.
  rewrite Rabs_pos_eq by lra.
  destruct (Rlt_dec x _); [lra|].
  destruct (Rlt_dec x 0); [lra | reflexivity].
Qed.

Lemma MaxFloat64_large : (2 <= MaxFloat64).
Proof. unfold MaxFloat64. pose proof ulp_top_large. lra. Qed.

Lemma add_exact x y :
  (0 <= x + y <= MaxFloat64) -> add (Finite x) (Finite y) = Finite (x + y).
Proof. intros H. cbn [add]. apply round_nonneg_exact, H. Qed.

Lemma sub_exact x y :
  (0 <= x - y <= MaxFloat64) -> sub (Finite x) (Finite y) = Finite (x - y).
Proof. intros H. cbn [sub opp add]. apply round_nonneg_exact, H. Qed.

Lemma mul_exact x y :
  (0 <= x * y <= MaxFloat64) -> mul (Finite x) (Finite y) = Finite (x * y).
Proof. intros H. cbn [mul]. apply round_nonneg_exact, H. Qed.

Lemma div_exact x y :
  y <> 0 -> (0 <= x / y <= MaxFloat64) ->
  div (Finite x) (Finite y) = Finite (x / y).
Proof.
  intros Hy H. cbn [div].
  destruct (Req_dec_T y 0) as [Hz | _]; [contradiction|].
  apply round_nonneg_exact, H.
Qed.

Lemma ulp_top_four : 4 <= ulp_top.
Proof.
  unfold ulp_top. change 970%nat with (2 + 968)%nat. rewrite pow_add.
  assert (1 <= 2 ^ 968) by (apply pow_R1_Rle; lra).
  assert (2 ^ 2 = 4) by (cbn; lra). nra.
Qed.

Lemma add_finite x y :
  Rabs (x + y) < overflow -> add (Finite x) (Finite y) = Finite (x + y).
Proof.
  intros H. cbn [add]. unfold round.
  destruct (Rlt_dec (Rabs (x + y)) overflow); [reflexivity | contradiction].
Qed.

Lemma mul_overflow x y :
  overflow <= x * y -> mul (Finite x) (Finite y) = Inf false.
Proof. intros H. cbn [mul]. apply round_overflow, H. Qed.

End Float64.

(** * services/aichat/pkg/bm25.go *)
Module BM25.

(** [m[k]] on a [map[string]int], and [m[k]++]. *)
Definition index (m : gmap string Z) (k : string) : Z :=
  match m !! k with
  | Some v => v
  | None => 0
  end.

Definition incr (m : gmap string Z) (k : string) : gmap string Z :=
  <[k := index m k + 1]> m.

(** [for _, word := range words { m[word]++ }] *)
Definition count_words (words : list string) (m : gmap string Z)
  : gmap string Z :=
  fold_left incr words m.

(** [uniqueWords], a [map[string]bool] used as a set. *)
Definition uniqueWords (words : list string) : gset string :=
  list_to_set words.

(** [for word := range uniqueWords { m[word]++ }].  Go leaves the order
    of the iteration open; see [count_unique_any_order]. *)
Definition count_unique (unique : gset string) (m : gmap string Z)
  : gmap string Z :=
  set_fold (fun word m => incr m word) m unique.

Record BM25Calculator := mkCalc {
  documents : list string;
  vocabulary : gmap string Z;
  docLengths : list Z;
  avgDocLength : R;
  docFreq : gmap string Z;
  totalDocs : Z;
  k1 : R;
  b : R;
  bm25Cache : gmap string R
}.

Definition sum_lengths (lengths : list Z) : Z :=
  fold_left Z.add lengths 0.

(** The local [wordScore] struct of [ExtractKeywords]. *)
Record wordScore := mkWordScore { word : string; score : R }.

(** The [less] handed to [sort.Slice]:
    [wordScores[i].score > wordScores[j].score]. *)
Definition less (x y : wordScore) : Prop := (score x > score y)%R.

(** What [sort.Slice] promises: the same elements, and no later element
    [less] than an earlier one.  It does not promise to be stable. *)
Definition sorts (sort_Slice : list wordScore -> list wordScore) : Prop :=
  forall l,
    sort_Slice l ≡ₚ l /\
    StronglySorted (fun x y => ~ less y x) (sort_Slice l).

(** What [sort.Slice] runs on up to 12 elements, [insertionSortLessFunc]:
    each element moves left while it is [less] than its left neighbour.
    [rev_prefix] is the sorted part, nearest neighbour first. *)
Fixpoint insert_back (x : wordScore) (rev_prefix : list wordScore)
  : list wordScore :=
  match rev_prefix with
  | [] => [x]
  | y :: r =>
      if Rgt_dec (score x) (score y) then y :: insert_back x r
      else x :: y :: r
  end.

Definition insertionSort (data : list wordScore) : list wordScore :=
  rev (fold_left (fun rev_prefix x => insert_back x rev_prefix) data []).

(** A [range] over a map yields its entries in an order Go leaves open. *)
Definition ranges (range : gmap string Z -> list (string * Z)) : Prop :=
  forall m, range m ≡ₚ map_to_list m.

(** The IDF in the words of the specification:
    [max(0, ln((N - df + 0.5) / (df + 0.5)))], [df] floored to 1 for an
    unseen term, and 0 on the empty corpus. *)
Definition idf_spec (N df : Z) : R :=
  if N =? 0 then 0%R
  else
    let df := if df =? 0 then 1 else df in
    Rmax 0 (ln ((IZR (N - df) + 0.5) / (IZR df + 0.5))).

(** Text made of words separated by single spaces, on which a tokenizer
    returns the words: the tokenizer of the examples below. *)
Fixpoint fields_from (cur : string) (s : string) : list string :=
  match s with
  | EmptyString => if decide (cur = EmptyString) then [] else [cur]
  | String c s' =>
      if Ascii.eqb c " "%char then
        (if decide (cur = EmptyString) then [] else [cur])
        ++ fields_from EmptyString s'
      else fields_from (cur +:+ String c EmptyString) s'
  end.

Definition fields (text : string) : option (list string) :=
  Some (fields_from EmptyString text).

(** [strings.ToLower] on ASCII letters; a word of [fields] has no white
    space for [strings.TrimSpace] to remove. *)
Definition lower_char (c : ascii) : ascii :=
  let n := N_of_ascii c in
  if ((65 <=? n) && (n <=? 90))%N then ascii_of_N (n + 32) else c.

Fixpoint lower (s : string) : string :=
  match s with
  | EmptyString => EmptyString
  | String c s' => String (lower_char c) (lower s')
  end.

Section Tokenizer.

(** The tokens of [prose.NewDocument(text)] (the [Text] of each), or
    [None] when prose reports an error; and
    [strings.ToLower(strings.TrimSpace(.))].  Both are library code. *)
Variable prose_tokens : string -> option (list string).
Variable lower_trim : string -> string.

Definition tokenize (text : string) : list string :=
  match prose_tokens text with
  | None => []
  | Some toks =>
      List.filter (fun word => (1 <? String.length word)%nat)
        (map lower_trim toks)
  end.

Definition doc_length (doc : string) : Z := Z.of_nat (length (tokenize doc)).

(** The loop of [buildVocabulary], at index [i] with [rest] still to
    visit. *)
Fixpoint buildVocabulary_loop (i : nat) (rest : list string)
    (totalLength : Z) (calc : BM25Calculator) : Z * BM25Calculator :=
  match rest with
  | [] => (totalLength, calc)
  | doc :: rest' =>
      let words := tokenize doc in
      let docLength := Z.of_nat (length words) in
      buildVocabulary_loop (S i) rest' (totalLength + docLength)
        {| documents := documents calc;
           vocabulary := count_words words (vocabulary calc);
           docLengths := <[i := docLength]> (docLengths calc);
           avgDocLength := avgDocLength calc;
           docFreq := count_unique (uniqueWords words) (docFreq calc);
           totalDocs := totalDocs calc;
           k1 := k1 calc;
           b := b calc;
           bm25Cache := bm25Cache calc |}
  end.

Definition buildVocabulary (calc : BM25Calculator) : BM25Calculator :=
  let '(totalLength, calc') :=
    buildVocabulary_loop 0 (documents calc) 0 calc in
  {| documents := documents calc';
     vocabulary := vocabulary calc';
     docLengths := docLengths calc';
     avgDocLength :=
       if (0 <? length (documents calc'))%nat
       then (IZR totalLength / IZR (Z.of_nat (length (documents calc'))))%R
       else avgDocLength calc';
     docFreq := docFreq calc';
     totalDocs := Z.of_nat (length (documents calc'));
     k1 := k1 calc';
     b := b calc';
     bm25Cache := bm25Cache calc' |}.

Definition NewBM25Calculator (docs : list string) : BM25Calculator :=
  buildVocabulary
    {| documents := docs;
       vocabulary := ∅;
       docLengths := replicate (length docs) 0;
       avgDocLength := 0%R;
       docFreq := ∅;
       totalDocs := Z.of_nat (length docs);
       k1 := 1.5%R;
       b := 0.75%R;
       bm25Cache := ∅ |}.

Definition AddDocument (calc : BM25Calculator) (doc : string)
  : BM25Calculator :=
  let documents' := documents calc ++ [doc] in
  let words := tokenize doc in
  let docLength := Z.of_nat (length words) in
  let docLengths' := docLengths calc ++ [docLength] in
  let totalLength := sum_lengths docLengths' in
  {| documents := documents';
     vocabulary := count_words words (vocabulary calc);
     docLengths := docLengths';
     avgDocLength :=
       (IZR totalLength / IZR (Z.of_nat (length docLengths')))%R;
     docFreq := count_unique (uniqueWords words) (docFreq calc);
     totalDocs := Z.of_nat (length documents');
     k1 := k1 calc;
     b := b calc;
     bm25Cache := ∅ |}.

Definition SetParameters (calc : BM25Calculator) (k1' b' : R)
  : BM25Calculator :=
  {| documents := documents calc;
     vocabulary := vocabulary calc;
     docLengths := docLengths calc;
     avgDocLength := avgDocLength calc;
     docFreq := docFreq calc;
     totalDocs := totalDocs calc;
     k1 := k1';
     b := b';
     bm25Cache := ∅ |}.

Definition calculateIDF (calc : BM25Calculator) (word : string) : R :=
  if totalDocs calc =? 0 then 0%R
  else
    let df := index (docFreq calc) word in
    let df := if df =? 0 then 1 else df in
    let idf :=
      (ln (IZR (totalDocs calc - df) + 0.5) / (IZR df + 0.5))%R in
    Rmax 0 idf.

(** The body of the loop over [queryWords], shared by
    [calculateBM25Score] and [CalculateQuerySimilarity], in real
    numbers.  [Range.score_word] below is the same body on float64. *)
Definition score_word (calc : BM25Calculator) (docWordFreq : gmap string Z)
    (docLength : Z) (avgLength : R) (score : R) (word : string) : R :=
  let idf := calculateIDF calc word in
  let tf := IZR (index docWordFreq word) in
  if Rlt_dec 0 tf then
    let numerator := (tf * (k1 calc + 1))%R in
    let denominator :=
      (tf + k1 calc * (1 - b calc + b calc * IZR docLength / avgLength))%R in
    (score + idf * numerator / denominator)%R
  else score.

(** [None] stands for the panic of an index out of range. *)
Definition calculateBM25Score (calc : BM25Calculator)
    (queryWords : list string) (docIndex : nat) : option R :=
  match docLengths calc !! docIndex, documents calc !! docIndex with
  | Some docLength, Some doc =>
      let docWords := tokenize doc in
      let docWordFreq := count_words docWords ∅ in
      Some (fold_left
              (score_word calc docWordFreq docLength (avgDocLength calc))
              queryWords 0%R)
  | _, _ => None
  end.

(** [Calculate] scores every document against [tokenize(text)]; this is
    the score it stores for the document at [docIndex]. *)
Definition Score (calc : BM25Calculator) (query : string) (docIndex : nat)
  : option R :=
  calculateBM25Score calc (tokenize query) docIndex.

Definition CalculateQuerySimilarity (calc : BM25Calculator)
    (query document : string) : R :=
  let queryWords := tokenize query in
  let docWords := tokenize document in
  let docLength := Z.of_nat (length docWords) in
  let avgLength :=
    if Req_dec_T (avgDocLength calc) 0 then IZR docLength
    else avgDocLength calc in
  let docWordFreq := count_words docWords ∅ in
  fold_left (score_word calc docWordFreq docLength avgLength) queryWords 0%R.

(** [ExtractKeywords], in a run where [range wordFreq] yields the
    entries in the order [range] and [sort.Slice] is [sort_Slice]. *)
Definition ExtractKeywords
    (range : gmap string Z -> list (string * Z))
    (sort_Slice : list wordScore -> list wordScore)
    (calc : BM25Calculator) (text : string) (topN : Z) : list string :=
  let words := tokenize text in
  let wordFreq := count_words words ∅ in
  let wordScores :=
    map (fun entry : string * Z =>
           let idf := calculateIDF calc (fst entry) in
           let tf :=
             (IZR (snd entry) / IZR (Z.of_nat (length words)))%R in
           mkWordScore (fst entry)
             (idf * tf * ln (IZR (totalDocs calc + 1)))%R)
        (range wordFreq) in
  let sorted := sort_Slice wordScores in
  map word (take (Z.to_nat topN) sorted).

(** The score [ExtractKeywords] gives a token of [text]. *)
Definition keyword_score (calc : BM25Calculator) (text : string)
    (w : string) : R :=
  let words := tokenize text in
  (calculateIDF calc w
   * (IZR (index (count_words words ∅) w) / IZR (Z.of_nat (length words)))
   * ln (IZR (totalDocs calc + 1)))%R.

(** The states a calculator goes through by its own methods, as long as
    no one else stores into the backing array of its documents: the
    field [documents] is the corpus its index was computed from.  What
    other holders of that array can do to it is the matter of the
    section on shared documents below. *)
Inductive reachable : BM25Calculator -> Prop :=
| reach_new docs : reachable (NewBM25Calculator docs)
| reach_add calc doc : reachable calc -> reachable (AddDocument calc doc)
| reach_set calc k1' b' :
    reachable calc -> reachable (SetParameters calc k1' b').

(** The index agrees with the corpus. *)
Record consistent (calc : BM25Calculator) : Prop := {
  cons_lengths : docLengths calc = map doc_length (documents calc);
  cons_total : totalDocs calc = Z.of_nat (length (documents calc));
  cons_avg :
    documents calc <> [] ->
    avgDocLength calc =
    (IZR (sum_lengths (docLengths calc))
     / IZR (Z.of_nat (length (documents calc))))%R
}.

(** What [NewBM25Calculator] leaves in each field, in closed form. *)
Definition vocabulary_of (docs : list string) (m : gmap string Z)
  : gmap string Z :=
  fold_left (fun m doc => count_words (tokenize doc) m) docs m.

Definition docFreq_of (docs : list string) (m : gmap string Z)
  : gmap string Z :=
  fold_left (fun m doc => count_unique (uniqueWords (tokenize doc)) m) docs m.

Definition index_of (docs : list string) : BM25Calculator :=
  {| documents := docs;
     vocabulary := vocabulary_of docs ∅;
     docLengths := map doc_length docs;
     avgDocLength :=
       if (0 <? length docs)%nat
       then (IZR (sum_lengths (map doc_length docs))
             / IZR (Z.of_nat (length docs)))%R
       else 0%R;
     docFreq := docFreq_of docs ∅;
     totalDocs := Z.of_nat (length docs);
     k1 := 1.5%R;
     b := 0.75%R;
     bm25Cache := ∅ |}.

Lemma buildVocabulary_loop_spec rest : forall i totalLength calc,
  (i + length rest <= length (docLengths calc))%nat ->
  buildVocabulary_loop i rest totalLength calc =
  (fold_left Z.add (map doc_length rest) totalLength,
   {| documents := documents calc;
      vocabulary := vocabulary_of rest (vocabulary calc);
      docLengths :=
        take i (docLengths calc) ++ map doc_length rest
        ++ drop (i + length rest) (docLengths calc);
      avgDocLength := avgDocLength calc;
      docFreq := docFreq_of rest (docFreq calc);
      totalDocs := totalDocs calc;
      k1 := k1 calc;
      b := b calc;
      bm25Cache := bm25Cache calc |}).
Proof.
  induction rest as [|doc rest IH]; intros i totalLength calc Hlen.
  - simpl. rewrite Nat.add_0_r, take_drop. destruct calc; reflexivity.
  - simpl in Hlen. cbn [buildVocabulary_loop].
    rewrite IH by (cbn [docLengths]; rewrite length_insert; lia).
    cbn [documents vocabulary docLengths avgDocLength docFreq totalDocs
         k1 b bm25Cache map fold_left vocabulary_of docFreq_of length].
    fold (doc_length doc).
    f_equal. f_equal.
    assert (Hi : (i < length (docLengths calc))%nat) by lia.
    destruct (lookup_lt_is_Some_2 (<[i:=doc_length doc]> (docLengths calc)) i)
      as [x Hx]; [rewrite length_insert; lia|].
    rewrite (take_S_r _ _ _ Hx).
    rewrite list_lookup_insert_eq in Hx by lia. injection Hx as <-.
    rewrite take_insert_ge by lia.
    rewrite drop_insert_lt by lia.
    rewrite <- app_assoc. simpl.
    replace (S (i + length rest)) with (i + S (length rest))%nat by lia.
    reflexivity.
Qed.

Lemma NewBM25Calculator_spec docs : NewBM25Calculator docs = index_of docs.
Proof.
  unfold NewBM25Calculator, buildVocabulary.
  cbn [documents].
  rewrite buildVocabulary_loop_spec
    by (cbn [docLengths]; rewrite length_replicate; lia).
  cbn [documents vocabulary docLengths avgDocLength docFreq totalDocs
       k1 b bm25Cache].
  unfold index_of. f_equal.
  rewrite Nat.add_0_l, drop_ge by (rewrite length_replicate; lia).
  rewrite app_nil_r. reflexivity.
Qed.

Lemma fold_left_snoc {A B} (f : A -> B -> A) l x a :
  fold_left f (l ++ [x]) a = f (fold_left f l a) x.
Proof. rewrite fold_left_app. reflexivity. Qed.

Lemma AddDocument_index_of docs doc :
  AddDocument (index_of docs) doc = index_of (docs ++ [doc]).
Proof.
  unfold AddDocument, index_of.
  cbn [documents vocabulary docLengths avgDocLength docFreq totalDocs
       k1 b bm25Cache].
  assert (Hpos : (0 <? length (docs ++ [doc]))%nat = true)
    by (apply Nat.ltb_lt; rewrite length_app; simpl; lia).
  rewrite Hpos, map_app. cbn [map].
  unfold vocabulary_of, docFreq_of. rewrite !fold_left_snoc.
  fold (doc_length doc).
  rewrite !length_app, !length_map. cbn [length].
  reflexivity.
Qed.

(** *** Counting words *)

Lemma index_incr m k w :
  index (incr m k) w = if decide (k = w) then index m k + 1 else index m w.
Proof.
  unfold incr, index at 1. rewrite lookup_insert.
  case_decide; reflexivity.
Qed.

Lemma index_count_words ws : forall m w,
  index (count_words ws m) w
  = index m w + Z.of_nat (count_occ string_dec ws w).
Proof.
  unfold count_words.
  induction ws as [|k ws IH]; intros m w; cbn [fold_left count_occ].
  - lia.
  - rewrite IH, index_incr.
    destruct (string_dec k w) as [-> | Hne]; case_decide; try congruence; lia.
Qed.

Lemma index_empty w : index ∅ w = 0.
Proof. unfold index. rewrite lookup_empty. reflexivity. Qed.

(** The term frequency the scoring loop reads from [docWordFreq]. *)
Lemma term_frequency ws w :
  index (count_words ws ∅) w = Z.of_nat (count_occ string_dec ws w).
Proof. rewrite index_count_words, index_empty. lia. Qed.

Lemma term_frequency_absent ws w :
  ~ In w ws -> index (count_words ws ∅) w = 0.
Proof.
  intros Hw. rewrite term_frequency.
  apply (count_occ_not_In string_dec) in Hw. lia.
Qed.

Lemma term_frequency_present ws w :
  0 < index (count_words ws ∅) w -> In w ws.
Proof.
  rewrite term_frequency. intros Hpos.
  apply (count_occ_In string_dec). lia.
Qed.

(** *** Counting the documents of a word *)

Lemma incr_commute m a c : incr (incr m a) c = incr (incr m c) a.
Proof.
  apply map_eq. intros w. unfold incr at 1 3.
  rewrite !lookup_insert, !index_incr. unfold incr.
  rewrite !lookup_insert.
  repeat case_decide; subst; try congruence; reflexivity.
Qed.

(** The order in which [range uniqueWords] yields the words does not
    matter for the document frequencies. *)
Lemma count_unique_any_order unique m (order : list string) :
  order ≡ₚ elements unique ->
  foldr (fun word m => incr m word) m order = count_unique unique m.
Proof.
  intros Hperm. unfold count_unique, set_fold. cbn [compose].
  apply (foldr_permutation_proper (=) (fun word m => incr m word) m);
    [|exact Hperm].
  intros a1 a2 m'. apply incr_commute.
Qed.

Lemma index_foldr_incr (l : list string) m w :
  index (foldr (fun word m => incr m word) m l) w
  = index m w + Z.of_nat (count_occ string_dec l w).
Proof.
  induction l as [|k l IH]; cbn [foldr count_occ]; [lia|].
  rewrite index_incr.
  destruct (string_dec k w) as [-> | Hne]; case_decide; try congruence; lia.
Qed.

(** A document adds at most one to the document frequency of a word. *)
Lemma index_count_unique unique m w :
  index m w <= index (count_unique unique m) w <= index m w + 1.
Proof.
  unfold count_unique, set_fold. cbn [compose].
  rewrite index_foldr_incr.
  pose proof (NoDup_elements unique) as Hnd.
  apply NoDup_ListNoDup in Hnd.
  pose proof (proj1 (NoDup_count_occ string_dec _) Hnd w). lia.
Qed.

Lemma docFreq_of_bound docs : forall m w,
  index m w <= index (docFreq_of docs m) w
  <= index m w + Z.of_nat (length docs).
Proof.
  unfold docFreq_of.
  induction docs as [|doc docs IH]; intros m w; cbn [fold_left length];
    [lia|].
  pose proof (IH (count_unique (uniqueWords (tokenize doc)) m) w).
  pose proof (index_count_unique (uniqueWords (tokenize doc)) m w).
  lia.
Qed.

(** *** The index stays consistent with the corpus *)

Lemma consistent_index_of docs : consistent (index_of docs).
Proof.
  split; cbn [index_of documents docLengths totalDocs avgDocLength];
    try reflexivity.
  intros Hne. destruct docs; [congruence | reflexivity].
Qed.

Lemma consistent_AddDocument calc doc :
  consistent calc -> consistent (AddDocument calc doc).
Proof.
  intros [Hl Ht Ha].
  split; cbn [AddDocument documents docLengths totalDocs avgDocLength].
  - rewrite Hl, map_app. reflexivity.
  - reflexivity.
  - intros _. rewrite Hl, !length_app, length_map. reflexivity.
Qed.

Lemma consistent_SetParameters calc k1' b' :
  consistent calc -> consistent (SetParameters calc k1' b').
Proof. intros [Hl Ht Ha]. split; assumption. Qed.

Lemma reachable_consistent calc : reachable calc -> consistent calc.
Proof.
  induction 1.
  - rewrite NewBM25Calculator_spec. apply consistent_index_of.
  - apply consistent_AddDocument. assumption.
  - apply consistent_SetParameters. assumption.
Qed.

(** On every calculator reached by its methods, a word is in at most as many
    documents as there are: the logarithm of [calculateIDF] is taken of
    a number that is at least 0.5. *)
Lemma reachable_docFreq calc w :
  reachable calc -> 0 <= index (docFreq calc) w <= totalDocs calc.
Proof.
  induction 1 as [docs | calc doc Hr IH | calc k1' b' Hr IH].
  - rewrite NewBM25Calculator_spec. cbn [index_of docFreq totalDocs].
    pose proof (docFreq_of_bound docs ∅ w) as Hb.
    rewrite index_empty in Hb. lia.
  - pose proof (cons_total calc (reachable_consistent calc Hr)) as Ht.
    cbn [AddDocument docFreq totalDocs].
    pose proof (index_count_unique (uniqueWords (tokenize doc))
                  (docFreq calc) w).
    rewrite length_app. cbn [length]. lia.
  - exact IH.
Qed.

Lemma calculateIDF_log_argument calc w :
  reachable calc -> totalDocs calc <> 0 ->
  let df := if index (docFreq calc) w =? 0 then 1
            else index (docFreq calc) w in
  (0.5 <= IZR (totalDocs calc - df) + 0.5)%R /\ (0 < IZR df + 0.5)%R.
Proof.
  intros Hr HN df. pose proof (reachable_docFreq calc w Hr) as Hb.
  assert (Hdf : 1 <= df <= totalDocs calc).
  { subst df. destruct (Z.eqb_spec (index (docFreq calc) w) 0); lia. }
  split.
  - assert (0 <= IZR (totalDocs calc - df))%R by (apply IZR_le; lia). lra.
  - assert (1 <= IZR df)%R by (apply IZR_le; lia). lra.
Qed.

Lemma fold_add_shift l : forall a, fold_left Z.add l a = a + sum_lengths l.
Proof.
  unfold sum_lengths.
  induction l as [|x l IH]; intros a; cbn [fold_left]; [lia|].
  rewrite (IH (a + x)), (IH (0 + x)). lia.
Qed.

Lemma sum_lengths_cons x l : sum_lengths (x :: l) = x + sum_lengths l.
Proof. unfold sum_lengths at 1. cbn [fold_left]. apply fold_add_shift. Qed.

Lemma sum_lengths_nonneg docs : 0 <= sum_lengths (map doc_length docs).
Proof.
  induction docs as [|d docs IH]; [reflexivity|].
  cbn [map]. rewrite sum_lengths_cons. unfold doc_length at 1. lia.
Qed.

Lemma sum_lengths_member docs doc :
  In doc docs -> doc_length doc <= sum_lengths (map doc_length docs).
Proof.
  induction docs as [|d docs IH]; intros Hin; [destruct Hin|].
  cbn [map]. rewrite sum_lengths_cons.
  destruct Hin as [-> | Hin].
  - pose proof (sum_lengths_nonneg docs). lia.
  - specialize (IH Hin). unfold doc_length in *. lia.
Qed.

(** With a non-empty document in the corpus the average length is
    positive: the division in the scoring loop is by a positive number
    whenever the loop gets to it. *)
Lemma avgDocLength_positive calc doc :
  consistent calc -> In doc (documents calc) -> 0 < doc_length doc ->
  (0 < avgDocLength calc)%R.
Proof.
  intros [Hl Ht Ha] Hin Hpos.
  rewrite Ha by (intros Hnil; rewrite Hnil in Hin; destruct Hin).
  rewrite Hl.
  pose proof (sum_lengths_member _ _ Hin) as Hsum.
  assert (Hn : (0 < length (documents calc))%nat)
    by (destruct (documents calc); [destruct Hin | simpl; lia]).
  apply Rdiv_lt_0_compat; apply IZR_lt; lia.
Qed.

(** *** The scoring loop *)

Lemma calculateIDF_nonneg calc w : (0 <= calculateIDF calc w)%R.
Proof.
  unfold calculateIDF.
  destruct (totalDocs calc =? 0); [lra | apply Rmax_l].
Qed.

Lemma score_word_absent calc docWordFreq docLength avgLength s w :
  index docWordFreq w = 0 ->
  score_word calc docWordFreq docLength avgLength s w = s.
Proof.
  intros Hw. unfold score_word. rewrite Hw.
  destruct (Rlt_dec 0 0) as [Hlt | _]; [lra | reflexivity].
Qed.

Lemma score_word_nonneg calc docWordFreq docLength avgLength s w :
  (0 <= k1 calc)%R -> (0 <= b calc <= 1)%R ->
  0 <= docLength ->
  (0 < index docWordFreq w -> (0 < avgLength)%R) ->
  (0 <= s)%R ->
  (0 <= score_word calc docWordFreq docLength avgLength s w)%R.
Proof.
  intros Hk Hb Hdl Havg Hs. unfold score_word.
  destruct (Rlt_dec 0 (IZR (index docWordFreq w))) as [Htf | _]; [|exact Hs].
  assert (Hpos : (0 < avgLength)%R) by (apply Havg, lt_IZR, Htf).
  pose proof (calculateIDF_nonneg calc w) as Hidf.
  set (tf := IZR (index docWordFreq w)) in *.
  assert (Hdl' : (0 <= IZR docLength)%R) by (apply IZR_le, Hdl).
  assert (Hfrac : (0 <= b calc * IZR docLength / avgLength)%R).
  { apply Rmult_le_pos; [apply Rmult_le_pos; lra|].
    left. apply Rinv_0_lt_compat, Hpos. }
  assert (Hden :
    (0 < tf + k1 calc * (1 - b calc + b calc * IZR docLength / avgLength))%R).
  { apply Rplus_lt_le_0_compat; [exact Htf|].
    apply Rmult_le_pos; lra. }
  assert (Hnum : (0 <= tf * (k1 calc + 1))%R)
    by (apply Rmult_le_pos; lra).
  assert (Hterm :
    (0 <= calculateIDF calc w * (tf * (k1 calc + 1))
          / (tf + k1 calc
                   * (1 - b calc + b calc * IZR docLength / avgLength)))%R).
  { apply Rmult_le_pos; [apply Rmult_le_pos; assumption|].
    left. apply Rinv_0_lt_compat, Hden. }
  lra.
Qed.

Lemma score_loop_absent calc docWordFreq docLength avgLength ws : forall s,
  (forall w, In w ws -> index docWordFreq w = 0) ->
  fold_left (score_word calc docWordFreq docLength avgLength) ws s = s.
Proof.
  induction ws as [|w ws IH]; intros s Hws; cbn [fold_left]; [reflexivity|].
  rewrite score_word_absent by (apply Hws; left; reflexivity).
  apply IH. intros w' Hw'. apply Hws. right. exact Hw'.
Qed.

Lemma score_loop_nonneg calc docWordFreq docLength avgLength ws : forall s,
  (0 <= k1 calc)%R -> (0 <= b calc <= 1)%R ->
  0 <= docLength ->
  (forall w, 0 < index docWordFreq w -> (0 < avgLength)%R) ->
  (0 <= s)%R ->
  (0 <= fold_left (score_word calc docWordFreq docLength avgLength) ws s)%R.
Proof.
  induction ws as [|w ws IH]; intros s Hk Hb Hdl Havg Hs; cbn [fold_left];
    [exact Hs|].
  apply IH; try assumption.
  apply score_word_nonneg; try assumption. apply Havg.
Qed.

(** *** Ranking keywords *)

Lemma count_words_lookup ws : forall (m : gmap string Z) w c,
  count_words ws m !! w = Some c -> In w ws \/ is_Some (m !! w).
Proof.
  unfold count_words.
  induction ws as [|k ws IH]; intros m w c Hc; cbn [fold_left] in Hc.
  - right. eauto.
  - destruct (IH _ _ _ Hc) as [Hin | Hsome].
    + left. right. exact Hin.
    + unfold incr in Hsome. rewrite lookup_insert in Hsome.
      case_decide; [left; left; assumption | right; exact Hsome].
Qed.

Lemma wordFreq_entry ws w c :
  (w, c) ∈ map_to_list (count_words ws ∅) ->
  In w ws /\ c = index (count_words ws ∅) w.
Proof.
  intros Hin. apply elem_of_map_to_list in Hin. split.
  - destruct (count_words_lookup _ _ _ _ Hin) as [? | [? Hempty]];
      [assumption|].
    rewrite lookup_empty in Hempty. discriminate.
  - unfold index. rewrite Hin. reflexivity.
Qed.

(** C3.  Adding a document to the calculator of a corpus gives the very
    calculator that [NewBM25Calculator] builds over the corpus with the
    document appended; so every score, of any query against any document
    index or any text, and every keyword ranking, is the same. *)
Theorem AddDocument_then_Score_is_rebuild (docs : list string) (doc : string) :
  let incremental := AddDocument (NewBM25Calculator docs) doc in
  let rebuilt := NewBM25Calculator (docs ++ [doc]) in
  incremental = rebuilt /\
  (forall query docIndex,
      Score incremental query docIndex = Score rebuilt query docIndex) /\
  (forall queryWords docIndex,
      calculateBM25Score incremental queryWords docIndex =
      calculateBM25Score rebuilt queryWords docIndex) /\
  (forall query text,
      CalculateQuerySimilarity incremental query text =
      CalculateQuerySimilarity rebuilt query text).
Proof.
  intros incremental rebuilt.
  assert (Heq : incremental = rebuilt).
  { subst incremental rebuilt.
    rewrite !NewBM25Calculator_spec. apply AddDocument_index_of. }
  rewrite Heq. repeat split.
Qed.

(** X19.  Adding any number of documents one after the other to the
    calculator of a corpus gives the very calculator that
    [NewBM25Calculator] builds over the corpus followed by these
    documents: every field of the incremental index, the average length
    included, agrees with the rebuilt one. *)
Corollary AddDocument_all_is_rebuild (docs more : list string) :
  fold_left AddDocument more (NewBM25Calculator docs)
  = NewBM25Calculator (docs ++ more).
Proof.
  revert docs. induction more as [|doc more IH]; intros docs.
  - rewrite app_nil_r. reflexivity.
  - cbn [fold_left].
    rewrite (NewBM25Calculator_spec docs), AddDocument_index_of.
    rewrite <- NewBM25Calculator_spec, IH, <- app_assoc. reflexivity.
Qed.

(** In real numbers.  On every calculator reached by its methods, the
    score of any query against any document index of the corpus is
    defined; it is 0 when the document tokenizes to the empty sequence
    and when no token of the query occurs in the document; and it is
    non-negative when the parameters satisfy [0 <= k1] and
    [0 <= b <= 1], as the defaults 1.5 and 0.75 do. *)
Lemma real_score_nonneg (calc : BM25Calculator)
    (queryWords : list string) (docIndex : nat) (doc : string) :
  reachable calc ->
  documents calc !! docIndex = Some doc ->
  exists s,
    calculateBM25Score calc queryWords docIndex = Some s /\
    (tokenize doc = [] -> s = 0%R) /\
    ((forall w, In w queryWords -> ~ In w (tokenize doc)) -> s = 0%R) /\
    ((0 <= k1 calc)%R -> (0 <= b calc <= 1)%R -> (0 <= s)%R).
Proof.
  intros Hreach Hdoc.
  pose proof (reachable_consistent calc Hreach) as Hcons.
  assert (Hlen : docLengths calc !! docIndex = Some (doc_length doc)).
  { rewrite (cons_lengths calc Hcons), list_lookup_fmap, Hdoc. reflexivity. }
  unfold calculateBM25Score. rewrite Hlen, Hdoc.
  eexists. split; [reflexivity|]. repeat split.
  - intros Hempty. rewrite Hempty. apply score_loop_absent.
    intros w _. apply term_frequency_absent. intros [].
  - intros Hdisjoint. apply score_loop_absent.
    intros w Hw. apply term_frequency_absent, Hdisjoint, Hw.
  - intros Hk Hb. apply score_loop_nonneg; auto; try lra.
    + unfold doc_length. lia.
    + intros w Hw. apply term_frequency_present in Hw.
      apply (avgDocLength_positive calc doc Hcons).
      * apply list_elem_of_In, list_elem_of_lookup. eauto.
      * unfold doc_length. destruct (tokenize doc); [destruct Hw | simpl; lia].
Qed.

(** C6, as the code has it.  Whatever order [range] yields the entries
    of [wordFreq] in, and whatever sorted arrangement [sort.Slice]
    returns: when no two distinct tokens of the text have the same score,
    two runs on the same calculator, text and [topN] return the same
    sequence of keywords. *)
Theorem ExtractKeywords_deterministic_without_ties
    (range1 range2 : gmap string Z -> list (string * Z))
    (sort_Slice1 sort_Slice2 : list wordScore -> list wordScore)
    (calc : BM25Calculator) (text : string) (topN : Z) :
  ranges range1 -> ranges range2 ->
  sorts sort_Slice1 -> sorts sort_Slice2 ->
  (forall w1 w2,
      In w1 (tokenize text) -> In w2 (tokenize text) -> w1 <> w2 ->
      keyword_score calc text w1 <> keyword_score calc text w2) ->
  ExtractKeywords range1 sort_Slice1 calc text topN
  = ExtractKeywords range2 sort_Slice2 calc text topN.
Proof.
  intros Hr1 Hr2 Hs1 Hs2 Hties. unfold ExtractKeywords.
  set (wordFreq := count_words (tokenize text) ∅).
  set (entry_score := fun entry : string * Z =>
         mkWordScore (fst entry)
           (calculateIDF calc (fst entry)
            * (IZR (snd entry) / IZR (Z.of_nat (length (tokenize text))))
            * ln (IZR (totalDocs calc + 1)))%R).
  destruct (Hs1 (map entry_score (range1 wordFreq))) as [Hp1 Hsorted1].
  destruct (Hs2 (map entry_score (range2 wordFreq))) as [Hp2 Hsorted2].
  f_equal. f_equal.
  apply (StronglySorted_unique_strong (fun x y => ~ less y x));
    try assumption.
  - intros x y Hx Hy Hxy Hyx.
    rewrite Hp1 in Hx. rewrite Hp2 in Hy.
    apply list_elem_of_fmap in Hx as ([w1 c1] & -> & Hx).
    apply list_elem_of_fmap in Hy as ([w2 c2] & -> & Hy).
    rewrite (Hr1 wordFreq) in Hx. rewrite (Hr2 wordFreq) in Hy.
    apply wordFreq_entry in Hx as [Hw1 ->].
    apply wordFreq_entry in Hy as [Hw2 ->].
    destruct (string_dec w1 w2) as [-> | Hne]; [reflexivity|].
    exfalso. apply (Hties w1 w2 Hw1 Hw2 Hne).
    unfold less, entry_score in Hxy, Hyx. cbn [score fst snd] in Hxy, Hyx.
    unfold keyword_score.
    apply Rle_antisym; apply Rnot_gt_le; assumption.
  - rewrite Hp1, Hp2. apply Permutation_map.
    rewrite (Hr1 wordFreq), (Hr2 wordFreq). reflexivity.
Qed.

End Tokenizer.

(** *** Insertion sort meets the promise of [sort.Slice] *)

Lemma insert_back_perm x rev_prefix :
  insert_back x rev_prefix ≡ₚ x :: rev_prefix.
Proof.
  induction rev_prefix as [|y r IH]; cbn [insert_back]; [reflexivity|].
  destruct (Rgt_dec (score x) (score y)); [|reflexivity].
  rewrite IH. apply perm_swap.
Qed.

Lemma insert_back_sorted x rev_prefix :
  StronglySorted (fun u v => (score u <= score v)%R) rev_prefix ->
  StronglySorted (fun u v => (score u <= score v)%R) (insert_back x rev_prefix).
Proof.
  induction 1 as [|y r Hr IH Hy]; cbn [insert_back].
  - repeat constructor.
  - destruct (Rgt_dec (score x) (score y)) as [Hgt | Hle].
    + constructor; [exact IH|].
      rewrite insert_back_perm. constructor; [lra | exact Hy].
    + constructor; [constructor; assumption|].
      constructor; [lra|].
      eapply Forall_impl; [exact Hy|]. cbv beta. intros z Hz. lra.
Qed.

Lemma StronglySorted_rev {A} (R : relation A) l :
  StronglySorted R l -> StronglySorted (flip R) (rev l).
Proof.
  induction 1 as [|x l Hl IH Hx]; cbn [rev]; [constructor|].
  apply StronglySorted_app_2; [|exact IH | repeat constructor].
  intros u v Hu Hv. apply list_elem_of_singleton in Hv as ->.
  apply list_elem_of_In, in_rev, list_elem_of_In in Hu.
  rewrite Forall_forall in Hx. unfold flip. auto.
Qed.

Lemma insertionSort_sorts : sorts insertionSort.
Proof.
  intros l. unfold insertionSort.
  assert (Hgen : forall data acc,
    StronglySorted (fun u v => (score u <= score v)%R) acc ->
    fold_left (fun rp x => insert_back x rp) data acc ≡ₚ rev data ++ acc /\
    StronglySorted (fun u v => (score u <= score v)%R)
      (fold_left (fun rp x => insert_back x rp) data acc)).
  { induction data as [|x data IH]; intros acc Hacc; cbn [fold_left rev].
    - split; [reflexivity | exact Hacc].
    - destruct (IH (insert_back x acc) (insert_back_sorted x acc Hacc))
        as [Hp Hs].
      split; [|exact Hs].
      rewrite Hp, insert_back_perm, <- app_assoc. reflexivity. }
  destruct (Hgen l [] (SSorted_nil _)) as [Hp Hs].
  split.
  - rewrite <- Permutation_rev, Hp, app_nil_r, <- Permutation_rev.
    reflexivity.
  - apply StronglySorted_rev in Hs.
    induction Hs as [|x r Hr IH Hx]; constructor; [exact IH|].
    eapply Forall_impl; [exact Hx|]. unfold flip, less. cbv beta.
    intros y Hy. lra.
Qed.

Lemma map_to_list_ranges : ranges map_to_list.
Proof. intros m. reflexivity. Qed.

Lemma reverse_map_to_list_ranges : ranges (fun m => reverse (map_to_list m)).
Proof. intros m. apply reverse_Permutation. Qed.

(** ** The code on concrete corpora *)

Open Scope string_scope.
Open Scope Z_scope.

Lemma ln_1_5_positive : (0 < ln 1.5)%R.
Proof. rewrite <- ln_1. apply ln_increasing; lra. Qed.

(** What [calculateIDF] computes, on every calculator: the logarithm of
    [N - df + 0.5] alone, divided by [df + 0.5]. *)
Lemma calculateIDF_formula calc w :
  let N := totalDocs calc in
  let df := if index (docFreq calc) w =? 0 then 1
            else index (docFreq calc) w in
  calculateIDF calc w =
  if N =? 0 then 0%R
  else Rmax 0 (ln (IZR (N - df) + 0.5) / (IZR df + 0.5)).
Proof. reflexivity. Qed.

(** C1 on the corpus ["hello world"; "good morning"] and the term
    "hello": two documents, one of them with the term.  The code returns
    [ln 1.5 / 1.5], which is positive; the formula of the specification
    gives [max(0, ln (1.5 / 1.5)) = 0]. *)
Theorem calculateIDF_divides_the_logarithm :
  let calc := NewBM25Calculator fields lower ["hello world"; "good morning"] in
  totalDocs calc = 2 /\
  index (docFreq calc) "hello" = 1 /\
  calculateIDF calc "hello" = (ln 1.5 / 1.5)%R /\
  idf_spec (totalDocs calc) (index (docFreq calc) "hello") = 0%R /\
  calculateIDF calc "hello"
  <> idf_spec (totalDocs calc) (index (docFreq calc) "hello").
Proof.
  intros calc.
  assert (HN : totalDocs calc = 2) by (vm_compute; reflexivity).
  assert (Hdf : index (docFreq calc) "hello" = 1) by (vm_compute; reflexivity).
  assert (Hcode : calculateIDF calc "hello" = (ln 1.5 / 1.5)%R).
  { unfold calculateIDF. rewrite HN, Hdf. cbn [Z.eqb Pos.eqb Z.sub Z.add Z.opp Z.pos_sub].
    change (2 - 1) with 1.
    replace (1 + 0.5)%R with 1.5%R by lra.
    replace (1 + 0.5)%R with 1.5%R by lra.
    apply Rmax_right. pose proof ln_1_5_positive.
    apply Rlt_le, Rdiv_lt_0_compat; lra. }
  assert (Hspec : idf_spec (totalDocs calc) (index (docFreq calc) "hello") = 0%R).
  { unfold idf_spec. rewrite HN, Hdf. cbn [Z.eqb Pos.eqb].
    change (2 - 1) with 1.
    replace ((1 + 0.5) / (1 + 0.5))%R with 1%R by lra.
    rewrite ln_1. apply Rmax_left. lra. }
  repeat split; try assumption.
  rewrite Hcode, Hspec. pose proof ln_1_5_positive.
  apply Rgt_not_eq, Rdiv_lt_0_compat; lra.
Qed.

(** C4 as stated fails once [SetParameters] has been given [b = 4]: on
    the corpus ["aa bb cc dd ee ff"; "gg hh"] the average length is 4,
    the second document has length 2, and the denominator for "gg" is
    [1 + 1.5 * (1 - 4 + 4 * 2 / 4) = -0.5]; the score is
    [-5 * (ln 1.5 / 1.5)]. *)
Lemma calculateBM25Score_negative :
  let calc :=
    SetParameters
      (NewBM25Calculator fields lower ["aa bb cc dd ee ff"; "gg hh"])
      1.5 4 in
  reachable fields lower calc /\
  documents calc !! 1%nat = Some "gg hh" /\
  calculateBM25Score fields lower calc ["gg"] 1
  = Some (-5 * (ln 1.5 / 1.5))%R /\
  (-5 * (ln 1.5 / 1.5) < 0)%R.
Proof.
  intros calc.
  split; [apply reach_set, reach_new|]. split; [reflexivity|].
  split.
  - assert (Hlen : docLengths calc !! 1%nat = Some 2) by reflexivity.
    assert (Hdoc : documents calc !! 1%nat = Some "gg hh") by reflexivity.
    assert (Hidf : calculateIDF calc "gg" = (ln 1.5 / 1.5)%R).
    { assert (HN : totalDocs calc = 2) by reflexivity.
      assert (Hdf : index (docFreq calc) "gg" = 1) by (vm_compute; reflexivity).
      unfold calculateIDF. rewrite HN, Hdf. cbn [Z.eqb Pos.eqb].
      change (2 - 1) with 1.
      replace (1 + 0.5)%R with 1.5%R by lra.
      apply Rmax_right. pose proof ln_1_5_positive.
      apply Rlt_le, Rdiv_lt_0_compat; lra. }
    assert (Htf : index (count_words (tokenize fields lower "gg hh") ∅) "gg" = 1)
      by (vm_compute; reflexivity).
    assert (Havg : avgDocLength calc = (8 / 2)%R).
    { unfold calc. rewrite NewBM25Calculator_spec.
      cbn [SetParameters avgDocLength index_of length Nat.ltb Nat.leb].
      replace (sum_lengths _) with 8 by (vm_compute; reflexivity).
      reflexivity. }
    unfold calculateBM25Score. rewrite Hlen, Hdoc. f_equal.
    cbn [fold_left]. unfold score_word. rewrite Hidf, Htf, Havg.
    destruct (Rlt_dec 0 1) as [_ | Hn]; [|lra].
    change (k1 calc) with 1.5%R. change (b calc) with 4%R.
    replace (1 + 1.5 * (1 - 4 + 4 * 2 / (8 / 2)))%R with (-0.5)%R by lra.
    generalize (ln 1.5). intros L. lra.
  - pose proof ln_1_5_positive. 
    assert (0 < ln 1.5 / 1.5)%R by (apply Rdiv_lt_0_compat; lra). lra.
Qed.

(** On the empty corpus every IDF is 0. *)
Lemma calculateIDF_empty_corpus calc w :
  totalDocs calc = 0 -> calculateIDF calc w = 0%R.
Proof. intros HN. unfold calculateIDF. rewrite HN. reflexivity. Qed.

(** C6 as stated fails.  On the empty corpus both tokens of "aa bb" score
    0; a run whose [range] yields "aa" first returns ["aa"; "bb"], a run
    whose [range] yields "bb" first returns ["bb"; "aa"].  Both orders
    are orders a [range] may take, and the sort is the one [sort.Slice]
    runs on two elements. *)
Lemma ExtractKeywords_depends_on_map_order :
  let calc := NewBM25Calculator fields lower [] in
  let run1 := ExtractKeywords fields lower map_to_list insertionSort in
  let run2 :=
    ExtractKeywords fields lower (fun m => reverse (map_to_list m))
      insertionSort in
  ranges map_to_list /\
  ranges (fun m => reverse (map_to_list m)) /\
  sorts insertionSort /\
  run1 calc "aa bb" 2 = ["aa"; "bb"] /\
  run2 calc "aa bb" 2 = ["bb"; "aa"] /\
  run1 calc "aa bb" 2 <> run2 calc "aa bb" 2.
Proof.
  intros calc run1 run2.
  assert (Hfreq :
    map_to_list (count_words (tokenize fields lower "aa bb") ∅)
    = [("aa", 1); ("bb", 1)]) by (vm_compute; reflexivity).
  assert (Hidf : forall w, calculateIDF calc w = 0%R)
    by (intros w; apply calculateIDF_empty_corpus; reflexivity).
  assert (H1 : run1 calc "aa bb" 2 = ["aa"; "bb"]).
  { unfold run1, ExtractKeywords. rewrite Hfreq.
    cbn [map fst snd]. rewrite !Hidf.
    unfold insertionSort. cbn [fold_left insert_back score].
    destruct (Rgt_dec _ _) as [Hgt | _]; [lra | reflexivity]. }
  assert (H2 : run2 calc "aa bb" 2 = ["bb"; "aa"]).
  { unfold run2, ExtractKeywords. rewrite Hfreq.
    change (reverse [("aa", 1); ("bb", 1)]) with [("bb", 1); ("aa", 1)].
    cbn [map fst snd]. rewrite !Hidf.
    unfold insertionSort. cbn [fold_left insert_back score].
    destruct (Rgt_dec _ _) as [Hgt | _]; [lra | reflexivity]. }
  split; [apply map_to_list_ranges|].
  split; [apply reverse_map_to_list_ranges|].
  split; [apply insertionSort_sorts|].
  split; [exact H1|]. split; [exact H2|].
  rewrite H1, H2. discriminate.
Qed.

Lemma ln_positive x : (1 < x)%R -> (0 < ln x)%R.
Proof. intros Hx. rewrite <- ln_1. apply ln_increasing; lra. Qed.

(** A text whose tokens have distinct scores: over three documents of
    which one holds "aa", "aa" occurs twice and "zz" once in "aa aa zz". *)
Lemma keyword_scores_distinct :
  let calc :=
    NewBM25Calculator fields lower ["aa bb"; "cc dd"; "ee ff"] in
  forall w1 w2,
    In w1 (tokenize fields lower "aa aa zz") ->
    In w2 (tokenize fields lower "aa aa zz") -> w1 <> w2 ->
    keyword_score fields lower calc "aa aa zz" w1
    <> keyword_score fields lower calc "aa aa zz" w2.
Proof.
  intros calc.
  assert (Htok : tokenize fields lower "aa aa zz" = ["aa"; "aa"; "zz"])
    by (vm_compute; reflexivity).
  assert (HN : totalDocs calc = 3) by reflexivity.
  assert (Hdfa : index (docFreq calc) "aa" = 1) by (vm_compute; reflexivity).
  assert (Hdfz : index (docFreq calc) "zz" = 0) by (vm_compute; reflexivity).
  assert (Htfa : index (count_words ["aa"; "aa"; "zz"] ∅) "aa" = 2)
    by (vm_compute; reflexivity).
  assert (Htfz : index (count_words ["aa"; "aa"; "zz"] ∅) "zz" = 1)
    by (vm_compute; reflexivity).
  assert (Hidf : forall w,
    index (docFreq calc) w = 1 \/ index (docFreq calc) w = 0 ->
    calculateIDF calc w = (ln 2.5 / 1.5)%R).
  { intros w Hw. unfold calculateIDF. rewrite HN.
    replace (if index (docFreq calc) w =? 0 then 1
             else index (docFreq calc) w) with 1
      by (destruct Hw as [-> | ->]; reflexivity).
    cbn [Z.eqb]. change (3 - 1) with 2.
    replace (2 + 0.5)%R with 2.5%R by lra.
    replace (1 + 0.5)%R with 1.5%R by lra.
    apply Rmax_right. pose proof (ln_positive 2.5 ltac:(lra)).
    apply Rlt_le, Rdiv_lt_0_compat; lra. }
  assert (Hsa : keyword_score fields lower calc "aa aa zz" "aa"
                = (ln 2.5 / 1.5 * (2 / 3) * ln 4)%R).
  { unfold keyword_score. rewrite Htok, Htfa, HN, Hidf by auto. reflexivity. }
  assert (Hsz : keyword_score fields lower calc "aa aa zz" "zz"
                = (ln 2.5 / 1.5 * (1 / 3) * ln 4)%R).
  { unfold keyword_score. rewrite Htok, Htfz, HN, Hidf by auto. reflexivity. }
  assert (Hpos : (0 < ln 2.5 / 1.5 * ln 4)%R).
  { pose proof (ln_positive 2.5 ltac:(lra)).
    pose proof (ln_positive 4 ltac:(lra)).
    apply Rmult_lt_0_compat; [apply Rdiv_lt_0_compat; lra | assumption]. }
  intros w1 w2 H1 H2 Hne. rewrite Htok in H1, H2.
  assert (Hcases : (w1 = "aa" /\ w2 = "zz") \/ (w1 = "zz" /\ w2 = "aa")).
  { simpl in H1, H2. intuition congruence. }
  destruct Hcases as [[-> ->] | [-> ->]]; rewrite Hsa, Hsz; nra.
Qed.

(** The hypotheses of [ExtractKeywords_deterministic_without_ties] at that
    text, for the two iteration orders of the counterexample. *)
Lemma ExtractKeywords_deterministic_without_ties_witness :
  let calc :=
    NewBM25Calculator fields lower ["aa bb"; "cc dd"; "ee ff"] in
  ExtractKeywords fields lower map_to_list insertionSort calc "aa aa zz" 2
  = ExtractKeywords fields lower (fun m => reverse (map_to_list m))
      insertionSort calc "aa aa zz" 2.
Proof.
  intros calc.
  apply (ExtractKeywords_deterministic_without_ties fields lower).
  - apply map_to_list_ranges.
  - apply reverse_map_to_list_ranges.
  - apply insertionSort_sorts.
  - apply insertionSort_sorts.
  - apply keyword_scores_distinct.
Defined.

(** ** The rest of the calculator *)

Close Scope string_scope.

Section Index.

Variable prose_tokens : string -> option (list string).
Variable lower_trim : string -> string.

Local Abbreviation tokens := (tokenize prose_tokens lower_trim).
Local Abbreviation held := (reachable prose_tokens lower_trim).

Definition GetDocumentCount (calc : BM25Calculator) : Z := totalDocs calc.

(** [len(calc.vocabulary)] *)
Definition GetVocabularySize (calc : BM25Calculator) : Z :=
  Z.of_nat (size (vocabulary calc)).

(** The loop of [Calculate], at index [i] with [rest] still to visit;
    [None] stands for the panic of [calculateBM25Score]. *)
Fixpoint Calculate_loop (i : nat) (rest : list string)
    (queryWords : list string) (calc : BM25Calculator)
    (result : gmap string R) : option (gmap string R) :=
  match rest with
  | [] => Some result
  | doc :: rest' =>
      match calculateBM25Score prose_tokens lower_trim calc queryWords i with
      | Some score =>
          Calculate_loop (S i) rest' queryWords calc (<[doc := score]> result)
      | None => None
      end
  end.

Definition Calculate (calc : BM25Calculator) (text : string)
  : option (gmap string R) :=
  let queryWords := tokens text in
  Calculate_loop 0 (documents calc) queryWords calc ∅.

(** The number of documents in which a word occurs, and the number of
    its occurrences in all of them. *)
Fixpoint documents_with (w : string) (docs : list string) : Z :=
  match docs with
  | [] => 0
  | doc :: rest =>
      (if decide (w ∈ tokens doc) then 1 else 0) + documents_with w rest
  end.

Fixpoint occurrences (w : string) (docs : list string) : Z :=
  match docs with
  | [] => 0
  | doc :: rest =>
      Z.of_nat (count_occ string_dec (tokens doc) w) + occurrences w rest
  end.

(** All tokens of the corpus. *)
Definition corpus_tokens (docs : list string) : list string :=
  concat (map tokens docs).

Lemma index_count_unique_exact unique m w :
  index (count_unique unique m) w
  = index m w + (if decide (w ∈ unique) then 1 else 0).
Proof.
  unfold count_unique, set_fold. cbn [compose].
  rewrite index_foldr_incr. f_equal.
  pose proof (NoDup_elements unique) as Hnd.
  apply NoDup_ListNoDup in Hnd.
  pose proof (proj1 (NoDup_count_occ string_dec _) Hnd w) as Hle.
  case_decide as Hin.
  - apply elem_of_elements, list_elem_of_In in Hin.
    apply (count_occ_In string_dec) in Hin. lia.
  - assert (Hnot : ~ In w (elements unique)).
    { intros Hw. apply Hin, elem_of_elements, list_elem_of_In, Hw. }
    apply (count_occ_not_In string_dec) in Hnot. lia.
Qed.

Lemma index_docFreq_of docs : forall m w,
  index (docFreq_of prose_tokens lower_trim docs m) w
  = index m w + documents_with w docs.
Proof.
  unfold docFreq_of.
  induction docs as [|doc docs IH]; intros m w;
    cbn [fold_left documents_with]; [lia|].
  rewrite IH, index_count_unique_exact. unfold uniqueWords.
  destruct (decide (w ∈ (list_to_set (tokens doc) : gset string)))
    as [Hin | Hin], (decide (w ∈ tokens doc)) as [Hin' | Hin'];
    try lia; exfalso; rewrite elem_of_list_to_set in Hin; tauto.
Qed.

Lemma index_vocabulary_of docs : forall m w,
  index (vocabulary_of prose_tokens lower_trim docs m) w
  = index m w + occurrences w docs.
Proof.
  unfold vocabulary_of.
  induction docs as [|doc docs IH]; intros m w;
    cbn [fold_left occurrences]; [lia|].
  rewrite IH, index_count_words. lia.
Qed.

Lemma documents_with_app w docs1 docs2 :
  documents_with w (docs1 ++ docs2)
  = documents_with w docs1 + documents_with w docs2.
Proof.
  induction docs1 as [|doc docs1 IH]; cbn [app documents_with]; lia.
Qed.

Lemma occurrences_app w docs1 docs2 :
  occurrences w (docs1 ++ docs2) = occurrences w docs1 + occurrences w docs2.
Proof.
  induction docs1 as [|doc docs1 IH]; cbn [app occurrences]; lia.
Qed.

(** On every calculator reached by its methods, the document frequency
    of a word is the number of documents of the corpus in which the word
    occurs, however often it occurs in each, and the document count is
    the length of the corpus. *)
Lemma held_docFreq_counts (calc : BM25Calculator) (w : string) :
  held calc ->
  index (docFreq calc) w = documents_with w (documents calc) /\
  GetDocumentCount calc = Z.of_nat (length (documents calc)) /\
  0 <= index (docFreq calc) w <= GetDocumentCount calc.
Proof.
  intros Hheld.
  assert (Hdf : index (docFreq calc) w = documents_with w (documents calc)).
  { induction Hheld as [docs | calc doc Hr IH | calc k1' b' Hr IH].
    - rewrite NewBM25Calculator_spec. cbn [index_of docFreq documents].
      rewrite index_docFreq_of, index_empty. lia.
    - cbn [AddDocument docFreq documents].
      rewrite index_count_unique_exact, IH, documents_with_app.
      cbn [documents_with]. unfold uniqueWords.
      destruct (decide (w ∈ (list_to_set (tokens doc) : gset string)))
        as [Hin | Hin], (decide (w ∈ tokens doc)) as [Hin' | Hin'];
        try lia; exfalso; rewrite elem_of_list_to_set in Hin; tauto.
    - exact IH. }
  split; [exact Hdf|]. split.
  - apply (cons_total prose_tokens lower_trim calc
             (reachable_consistent prose_tokens lower_trim calc Hheld)).
  - apply (reachable_docFreq prose_tokens lower_trim), Hheld.
Qed.

Lemma dom_count_words ws : forall m : gmap string Z,
  dom (count_words ws m) = dom m ∪ list_to_set ws.
Proof.
  unfold count_words.
  induction ws as [|k ws IH]; intros m; cbn [fold_left].
  - rewrite list_to_set_nil. set_solver.
  - rewrite IH. unfold incr. rewrite dom_insert_L, list_to_set_cons.
    set_solver.
Qed.

Lemma dom_vocabulary_of docs : forall m : gmap string Z,
  dom (vocabulary_of prose_tokens lower_trim docs m)
  = dom m ∪ list_to_set (corpus_tokens docs).
Proof.
  unfold vocabulary_of, corpus_tokens.
  induction docs as [|doc docs IH]; intros m; cbn [fold_left map concat].
  - rewrite list_to_set_nil. set_solver.
  - rewrite IH, dom_count_words, list_to_set_app_L. set_solver.
Qed.

Lemma corpus_tokens_app docs1 docs2 :
  corpus_tokens (docs1 ++ docs2) = corpus_tokens docs1 ++ corpus_tokens docs2.
Proof. unfold corpus_tokens. rewrite map_app, concat_app. reflexivity. Qed.

(** On every calculator reached by its methods, the vocabulary gives
    each word the number of its occurrences in the whole corpus, its
    keys are exactly the tokens of the corpus, and [GetVocabularySize]
    is the number of distinct tokens. *)
Lemma held_vocabulary_counts (calc : BM25Calculator) (w : string) :
  held calc ->
  index (vocabulary calc) w = occurrences w (documents calc) /\
  (is_Some (vocabulary calc !! w) <-> w ∈ corpus_tokens (documents calc)) /\
  GetVocabularySize calc
  = Z.of_nat (size (list_to_set (corpus_tokens (documents calc))
                    : gset string)).
Proof.
  intros Hheld.
  assert (Hboth :
    index (vocabulary calc) w = occurrences w (documents calc) /\
    dom (vocabulary calc)
    = (list_to_set (corpus_tokens (documents calc)) : gset string)).
  { induction Hheld as [docs | calc doc Hr [IHv IHd] | calc k1' b' Hr IH].
    - rewrite NewBM25Calculator_spec. cbn [index_of vocabulary documents].
      rewrite index_vocabulary_of, index_empty, dom_vocabulary_of, dom_empty_L.
      split; [lia | set_solver].
    - cbn [AddDocument vocabulary documents].
      rewrite index_count_words, IHv, occurrences_app, dom_count_words, IHd.
      rewrite corpus_tokens_app, list_to_set_app_L.
      cbn [occurrences]. unfold corpus_tokens at 3. cbn [map concat].
      rewrite app_nil_r. split; [lia | reflexivity].
    - exact IH. }
  destruct Hboth as [Hv Hd]. split; [exact Hv|]. split.
  - rewrite <- elem_of_dom, Hd, elem_of_list_to_set. reflexivity.
  - unfold GetVocabularySize. rewrite <- Hd, size_dom. reflexivity.
Qed.

Lemma ln_monotone x y : (0 < x)%R -> (x <= y)%R -> (ln x <= ln y)%R.
Proof.
  intros Hx [Hlt | ->]; [|lra]. left. apply ln_increasing; assumption.
Qed.

(** The quotient [calculateIDF] takes, as a function of the floored
    document frequency. *)
Lemma idf_quotient_antitone (N d1 d2 : Z) :
  1 <= d1 <= d2 -> d2 <= N ->
  (Rmax 0 (ln (IZR (N - d2) + 0.5) / (IZR d2 + 0.5))
   <= Rmax 0 (ln (IZR (N - d1) + 0.5) / (IZR d1 + 0.5)))%R.
Proof.
  intros Hd HN.
  assert (H1 : (1 <= IZR d1)%R) by (apply IZR_le; lia).
  assert (H12 : (IZR d1 <= IZR d2)%R) by (apply IZR_le; lia).
  assert (Hn2 : (0 <= IZR (N - d2))%R) by (apply IZR_le; lia).
  assert (Hn12 : (IZR (N - d2) <= IZR (N - d1))%R) by (apply IZR_le; lia).
  set (a1 := ln (IZR (N - d1) + 0.5)).
  set (a2 := ln (IZR (N - d2) + 0.5)).
  assert (Ha : (a2 <= a1)%R) by (apply ln_monotone; lra).
  apply Rmax_lub; [apply Rmax_l|].
  destruct (Rle_lt_dec a2 0) as [Hneg | Hpos].
  - apply Rle_trans with 0%R; [|apply Rmax_l].
    unfold Rdiv. rewrite <- (Rmult_0_l (/ (IZR d2 + 0.5))).
    apply Rmult_le_compat_r; [|exact Hneg].
    left. apply Rinv_0_lt_compat. lra.
  - apply Rle_trans with (a1 / (IZR d1 + 0.5))%R; [|apply Rmax_r].
    unfold Rdiv. apply Rmult_le_compat; try lra.
    + left. apply Rinv_0_lt_compat. lra.
    + apply Rinv_le_contravar; lra.
Qed.

(** X3.  On every calculator reached by its methods, a word that occurs in
    no more documents than another has an IDF at least as high, and a
    word that occurs in every document has IDF 0. *)
Theorem calculateIDF_antitone (calc : BM25Calculator) (w1 w2 : string) :
  held calc ->
  (index (docFreq calc) w1 <= index (docFreq calc) w2 ->
   (calculateIDF calc w2 <= calculateIDF calc w1)%R) /\
  (index (docFreq calc) w1 = totalDocs calc -> calculateIDF calc w1 = 0%R).
Proof.
  intros Hheld.
  pose proof (reachable_docFreq prose_tokens lower_trim calc w1 Hheld) as Hb1.
  pose proof (reachable_docFreq prose_tokens lower_trim calc w2 Hheld) as Hb2.
  unfold calculateIDF.
  destruct (Z.eqb_spec (totalDocs calc) 0) as [HN | HN];
    [split; intros; lra|].
  split.
  - intros Hle. apply idf_quotient_antitone.
    + destruct (Z.eqb_spec (index (docFreq calc) w1) 0),
        (Z.eqb_spec (index (docFreq calc) w2) 0); lia.
    + destruct (Z.eqb_spec (index (docFreq calc) w2) 0); lia.
  - intros Hall.
    destruct (Z.eqb_spec (index (docFreq calc) w1) 0) as [H0 | H0]; [lia|].
    rewrite Hall, Z.sub_diag. apply Rmax_left.
    assert (Hln : (ln (0 + 0.5) < ln 1)%R) by (apply ln_increasing; lra).
    rewrite ln_1 in Hln.
    assert (Hd : (1 <= IZR (totalDocs calc))%R) by (apply IZR_le; lia).
    assert (Hinv : (0 < / (IZR (totalDocs calc) + 0.5))%R)
      by (apply Rinv_0_lt_compat; lra).
    unfold Rdiv. nra.
Qed.

(** The score of a document of the corpus depends on its text alone. *)
Definition doc_score (calc : BM25Calculator) (queryWords : list string)
    (doc : string) : R :=
  fold_left
    (score_word calc (count_words (tokens doc) ∅)
       (doc_length prose_tokens lower_trim doc) (avgDocLength calc))
    queryWords 0%R.

Lemma calculateBM25Score_by_text calc queryWords i doc :
  consistent prose_tokens lower_trim calc ->
  documents calc !! i = Some doc ->
  calculateBM25Score prose_tokens lower_trim calc queryWords i
  = Some (doc_score calc queryWords doc).
Proof.
  intros Hcons Hdoc. unfold calculateBM25Score.
  rewrite (cons_lengths _ _ calc Hcons), list_lookup_fmap, Hdoc.
  reflexivity.
Qed.

Lemma Calculate_loop_spec calc queryWords rest : forall i result,
  consistent prose_tokens lower_trim calc ->
  (forall j doc, rest !! j = Some doc ->
                 documents calc !! (i + j)%nat = Some doc) ->
  exists result',
    Calculate_loop i rest queryWords calc result = Some result' /\
    forall doc,
      result' !! doc
      = if decide (doc ∈ rest) then Some (doc_score calc queryWords doc)
        else result !! doc.
Proof.
  induction rest as [|d rest IH]; intros i result Hcons Hrest;
    cbn [Calculate_loop].
  - exists result. split; [reflexivity|]. intros doc.
    case_decide as Hin; [|reflexivity]. apply elem_of_nil in Hin. contradiction.
  - rewrite (calculateBM25Score_by_text calc queryWords i d Hcons)
      by (rewrite <- (Nat.add_0_r i); apply Hrest; reflexivity).
    destruct (IH (S i) (<[d := doc_score calc queryWords d]> result) Hcons)
      as (result' & Hloop & Hlook).
    { intros j doc Hj. replace (S i + j)%nat with (i + S j)%nat by lia.
      apply Hrest. exact Hj. }
    exists result'. split; [exact Hloop|]. intros doc. rewrite Hlook.
    destruct (decide (doc ∈ rest)) as [Hin | Hin].
    + rewrite decide_True by (right; exact Hin). reflexivity.
    + rewrite lookup_insert. destruct (decide (d = doc)) as [-> | Hne].
      * rewrite decide_True by left. reflexivity.
      * rewrite decide_False; [reflexivity|].
        intros Hd. apply elem_of_cons in Hd as [-> | Hd]; congruence.
Qed.

(** On every calculator reached by its methods, [Calculate] returns a
    map whose keys are exactly the documents of the corpus, and which
    gives every document, also one whose text occurs several times, the
    BM25 score of the query against it. *)
Lemma held_Calculate_scores (calc : BM25Calculator)
    (text : string) :
  held calc ->
  exists result,
    Calculate calc text = Some result /\
    (forall i doc,
        documents calc !! i = Some doc ->
        result !! doc = Score prose_tokens lower_trim calc text i) /\
    (forall doc, is_Some (result !! doc) <-> doc ∈ documents calc).
Proof.
  intros Hheld.
  pose proof (reachable_consistent _ _ calc Hheld) as Hcons.
  destruct (Calculate_loop_spec calc (tokens text) (documents calc) 0 ∅ Hcons)
    as (result & Hloop & Hlook); [intros j doc Hj; exact Hj|].
  exists result. split; [exact Hloop|]. split.
  - intros i doc Hdoc. unfold Score.
    rewrite (calculateBM25Score_by_text calc _ i doc Hcons Hdoc), Hlook.
    rewrite decide_True; [reflexivity|].
    apply list_elem_of_lookup. eauto.
  - intros doc. rewrite Hlook. case_decide as Hin.
    + split; [intros _; exact Hin | eauto].
    + rewrite lookup_empty. split; [intros [? ?]; discriminate | tauto].
Qed.

Lemma empty_document_scores_nothing calc queryWords avgLength docWords :
  docWords = [] ->
  fold_left (score_word calc (count_words docWords ∅) 0 avgLength)
    queryWords 0%R = 0%R.
Proof.
  intros ->. apply score_loop_absent. intros w _. apply index_empty.
Qed.

(** On every calculator reached by its methods,
    [CalculateQuerySimilarity] of a query against the text of a document
    of the corpus is the score [Calculate] gives that document. *)
Lemma held_similarity_on_corpus (calc : BM25Calculator)
    (query : string) (i : nat) (doc : string) :
  held calc ->
  documents calc !! i = Some doc ->
  Score prose_tokens lower_trim calc query i
  = Some (CalculateQuerySimilarity prose_tokens lower_trim calc query doc).
Proof.
  intros Hheld Hdoc.
  pose proof (reachable_consistent _ _ calc Hheld) as Hcons.
  unfold Score.
  rewrite (calculateBM25Score_by_text calc _ i doc Hcons Hdoc).
  f_equal. unfold doc_score, CalculateQuerySimilarity.
  destruct (Req_dec_T (avgDocLength calc) 0) as [Hzero | Hnz];
    [|reflexivity].
  assert (Hempty : tokens doc = []).
  { destruct (tokens doc) as [|t ts] eqn:Htok; [reflexivity|]. exfalso.
    assert (Hin : In doc (documents calc))
      by (apply list_elem_of_In, list_elem_of_lookup; eauto).
    pose proof (avgDocLength_positive _ _ calc doc Hcons Hin) as Hpos.
    unfold doc_length in Hpos. rewrite Htok in Hpos. cbn [length] in Hpos.
    specialize (Hpos ltac:(lia)). lra. }
  unfold doc_length. rewrite Hempty. cbn [length].
  rewrite !empty_document_scores_nothing; reflexivity.
Qed.




Lemma StronglySorted_map_on {A B} (R : relation A) (R' : relation B)
    (g : A -> B) (l : list A) :
  StronglySorted R l ->
  (forall x y, x ∈ l -> y ∈ l -> R x y -> R' (g x) (g y)) ->
  StronglySorted R' (map g l).
Proof.
  induction 1 as [|x l Hl IH Hx]; intros Hon; cbn [map]; constructor.
  - apply IH. intros u v Hu Hv. apply Hon; right; assumption.
  - rewrite Forall_forall in Hx. apply Forall_forall. intros b Hb.
    apply list_elem_of_In, in_map_iff in Hb as (y & <- & Hy).
    apply list_elem_of_In in Hy.
    apply Hon; [left | right; exact Hy | apply Hx, Hy].
Qed.

(** X7.  In every run of [ExtractKeywords], whatever order the map is
    ranged over in and however [sort.Slice] arranges equal scores: the
    keywords are distinct tokens of the text, they come in order of
    non-increasing score, and there are [topN] of them, or as many as
    the text has distinct tokens if that is fewer (none for a [topN]
    below 1). *)
Theorem ExtractKeywords_ranking
    (range : gmap string Z -> list (string * Z))
    (sort_Slice : list wordScore -> list wordScore)
    (calc : BM25Calculator) (text : string) (topN : Z) :
  ranges range -> sorts sort_Slice ->
  let keywords :=
    ExtractKeywords prose_tokens lower_trim range sort_Slice calc text topN in
  NoDup keywords /\
  (forall k, k ∈ keywords -> k ∈ tokens text) /\
  StronglySorted
    (fun k1 k2 =>
       (keyword_score prose_tokens lower_trim calc text k2
        <= keyword_score prose_tokens lower_trim calc text k1)%R)
    keywords /\
  length keywords
  = Nat.min (Z.to_nat topN)
      (size (list_to_set (tokens text) : gset string)).
Proof.
  intros Hrange Hsort keywords. subst keywords. unfold ExtractKeywords.
  set (wordFreq := count_words (tokens text) ∅).
  set (entry_score := fun entry : string * Z =>
         mkWordScore (fst entry)
           (calculateIDF calc (fst entry)
            * (IZR (snd entry) / IZR (Z.of_nat (length (tokens text))))
            * ln (IZR (totalDocs calc + 1)))%R).
  destruct (Hsort (map entry_score (range wordFreq))) as [Hperm Hsorted].
  set (sorted := sort_Slice (map entry_score (range wordFreq))) in *.
  assert (Hwords : map word sorted ≡ₚ map fst (map_to_list wordFreq)).
  { rewrite Hperm, map_map. cbn [entry_score word].
    apply Permutation_map, Hrange. }
  assert (Hmember : forall x, x ∈ sorted ->
    In (word x) (tokens text) /\
    score x = keyword_score prose_tokens lower_trim calc text (word x)).
  { intros x Hx. rewrite Hperm in Hx.
    apply list_elem_of_In, in_map_iff in Hx as ([w c] & <- & He).
    apply list_elem_of_In in He. rewrite (Hrange wordFreq) in He.
    apply wordFreq_entry in He as [Hw ->]. split; [exact Hw|].
    reflexivity. }
  assert (Htake : take (Z.to_nat topN) sorted `sublist_of` sorted)
    by apply sublist_take.
  split; [|split; [|split]].
  - rewrite <- firstn_map.
    apply (sublist_NoDup _ (map word sorted)); [|apply sublist_take].
    rewrite Hwords. apply NoDup_fst_map_to_list.
  - intros k Hk. apply list_elem_of_In, in_map_iff in Hk as (x & <- & Hx).
    apply list_elem_of_In. apply Hmember.
    eapply elem_of_sublist; [apply list_elem_of_In, Hx | exact Htake].
  - apply (StronglySorted_map_on (fun x y => ~ less y x)).
    + rewrite <- (take_drop (Z.to_nat topN) sorted) in Hsorted.
      apply StronglySorted_app_1_l in Hsorted. exact Hsorted.
    + intros x y Hx Hy Hxy.
      destruct (Hmember x (elem_of_sublist _ _ _ Hx Htake)) as [_ <-].
      destruct (Hmember y (elem_of_sublist _ _ _ Hy Htake)) as [_ <-].
      unfold less in Hxy. apply Rnot_gt_le, Hxy.
  - rewrite length_map, length_take. f_equal.
    rewrite Hperm, length_map, (Hrange wordFreq).
    rewrite length_map_to_list.
    rewrite <- size_dom. unfold wordFreq.
    rewrite dom_count_words, dom_empty_L, (left_id_L ∅ (∪)). reflexivity.
Qed.

End Index.

(** The theorems of this section at a corpus of two documents, with the
    calculator as [NewBM25Calculator] and [AddDocument] leave it. *)
Definition two_documents : BM25Calculator :=
  AddDocument fields lower
    (NewBM25Calculator fields lower ["aa bb aa"%string]) "aa cc"%string.

Lemma two_documents_held : reachable fields lower two_documents.
Proof. apply reach_add, reach_new. Qed.

Lemma calculateIDF_antitone_witness :
  (index (docFreq two_documents) "cc" <= index (docFreq two_documents) "aa" ->
   (calculateIDF two_documents "aa" <= calculateIDF two_documents "cc")%R) /\
  (index (docFreq two_documents) "cc" = totalDocs two_documents ->
   calculateIDF two_documents "cc" = 0%R).
Proof.
  apply (calculateIDF_antitone fields lower two_documents "cc" "aa").
  apply two_documents_held.
Defined.

Lemma ExtractKeywords_ranking_witness :
  let keywords :=
    ExtractKeywords fields lower map_to_list insertionSort two_documents
      "aa cc aa dd" 2 in
  NoDup keywords /\
  (forall k, k ∈ keywords -> k ∈ tokenize fields lower "aa cc aa dd") /\
  StronglySorted
    (fun k1 k2 =>
       (keyword_score fields lower two_documents "aa cc aa dd" k2
        <= keyword_score fields lower two_documents "aa cc aa dd" k1)%R)
    keywords /\
  length keywords
  = Nat.min (Z.to_nat 2)
      (size (list_to_set (tokenize fields lower "aa cc aa dd")
             : gset string)).
Proof.
  apply (ExtractKeywords_ranking fields lower map_to_list insertionSort
           two_documents "aa cc aa dd" 2).
  - apply map_to_list_ranges.
  - apply insertionSort_sorts.
Defined.

(** ** Scoring in float64

    The scoring functions once more, on [Float64.float64]: the same
    source lines, with the infinities and NaN that products beyond the
    range of float64 bring in.  The fields [k1], [b] and [avgDocLength]
    of a calculator are finite numbers. *)
Module Range.

Import Float64.

Section Scoring.

Variable prose_tokens : string -> option (list string).
Variable lower_trim : string -> string.

Definition calculateIDF (calc : BM25Calculator) (word : string) : float64 :=
  if totalDocs calc =? 0 then Finite 0%R
  else
    let df := index (docFreq calc) word in
    let df := if df =? 0 then 1 else df in
    let idf :=
      div (Log (add (of_int (totalDocs calc - df)) (Finite 0.5%R)))
          (add (of_int df) (Finite 0.5%R)) in
    Max (Finite 0%R) idf.

(** The body of the loop over [queryWords]. *)
Definition score_word (calc : BM25Calculator) (docWordFreq : gmap string Z)
    (docLength : Z) (avgLength : float64) (score : float64) (word : string)
  : float64 :=
  let idf := calculateIDF calc word in
  let tf := of_int (index docWordFreq word) in
  if is_positive tf then
    let numerator := mul tf (add (Finite (k1 calc)) (Finite 1%R)) in
    let denominator :=
      add tf
        (mul (Finite (k1 calc))
           (add (sub (Finite 1%R) (Finite (b calc)))
              (div (mul (Finite (b calc)) (of_int docLength)) avgLength))) in
    add score (div (mul idf numerator) denominator)
  else score.

(** [None] stands for the panic of an index out of range. *)
Definition calculateBM25Score (calc : BM25Calculator)
    (queryWords : list string) (docIndex : nat) : option float64 :=
  match docLengths calc !! docIndex, documents calc !! docIndex with
  | Some docLength, Some doc =>
      let docWords := tokenize prose_tokens lower_trim doc in
      let docWordFreq := count_words docWords ∅ in
      Some (fold_left
              (score_word calc docWordFreq docLength
                 (Finite (avgDocLength calc)))
              queryWords (Finite 0%R))
  | _, _ => None
  end.

Definition CalculateQuerySimilarity (calc : BM25Calculator)
    (query document : string) : float64 :=
  let queryWords := tokenize prose_tokens lower_trim query in
  let docWords := tokenize prose_tokens lower_trim document in
  let docLength := Z.of_nat (length docWords) in
  let avgLength :=
    if is_zero (Finite (avgDocLength calc)) then of_int docLength
    else Finite (avgDocLength calc) in
  let docWordFreq := count_words docWords ∅ in
  fold_left (score_word calc docWordFreq docLength avgLength) queryWords
    (Finite 0%R).

End Scoring.

End Range.

Import Float64.

(** ** The scores in float64 and in real numbers

    Where no intermediate result leaves the range of float64, the
    scoring functions on [float64] return the finite number the
    functions on real numbers return. *)

Lemma ln_below x : (0 < x)%R -> (ln x < x)%R.
Proof.
  intros Hx. rewrite <- (ln_exp x) at 2.
  apply ln_increasing; [exact Hx|].
  pose proof (exp_ineq1 x ltac:(lra)). lra.
Qed.

Lemma ln_above_half x : (0.5 <= x)%R -> (-2 < ln x)%R.
Proof.
  intros Hx.
  assert (H2 : (ln 2 < 2)%R) by (apply ln_below; lra).
  assert (Hh : (ln (/ 2) = - ln 2)%R) by (apply ln_Rinv; lra).
  assert (Hm : (ln (/ 2) <= ln x)%R).
  { destruct (Req_dec (/2) x) as [<- | Hne]; [lra|].
    left. apply ln_increasing; lra. }
  lra.
Qed.

(** With the document frequency between 0 and the number of documents,
    the IDF in float64 is the IDF in real numbers, and lies between 0
    and the number of documents. *)
Lemma calculateIDF_exact calc w :
  0 <= index (docFreq calc) w <= totalDocs calc ->
  (IZR (totalDocs calc) + 2 <= MaxFloat64)%R ->
  Range.calculateIDF calc w = Finite (calculateIDF calc w) /\
  (0 <= calculateIDF calc w <= IZR (totalDocs calc))%R.
Proof.
  intros Hdf HN. unfold Range.calculateIDF, calculateIDF.
  destruct (Z.eqb_spec (totalDocs calc) 0) as [H0 | H0].
  - rewrite H0. split; [reflexivity | lra].
  - set (df := if index (docFreq calc) w =? 0 then 1 else index (docFreq calc) w).
    assert (Hdf' : 1 <= df <= totalDocs calc).
    { subst df. destruct (Z.eqb_spec (index (docFreq calc) w) 0); lia. }
    assert (Hx : (0.5 <= IZR (totalDocs calc - df) + 0.5 <= IZR (totalDocs calc))%R).
    { rewrite minus_IZR.
      assert (1 <= IZR df)%R by (apply IZR_le; lia).
      assert (IZR df <= IZR (totalDocs calc))%R by (apply IZR_le; lia). lra. }
    assert (Hy : (1.5 <= IZR df + 0.5 <= IZR (totalDocs calc) + 0.5)%R).
    { assert (1 <= IZR df)%R by (apply IZR_le; lia).
      assert (IZR df <= IZR (totalDocs calc))%R by (apply IZR_le; lia). lra. }
    set (x := (IZR (totalDocs calc - df) + 0.5)%R) in *.
    set (y := (IZR df + 0.5)%R) in *.
    assert (Hln : (-2 < ln x < IZR (totalDocs calc))%R).
    { split; [apply ln_above_half; lra|].
      assert (ln x < x)%R by (apply ln_below; lra). lra. }
    assert (Hq : (Rabs (ln x / y) <= IZR (totalDocs calc) + 2)%R).
    { unfold Rdiv. rewrite Rabs_mult.
      assert (Hinv : (0 < / y <= 1)%R).
      { split; [apply Rinv_0_lt_compat; lra|].
        rewrite <- Rinv_1. apply Rinv_le_contravar; lra. }
      rewrite (Rabs_pos_eq (/ y)) by lra.
      assert (Habs : (Rabs (ln x) <= IZR (totalDocs calc) + 2)%R).
      { apply Rabs_le. lra. }
      assert (0 <= Rabs (ln x))%R by apply Rabs_pos.
      nra. }
    unfold of_int, add. fold x. fold y.
    rewrite (round_nonneg_exact x) by lra.
    rewrite (round_nonneg_exact y) by lra.
    unfold Log.
    destruct (Rlt_dec x 0) as [Hneg | _]; [lra|].
    destruct (Req_dec_T x 0) as [Hz | _]; [lra|].
    unfold div.
    destruct (Req_dec_T y 0) as [Hz | _]; [lra|].
    rewrite round_exact by lra.
    cbn [Max]. split; [reflexivity|].
    split; [apply Rmax_l|].
    apply Rmax_lub; [lra|].
    assert (Hinv : (0 < / y <= 1)%R).
    { split; [apply Rinv_0_lt_compat; lra|].
      rewrite <- Rinv_1. apply Rinv_le_contravar; lra. }
    unfold Rdiv. destruct (Rle_dec 0 (ln x)); nra.
Qed.

(** One turn of the scoring loop: with [0 <= k1], [0 <= b <= 1] and
    bounds that keep every intermediate result below [MaxFloat64], the
    float64 result is the real one. *)
Lemma score_word_exact calc docWordFreq docLength avgLength s w ratio :
  0 <= index (docFreq calc) w <= totalDocs calc ->
  (0 <= k1 calc)%R -> (0 <= b calc <= 1)%R ->
  0 <= docLength ->
  index docWordFreq w <= docLength ->
  (0 < index docWordFreq w ->
   (0 < avgLength)%R /\ (IZR docLength / avgLength <= ratio)%R) ->
  (0 <= s)%R ->
  (IZR (totalDocs calc) + 2 <= MaxFloat64)%R ->
  (1 + ratio <= MaxFloat64)%R ->
  (IZR docLength + k1 calc * (1 + ratio) <= MaxFloat64)%R ->
  (IZR docLength * (k1 calc + 1) <= MaxFloat64)%R ->
  (s + IZR (totalDocs calc) * (IZR docLength * (k1 calc + 1)) <= MaxFloat64)%R ->
  Range.score_word calc docWordFreq docLength (Finite avgLength) (Finite s) w
  = Finite (score_word calc docWordFreq docLength avgLength s w) /\
  (s <= score_word calc docWordFreq docLength avgLength s w
     <= s + IZR (totalDocs calc) * (IZR docLength * (k1 calc + 1)))%R.
Proof.
  intros Hdf Hk Hb Hdl Htf Havg Hs HN Hratio Hden HLK Hsum.
  pose proof MaxFloat64_large as Hlarge.
  assert (HN0 : (0 <= IZR (totalDocs calc))%R) by (apply IZR_le; lia).
  assert (HL0 : (0 <= IZR docLength)%R) by (apply IZR_le; lia).
  assert (Hcap :
    (0 <= IZR (totalDocs calc) * (IZR docLength * (k1 calc + 1)))%R).
  { apply Rmult_le_pos; [exact HN0|]. apply Rmult_le_pos; lra. }
  destruct (calculateIDF_exact calc w Hdf HN) as [Hidf Hidf_bound].
  unfold Range.score_word, score_word, is_positive, of_int. rewrite Hidf.
  set (idf := calculateIDF calc w) in *.
  destruct (Rlt_dec 0 (IZR (index docWordFreq w))) as [Hpos | Hnot];
    [|split; [reflexivity | lra]].
  assert (Hone : (1 <= IZR (index docWordFreq w))%R).
  { apply IZR_le. apply lt_IZR in Hpos. lia. }
  assert (HtfL : (IZR (index docWordFreq w) <= IZR docLength)%R)
    by (apply IZR_le, Htf).
  destruct (Havg ltac:(apply lt_IZR; exact Hpos)) as [Ha Hr].
  set (tf := IZR (index docWordFreq w)) in *.
  set (L := IZR docLength) in *.
  set (N := IZR (totalDocs calc)) in *.
  set (K := k1 calc) in *. set (B := b calc) in *.
  assert (Hinv : (0 < / avgLength)%R) by (apply Rinv_0_lt_compat, Ha).
  assert (Hfrac : (0 <= B * L / avgLength <= ratio)%R).
  { unfold Rdiv in *. split; [apply Rmult_le_pos; [apply Rmult_le_pos|]; lra|].
    assert (0 <= L * / avgLength)%R by (apply Rmult_le_pos; lra).
    nra. }
  assert (Hinner : (0 <= 1 - B + B * L / avgLength <= 1 + ratio)%R) by lra.
  assert (Hprod : (0 <= K * (1 - B + B * L / avgLength) <= K * (1 + ratio))%R).
  { split; [apply Rmult_le_pos; lra|]. apply Rmult_le_compat_l; lra. }
  assert (Hnum : (0 <= tf * (K + 1) <= L * (K + 1))%R).
  { split; [apply Rmult_le_pos; lra|]. apply Rmult_le_compat_r; lra. }
  assert (Hterm : (0 <= idf * (tf * (K + 1)) <= N * (L * (K + 1)))%R).
  { split; [apply Rmult_le_pos; lra|].
    apply Rmult_le_compat; lra. }
  assert (Hd1 :
    (1 <= tf + K * (1 - B + B * L / avgLength) <= L + K * (1 + ratio))%R)
    by lra.
  set (den := (tf + K * (1 - B + B * L / avgLength))%R) in *.
  assert (Hdinv : (0 < / den <= 1)%R).
  { split; [apply Rinv_0_lt_compat; lra|].
    rewrite <- Rinv_1. apply Rinv_le_contravar; lra. }
  assert (Hquot :
    (0 <= idf * (tf * (K + 1)) / den <= N * (L * (K + 1)))%R).
  { unfold Rdiv. split; [apply Rmult_le_pos; lra|]. nra. }
  rewrite (add_exact K 1) by nra.
  rewrite (mul_exact tf (K + 1)) by lra.
  rewrite (sub_exact 1 B) by lra.
  rewrite (mul_exact B L) by nra.
  rewrite (div_exact (B * L) avgLength) by lra.
  rewrite (add_exact (1 - B) (B * L / avgLength)) by lra.
  rewrite (mul_exact K (1 - B + B * L / avgLength)) by lra.
  rewrite (add_exact tf (K * (1 - B + B * L / avgLength))) by (fold den; lra).
  fold den.
  rewrite (mul_exact idf (tf * (K + 1))) by lra.
  rewrite (div_exact (idf * (tf * (K + 1))) den) by lra.
  rewrite add_exact by lra.
  split; [reflexivity | lra].
Qed.

Lemma score_loop_exact calc docWordFreq docLength avgLength ratio ws :
  forall s,
  (forall w, 0 <= index (docFreq calc) w <= totalDocs calc) ->
  (0 <= k1 calc)%R -> (0 <= b calc <= 1)%R ->
  0 <= docLength ->
  (forall w, index docWordFreq w <= docLength) ->
  (forall w, 0 < index docWordFreq w ->
             (0 < avgLength)%R /\ (IZR docLength / avgLength <= ratio)%R) ->
  (0 <= s)%R ->
  (IZR (totalDocs calc) + 2 <= MaxFloat64)%R ->
  (1 + ratio <= MaxFloat64)%R ->
  (IZR docLength + k1 calc * (1 + ratio) <= MaxFloat64)%R ->
  (IZR docLength * (k1 calc + 1) <= MaxFloat64)%R ->
  (s + INR (length ws)
       * (IZR (totalDocs calc) * (IZR docLength * (k1 calc + 1)))
   <= MaxFloat64)%R ->
  fold_left
    (Range.score_word calc docWordFreq docLength (Finite avgLength))
    ws (Finite s)
  = Finite (fold_left (score_word calc docWordFreq docLength avgLength) ws s)
  /\ (s <= fold_left (score_word calc docWordFreq docLength avgLength) ws s)%R.
Proof.
  induction ws as [|w ws IH];
    intros s Hdf Hk Hb Hdl Htf Havg Hs HN Hratio Hden HLK Hsum.
  - split; [reflexivity | cbn; lra].
  - cbn [fold_left].
    assert (Hcap :
      (0 <= IZR (totalDocs calc) * (IZR docLength * (k1 calc + 1)))%R).
    { apply Rmult_le_pos; [apply IZR_le; specialize (Hdf w); lia|].
      apply Rmult_le_pos; [apply IZR_le; lia | lra]. }
    change (length (w :: ws)) with (S (length ws)) in Hsum.
    rewrite S_INR in Hsum.
    assert (Hrest : (0 <= INR (length ws))%R) by apply pos_INR.
    set (cap := (IZR (totalDocs calc) * (IZR docLength * (k1 calc + 1)))%R)
      in *.
    assert (Hmore : (0 <= INR (length ws) * cap)%R)
      by (apply Rmult_le_pos; assumption).
    destruct (score_word_exact calc docWordFreq docLength avgLength s w ratio)
      as [Heq Hbound]; auto; [apply Havg | fold cap; lra |].
    fold cap in Hbound. rewrite Heq.
    destruct (IH (score_word calc docWordFreq docLength avgLength s w))
      as [Heq' Hbound']; auto; [lra | fold cap; lra |].
    split; [exact Heq' | lra].
Qed.

(** Words the document does not have leave the score as it is, whatever
    it is. *)
Lemma score_loop_untouched calc docWordFreq docLength avgLength ws : forall s,
  (forall w, In w ws -> index docWordFreq w = 0) ->
  fold_left (Range.score_word calc docWordFreq docLength avgLength) ws s = s.
Proof.
  induction ws as [|w ws IH]; intros s Hws; cbn [fold_left]; [reflexivity|].
  unfold Range.score_word at 2. rewrite (Hws w) by (left; reflexivity).
  unfold of_int, is_positive.
  destruct (Rlt_dec 0 0) as [Hlt | _]; [lra|].
  apply IH. intros w' Hw'. apply Hws. right. exact Hw'.
Qed.

Lemma magnitude_bounds a n c d :
  (0 <= a)%R -> (0 <= n)%R -> (0 <= c)%R -> (0 <= d)%R ->
  let P := ((a + 1) * (n + 1) * (c + 1) * (d + 1))%R in
  (n + 2 <= 2 * P)%R /\
  (2 + c * n <= 2 * P)%R /\
  (c + d * (1 + (c * n + 1)) <= 2 * P)%R /\
  (c + d * (1 + n) <= 2 * P)%R /\
  (c * (d + 1) <= 2 * P)%R /\
  (a * (n * (c * (d + 1))) <= 2 * P)%R.
Proof.
  intros Ha Hn Hc Hd P.
  assert (Han : (0 <= a * n)%R) by (apply Rmult_le_pos; lra).
  assert (Hac : (0 <= a * c)%R) by (apply Rmult_le_pos; lra).
  assert (Had : (0 <= a * d)%R) by (apply Rmult_le_pos; lra).
  assert (Hnc : (0 <= n * c)%R) by (apply Rmult_le_pos; lra).
  assert (Hnd : (0 <= n * d)%R) by (apply Rmult_le_pos; lra).
  assert (Hcd : (0 <= c * d)%R) by (apply Rmult_le_pos; lra).
  assert (Hanc : (0 <= a * n * c)%R) by (apply Rmult_le_pos; lra).
  assert (Hand : (0 <= a * n * d)%R) by (apply Rmult_le_pos; lra).
  assert (Hacd : (0 <= a * c * d)%R) by (apply Rmult_le_pos; lra).
  assert (Hncd : (0 <= n * c * d)%R) by (apply Rmult_le_pos; lra).
  assert (Hancd : (0 <= a * n * c * d)%R) by (apply Rmult_le_pos; lra).
  assert (HP : (P = 1 + a + n + c + d + a * n + a * c + a * d + n * c
                     + n * d + c * d + a * n * c + a * n * d + a * c * d
                     + n * c * d + a * n * c * d)%R)
    by (subst P; ring).
  clearbody P. subst P. repeat split; lra.
Qed.

Section Exact.

Variable prose_tokens : string -> option (list string).
Variable lower_trim : string -> string.

Local Abbreviation tokens := (tokenize prose_tokens lower_trim).
Local Abbreviation held := (reachable prose_tokens lower_trim).
Local Abbreviation doc_len := (doc_length prose_tokens lower_trim).

(** A bound on everything the scoring loop computes for a query of
    [queryWords] against a document of [docLength] tokens: twice the
    product of the number of query words, the number of documents, the
    document length and [k1], each plus one. *)
Definition magnitude (calc : BM25Calculator) (queryWords : list string)
    (docLength : Z) : R :=
  (2 * ((INR (length queryWords) + 1) * (IZR (totalDocs calc) + 1)
        * (IZR docLength + 1) * (k1 calc + 1)))%R.

Lemma term_frequency_bound ws w :
  index (count_words ws ∅) w <= Z.of_nat (length ws).
Proof.
  rewrite term_frequency. pose proof (count_occ_bound string_dec w ws). lia.
Qed.


Lemma held_average calc :
  held calc -> documents calc <> [] ->
  exists total n,
    0 <= total /\ 1 <= n /\ n = totalDocs calc /\
    (forall doc, In doc (documents calc) -> doc_len doc <= total) /\
    avgDocLength calc = (IZR total / IZR n)%R.
Proof.
  intros Hr Hne. pose proof (reachable_consistent _ _ calc Hr) as [Hl Ht Ha].
  exists (sum_lengths (docLengths calc)), (Z.of_nat (length (documents calc))).
  rewrite Hl. repeat split.
  - apply sum_lengths_nonneg.
  - destruct (documents calc); [congruence | cbn [length]; lia].
  - symmetry. exact Ht.
  - intros doc Hin. apply sum_lengths_member, Hin.
  - rewrite (Ha Hne), Hl. reflexivity.
Qed.

Lemma quotient_by_average (l total n : Z) :
  0 <= l -> 1 <= total -> 1 <= n ->
  (l <= total -> (IZR l / (IZR total / IZR n) <= IZR n)%R) /\
  (IZR l / (IZR total / IZR n) <= IZR l * IZR n)%R.
Proof.
  intros Hl Ht Hn.
  assert (Hl' : (0 <= IZR l)%R) by (apply IZR_le; lia).
  assert (Ht' : (1 <= IZR total)%R) by (apply IZR_le; lia).
  assert (Hn' : (1 <= IZR n)%R) by (apply IZR_le; lia).
  assert (Heq : (IZR l / (IZR total / IZR n) = IZR l * IZR n * / IZR total)%R)
    by (field; lra).
  assert (Hinv : (0 < / IZR total <= 1)%R).
  { split; [apply Rinv_0_lt_compat; lra|].
    rewrite <- Rinv_1. apply Rinv_le_contravar; lra. }
  rewrite Heq. split.
  - intros Hle. assert (Hle' : (IZR l <= IZR total)%R) by (apply IZR_le, Hle).
    assert (IZR l * / IZR total <= 1)%R.
    { apply (Rmult_le_reg_r (IZR total)); [lra|].
      rewrite Rmult_assoc, Rinv_l by lra. lra. }
    nra.
  - assert (0 <= IZR l * IZR n)%R by (apply Rmult_le_pos; lra). nra.
Qed.

(** Within [magnitude], [calculateBM25Score] in float64 returns the
    finite number it returns in real numbers. *)
Lemma calculateBM25Score_exact calc queryWords docIndex doc :
  held calc ->
  documents calc !! docIndex = Some doc ->
  (0 <= k1 calc)%R -> (0 <= b calc <= 1)%R ->
  (magnitude calc queryWords (doc_len doc) <= MaxFloat64)%R ->
  exists x,
    calculateBM25Score prose_tokens lower_trim calc queryWords docIndex
    = Some x /\
    Range.calculateBM25Score prose_tokens lower_trim calc queryWords docIndex
    = Some (Finite x).
Proof.
  intros Hr Hdoc Hk Hb Hmag.
  pose proof (reachable_consistent _ _ calc Hr) as Hcons.
  assert (Hlen : docLengths calc !! docIndex = Some (doc_len doc)).
  { rewrite (cons_lengths _ _ calc Hcons), list_lookup_fmap, Hdoc.
    reflexivity. }
  assert (Hin : In doc (documents calc)).
  { apply list_elem_of_In, list_elem_of_lookup. eauto. }
  unfold calculateBM25Score, Range.calculateBM25Score. rewrite Hlen, Hdoc.
  eexists. split; [reflexivity|]. f_equal.
  assert (HN : 0 <= totalDocs calc).
  { rewrite (cons_total _ _ calc Hcons). lia. }
  assert (HL : 0 <= doc_len doc) by (unfold doc_length; lia).
  destruct (magnitude_bounds (INR (length queryWords))
              (IZR (totalDocs calc)) (IZR (doc_len doc)) (k1 calc))
    as (B1 & B2 & B3 & B4 & B5 & B6);
    [apply pos_INR | apply IZR_le, HN | apply IZR_le, HL | exact Hk |].
  unfold magnitude in Hmag.
  apply (score_loop_exact calc _ (doc_len doc) (avgDocLength calc)
           (IZR (totalDocs calc)) queryWords 0%R); try lra.
  - intros w. apply (reachable_docFreq _ _ calc w Hr).
  - exact HL.
  - intros w. apply term_frequency_bound.
  - intros w Hw. apply term_frequency_present in Hw.
    assert (Hne : documents calc <> []) by (intros E; rewrite E in Hin; exact Hin).
    assert (Hpos : 0 < doc_len doc).
    { unfold doc_length. destruct (tokens doc); [destruct Hw | cbn; lia]. }
    split; [apply (avgDocLength_positive _ _ calc doc Hcons Hin Hpos)|].
    destruct (held_average calc Hr Hne) as (total & n & Ht & Hn & -> & Hle & ->).
    apply quotient_by_average; try lia. 
    + specialize (Hle doc Hin). lia.
    + apply Hle, Hin.
Qed.


End Exact.

(** ** Documents shared with other holders

    [NewBM25Calculator] keeps the slice it is given (line 30) and
    [AddDocument] appends to it (line 148): the backing array of the
    documents can be one that the caller, or another calculator, holds
    a slice of as well. *)

(** A slice: the backing array it points into, where it starts there,
    its length and its capacity. *)
Record Slice := mkSlice {
  array : nat;
  offset : nat;
  len : nat;
  cap : nat
}.

(** The backing arrays, by address. *)
Abbreviation Heap := (list (list string)).

Definition cells (h : Heap) (a : nat) : list string := default [] (h !! a).

(** The elements of a slice. *)
Definition view (h : Heap) (s : Slice) : list string :=
  take (len s) (drop (offset s) (cells h (array s))).

Definition fits (h : Heap) (s : Slice) : Prop :=
  (len s <= cap s /\ offset s + cap s <= length (cells h (array s)))%nat.

Section Shared.

Variable prose_tokens : string -> option (list string).
Variable lower_trim : string -> string.

(** The capacity the runtime gives the array [append] allocates for
    [needed] elements; whatever it answers, the array has room for
    them. *)
Variable growslice : nat -> nat.

(** [append(s, v)]: in place while the capacity lasts, else into a new
    array. *)
Definition append (h : Heap) (s : Slice) (v : string) : Heap * Slice :=
  if (len s <? cap s)%nat then
    (<[array s := <[(offset s + len s)%nat := v]> (cells h (array s))]> h,
     mkSlice (array s) (offset s) (S (len s)) (cap s))
  else
    let spare := (growslice (S (len s)) - S (len s))%nat in
    ((h ++ [view h s ++ v :: replicate spare ""%string])%list,
     mkSlice (length h) 0 (S (len s)) (S (len s) + spare)).

(** A calculator in the heap: its slice [calc.documents], and its
    other fields as [state] has them.  The field [documents] of [state]
    keeps the texts as the calculator read them when it indexed them. *)
Record Handle := mkHandle {
  docs : Slice;
  state : BM25Calculator
}.

(** The calculator as its methods find it: the documents are what the
    slice holds now. *)
Definition snapshot (h : Heap) (c : Handle) : BM25Calculator :=
  {| documents := view h (docs c);
     vocabulary := vocabulary (state c);
     docLengths := docLengths (state c);
     avgDocLength := avgDocLength (state c);
     docFreq := docFreq (state c);
     totalDocs := totalDocs (state c);
     k1 := k1 (state c);
     b := b (state c);
     bm25Cache := bm25Cache (state c) |}.

Definition NewBM25Calculator_at (h : Heap) (documents : Slice) : Handle :=
  mkHandle documents
    (NewBM25Calculator prose_tokens lower_trim (view h documents)).

(** [AddDocument] reads none of the documents it has: it appends to the
    slice and updates the other fields from the new text alone.  Its
    [len(calc.documents)] is the length of the slice, which is the
    length of the recorded texts ([sound] below). *)
Definition AddDocument_at (h : Heap) (c : Handle) (doc : string)
  : Heap * Handle :=
  let '(h', documents') := append h (docs c) doc in
  (h', mkHandle documents' (AddDocument prose_tokens lower_trim (state c) doc)).

Definition SetParameters_at (c : Handle) (k1' b' : R) : Handle :=
  mkHandle (docs c) (SetParameters (state c) k1' b').

Record World := mkWorld {
  heap : Heap;
  calculators : list Handle
}.

(** What a client does: make a slice of texts, store into an array it
    holds a slice of, build a calculator over a slice, and call
    [AddDocument] or [SetParameters] on a calculator. *)
Inductive Event :=
| Make (texts : list string)
| Store (a i : nat) (text : string)
| New (documents : Slice)
| Add (id : nat) (doc : string)
| Params (id : nat) (k1' b' : R).

(** One event.  A store outside an array, a calculator over a slice
    that does not lie in its array and a call on a calculator that does
    not exist are not things a client can do; they change nothing. *)
Definition step (w : World) (e : Event) : World :=
  match e with
  | Make texts => mkWorld (heap w ++ [texts]) (calculators w)
  | Store a i text =>
      mkWorld (<[a := <[i := text]> (cells (heap w) a)]> (heap w))
        (calculators w)
  | New documents =>
      if decide (fits (heap w) documents) then
        mkWorld (heap w)
          (calculators w ++ [NewBM25Calculator_at (heap w) documents])
      else w
  | Add id doc =>
      match calculators w !! id with
      | Some c =>
          let '(h', c') := AddDocument_at (heap w) c doc in
          mkWorld h' (<[id := c']> (calculators w))
      | None => w
      end
  | Params id k1' b' =>
      match calculators w !! id with
      | Some c =>
          mkWorld (heap w)
            (<[id := SetParameters_at c k1' b']> (calculators w))
      | None => w
      end
  end.

Definition run (events : list Event) : World :=
  fold_left step events (mkWorld [] []).

(** The documents of a calculator read as it indexed them: no other
    holder of the backing array has put another text into its part of
    it since. *)
Definition intact (h : Heap) (c : Handle) : Prop :=
  view h (docs c) = documents (state c).

(** What every world keeps: the fields of a calculator other than its
    documents are those of a calculator reached by its methods, over
    the texts as it read them; there are as many of these as the slice
    is long; and the slice lies inside its array. *)
Definition sound (w : World) : Prop :=
  forall id c,
    calculators w !! id = Some c ->
    reachable prose_tokens lower_trim (state c) /\
    length (documents (state c)) = len (docs c) /\
    fits (heap w) (docs c).

Lemma view_length h s : fits h s -> length (view h s) = len s.
Proof.
  intros [Hl Hc]. unfold view. rewrite length_take, length_drop. lia.
Qed.

Lemma fits_grow h h' s :
  (forall a, length (cells h a) <= length (cells h' a))%nat ->
  fits h s -> fits h' s.
Proof.
  intros Hgrow [Hl Hc]. split; [exact Hl|].
  specialize (Hgrow (array s)). lia.
Qed.

Lemma cells_app h arr a :
  (length (cells h a) <= length (cells (h ++ [arr]) a))%nat.
Proof.
  unfold cells. destruct (h !! a) as [x|] eqn:Hx.
  - rewrite (lookup_app_l_Some _ _ _ _ Hx). reflexivity.
  - cbn. lia.
Qed.

Lemma cells_insert h a arr a' :
  cells (<[a := arr]> h) a'
  = if decide (a = a' /\ (a < length h)%nat) then arr else cells h a'.
Proof.
  unfold cells. case_decide as Hd.
  - destruct Hd as [<- Hlt]. rewrite list_lookup_insert_eq by exact Hlt.
    reflexivity.
  - destruct (decide (a = a')) as [<- | Hne].
    + rewrite list_insert_ge by lia. reflexivity.
    + rewrite list_lookup_insert_ne by exact Hne. reflexivity.
Qed.

Lemma cells_insert_length h a arr a' :
  length arr = length (cells h a) ->
  length (cells (<[a := arr]> h) a') = length (cells h a').
Proof.
  intros Hlen. rewrite cells_insert. case_decide as Hd; [|reflexivity].
  destruct Hd as [<- _]. exact Hlen.
Qed.

Lemma cells_new h arr : cells (h ++ [arr]) (length h) = arr.
Proof.
  unfold cells. rewrite lookup_app_r by lia.
  rewrite Nat.sub_diag. reflexivity.
Qed.

Lemma fits_in_heap h s : fits h s -> (len s < cap s)%nat ->
  (array s < length h)%nat.
Proof.
  intros [Hl Hc] Hlt. unfold cells in Hc.
  destruct (h !! array s) as [x|] eqn:Hx.
  - apply lookup_lt_Some in Hx. exact Hx.
  - cbn in Hc. lia.
Qed.

(** [append] adds the element at the end of the slice, and leaves the
    slice fitting the heap. *)
Lemma append_view h s v :
  fits h s ->
  view (append h s v).1 (append h s v).2 = (view h s ++ [v])%list /\
  fits (append h s v).1 (append h s v).2 /\
  len (append h s v).2 = S (len s) /\
  (forall a, length (cells h a) <= length (cells (append h s v).1 a))%nat.
Proof.
  intros Hfit. pose proof Hfit as [Hl Hc]. unfold append.
  destruct (Nat.ltb_spec (len s) (cap s)) as [Hlt | Hge];
    cbn [fst snd].
  - pose proof (fits_in_heap h s Hfit Hlt) as Harr.
    assert (Hlen :
      length (<[(offset s + len s)%nat := v]> (cells h (array s)))
      = length (cells h (array s))) by apply length_insert.
    repeat split; cbn [len cap offset array].
    + unfold view at 1. cbn [len offset array].
      rewrite cells_insert. rewrite decide_True by (split; [reflexivity | lia]).
      rewrite drop_insert_ge by lia.
      replace (offset s + len s - offset s)%nat with (len s) by lia.
      assert (Hlook :
        <[len s := v]> (drop (offset s) (cells h (array s))) !! len s
        = Some v).
      { apply list_lookup_insert_eq. rewrite length_drop. lia. }
      rewrite (take_S_r _ _ _ Hlook), take_insert_ge by lia. reflexivity.
    + lia.
    + rewrite cells_insert_length by exact Hlen. exact Hc.
    + intros a. rewrite cells_insert_length by exact Hlen. reflexivity.
  - pose proof (view_length h s Hfit) as Hv.
    repeat split; cbn [len cap offset array].
    + unfold view at 1. cbn [len offset array].
      rewrite cells_new, drop_0.
      change (view h s ++ v :: replicate _ ""%string)%list
        with (view h s ++ [v] ++ replicate
                (growslice (S (len s)) - S (len s)) ""%string)%list.
      rewrite app_assoc. apply take_app_length'.
      rewrite length_app, Hv. cbn. lia.
    + lia.
    + rewrite cells_new, length_app, Hv. cbn [length].
      rewrite length_replicate. lia.
    + intros a. apply cells_app.
Qed.

Lemma step_sound w e : sound w -> sound (step w e).
Proof.
  intros Hs. destruct e as [texts | a i text | s | id doc | id k1' b'];
    cbn [step].
  - intros id c Hc. cbn [calculators heap] in *.
    destruct (Hs id c Hc) as (Hr & Hl & Hf).
    split; [exact Hr | split; [exact Hl|]].
    apply (fits_grow (heap w)); [intros a; apply cells_app | exact Hf].
  - intros id c Hc. cbn [calculators heap] in *.
    destruct (Hs id c Hc) as (Hr & Hl & Hf).
    split; [exact Hr | split; [exact Hl|]].
    apply (fits_grow (heap w)); [|exact Hf].
    intros a'. rewrite cells_insert_length; [reflexivity|].
    apply length_insert.
  - case_decide as Hfit; [|exact Hs].
    intros id c Hc. cbn [calculators heap] in *.
    apply lookup_app_Some in Hc as [Hc | [_ Hc]]; [exact (Hs id c Hc)|].
    apply list_lookup_singleton_Some in Hc as [_ <-].
    cbn [NewBM25Calculator_at state docs].
    split; [apply reach_new | split; [|exact Hfit]].
    rewrite NewBM25Calculator_spec. cbn [index_of documents].
    apply view_length, Hfit.
  - destruct (calculators w !! id) as [c|] eqn:Hid; [|exact Hs].
    destruct (Hs id c Hid) as (Hr & Hl & Hf).
    unfold AddDocument_at.
    pose proof (append_view (heap w) (docs c) doc Hf)
      as (Hview & Hfit' & Hlen' & Hgrow).
    destruct (append (heap w) (docs c) doc) as [h' s'].
    cbn [fst snd] in *.
    intros id' c' Hc'. cbn [calculators heap] in *.
    destruct (decide (id = id')) as [<- | Hne].
    + rewrite list_lookup_insert_eq in Hc'
        by (apply lookup_lt_Some in Hid; exact Hid).
      injection Hc' as <-. cbn [state docs].
      split; [apply reach_add, Hr | split; [|exact Hfit']].
      cbn [AddDocument documents]. rewrite length_app, Hl, Hlen'.
      cbn. lia.
    + rewrite list_lookup_insert_ne in Hc' by exact Hne.
      destruct (Hs id' c' Hc') as (Hr' & Hl' & Hf').
      split; [exact Hr' | split; [exact Hl'|]].
      apply (fits_grow (heap w)); assumption.
  - destruct (calculators w !! id) as [c|] eqn:Hid; [|exact Hs].
    destruct (Hs id c Hid) as (Hr & Hl & Hf).
    intros id' c' Hc'. cbn [calculators heap] in *.
    destruct (decide (id = id')) as [<- | Hne].
    + rewrite list_lookup_insert_eq in Hc'
        by (apply lookup_lt_Some in Hid; exact Hid).
      injection Hc' as <-. cbn [SetParameters_at state docs].
      split; [apply reach_set, Hr | split; [exact Hl | exact Hf]].
    + rewrite list_lookup_insert_ne in Hc' by exact Hne.
      exact (Hs id' c' Hc').
Qed.

Lemma run_sound events : sound (run events).
Proof.
  unfold run.
  assert (Hgen : forall w, sound w -> sound (fold_left step events w)).
  { induction events as [|e events IH]; intros w Hw; cbn [fold_left];
      [exact Hw|].
    apply IH, step_sound, Hw. }
  apply Hgen. intros id c Hc. destruct id; discriminate.
Qed.

(** *** Who stores into a calculator's documents *)

(** The cell of the heap an event stores into, if any: array and
    index. *)
Definition written (w : World) (e : Event) : option (nat * nat) :=
  match e with
  | Store a i _ => Some (a, i)
  | Add id _ =>
      match calculators w !! id with
      | Some c =>
          if (len (docs c) <? cap (docs c))%nat
          then Some (array (docs c), (offset (docs c) + len (docs c))%nat)
          else None
      | None => None
      end
  | _ => None
  end.

(** The cell is one of the elements of the slice. *)
Definition inside (s : Slice) (cell : nat * nat) : Prop :=
  cell.1 = array s /\ (offset s <= cell.2 < offset s + len s)%nat.

Lemma view_store_outside h s a i v :
  ~ inside s (a, i) ->
  view (<[a := <[i := v]> (cells h a)]> h) s = view h s.
Proof.
  intros Hout. unfold view. rewrite cells_insert.
  case_decide as Hd; [|reflexivity]. destruct Hd as [-> Harr].
  destruct (decide (i < offset s)%nat) as [Hlt | Hge].
  - rewrite drop_insert_lt by exact Hlt. reflexivity.
  - rewrite drop_insert_ge by lia. apply take_insert_ge.
    destruct (decide (i - offset s < len s)%nat) as [Hin | Hnot]; [|lia].
    exfalso. apply Hout. split; [reflexivity | cbn [snd]; lia].
Qed.

Lemma view_alloc h arr s : fits h s -> view (h ++ [arr]) s = view h s.
Proof.
  intros [Hl Hc]. unfold view, cells in *.
  destruct (h !! array s) as [x|] eqn:Hx.
  - rewrite (lookup_app_l_Some _ _ _ _ Hx). reflexivity.
  - cbn in Hc. assert (Hz : len s = 0%nat) by lia.
    rewrite Hz. reflexivity.
Qed.

(** A calculator over a slice is intact when it is built, and stays so
    through every event that does not store into one of its documents.
    Its own [AddDocument] stores behind its last document, so it never
    does; another calculator's [AddDocument] does when both share the
    array and the other's slice ends inside this one's. *)
Lemma New_intact h s : intact h (NewBM25Calculator_at h s).
Proof.
  unfold intact. cbn [NewBM25Calculator_at docs state].
  rewrite NewBM25Calculator_spec. reflexivity.
Qed.

Lemma step_keeps_intact w e id c :
  sound w ->
  calculators w !! id = Some c ->
  intact (heap w) c ->
  (forall cell, written w e = Some cell -> ~ inside (docs c) cell) ->
  exists c',
    calculators (step w e) !! id = Some c' /\ intact (heap (step w e)) c'.
Proof.
  intros Hs Hc Hi Hout. destruct (Hs id c Hc) as (Hr & Hl & Hf).
  unfold intact in *.
  destruct e as [texts | a i text | s | id' doc | id' k1' b']; cbn [step].
  - exists c. split; [exact Hc|]. cbn [heap].
    rewrite view_alloc by exact Hf. exact Hi.
  - exists c. split; [exact Hc|]. cbn [heap].
    rewrite view_store_outside; [exact Hi|].
    apply Hout. reflexivity.
  - case_decide; [|eauto]. exists c. split; [|exact Hi].
    cbn [calculators]. apply lookup_app_l_Some, Hc.
  - destruct (calculators w !! id') as [c0|] eqn:Hid; [|eauto].
    destruct (Hs id' c0 Hid) as (Hr0 & Hl0 & Hf0).
    unfold AddDocument_at.
    pose proof (append_view (heap w) (docs c0) doc Hf0)
      as (Hview & Hfit' & Hlen' & Hgrow).
    destruct (decide (id' = id)) as [-> | Hne].
    + rewrite Hc in Hid. injection Hid as <-.
      destruct (append (heap w) (docs c) doc) as [h' s'].
      cbn [fst snd calculators heap] in *.
      eexists. split.
      * apply list_lookup_insert_eq. apply lookup_lt_Some in Hc. exact Hc.
      * cbn [docs state AddDocument documents]. rewrite Hview, Hi.
        reflexivity.
    + specialize (Hout (array (docs c0),
                        (offset (docs c0) + len (docs c0))%nat)).
      cbn [written] in Hout. rewrite Hid in Hout.
      unfold append in *.
      destruct (Nat.ltb_spec (len (docs c0)) (cap (docs c0))) as [Hlt | Hge];
        cbn [fst snd calculators heap] in *.
      * exists c. split; [rewrite list_lookup_insert_ne by exact Hne; exact Hc|].
        rewrite view_store_outside; [exact Hi|].
        apply Hout. reflexivity.
      * exists c. split; [rewrite list_lookup_insert_ne by exact Hne; exact Hc|].
        rewrite view_alloc by exact Hf. exact Hi.
  - destruct (calculators w !! id') as [c0|] eqn:Hid; [|eauto].
    cbn [calculators heap].
    destruct (decide (id' = id)) as [-> | Hne].
    + rewrite Hc in Hid. injection Hid as <-. eexists. split.
      * apply list_lookup_insert_eq. apply lookup_lt_Some in Hc. exact Hc.
      * exact Hi.
    + exists c. split; [rewrite list_lookup_insert_ne by exact Hne; exact Hc|].
      exact Hi.
Qed.

Lemma snapshot_intact h c : intact h c -> snapshot h c = state c.
Proof.
  unfold intact, snapshot. intros ->. destruct (state c). reflexivity.
Qed.

(** *** The properties of the index, with the documents in the heap *)

(** After [events], the calculator with number [id] is [c], and its
    documents read as it indexed them. *)
Definition undisturbed (events : list Event) (id : nat) (c : Handle) : Prop :=
  calculators (run events) !! id = Some c /\ intact (heap (run events)) c.

(** The calculator as its methods find it after [events]. *)
Definition current (events : list Event) (c : Handle) : BM25Calculator :=
  snapshot (heap (run events)) c.

Lemma undisturbed_held events id c :
  undisturbed events id c ->
  current events c = state c /\
  reachable prose_tokens lower_trim (current events c).
Proof.
  intros [Hc Hi]. unfold current. rewrite (snapshot_intact _ _ Hi).
  split; [reflexivity|]. apply (run_sound events id c Hc).
Qed.

(** C4, as the code has it.  For a calculator whose documents no other
    holder of their backing array has stored into, every query and every
    document index of the corpus: the score, in float64, is 0 when the
    document has no tokens or shares none with the query; and with
    [0 <= k1], [0 <= b <= 1] and sizes such that no product leaves the
    range of float64 it is a finite number that is not negative. *)
Theorem calculateBM25Score_nonneg (events : list Event) (id : nat)
    (c : Handle) (queryWords : list string) (docIndex : nat) (doc : string) :
  undisturbed events id c ->
  documents (current events c) !! docIndex = Some doc ->
  let calc := current events c in
  exists s,
    Range.calculateBM25Score prose_tokens lower_trim calc queryWords docIndex
    = Some s /\
    (tokenize prose_tokens lower_trim doc = [] -> s = Finite 0) /\
    ((forall w, In w queryWords ->
                ~ In w (tokenize prose_tokens lower_trim doc)) ->
     s = Finite 0) /\
    ((0 <= k1 calc)%R -> (0 <= b calc <= 1)%R ->
     (magnitude calc queryWords (doc_length prose_tokens lower_trim doc)
      <= MaxFloat64)%R ->
     exists x, s = Finite x /\ (0 <= x)%R).
Proof.
  intros Hu Hdoc calc. subst calc.
  destruct (undisturbed_held events id c Hu) as [Heq Hr].
  set (calc := current events c) in *. clearbody calc.
  pose proof (reachable_consistent _ _ calc Hr) as Hcons.
  assert (Hlen : docLengths calc !! docIndex
                 = Some (doc_length prose_tokens lower_trim doc)).
  { rewrite (cons_lengths _ _ calc Hcons), list_lookup_fmap, Hdoc.
    reflexivity. }
  unfold Range.calculateBM25Score. rewrite Hlen, Hdoc.
  eexists. split; [reflexivity|]. split; [|split].
  - intros Hempty. rewrite Hempty. apply score_loop_untouched.
    intros w _. apply term_frequency_absent. intros [].
  - intros Hdisjoint. apply score_loop_untouched.
    intros w Hw. apply term_frequency_absent, Hdisjoint, Hw.
  - intros Hk Hb Hmag.
    destruct (calculateBM25Score_exact prose_tokens lower_trim calc
                queryWords docIndex doc Hr Hdoc Hk Hb Hmag)
      as (x & Hreal & Hfloat).
    destruct (real_score_nonneg prose_tokens lower_trim calc queryWords
                docIndex doc Hr Hdoc) as (x' & Hreal' & _ & _ & Hnn).
    rewrite Hreal in Hreal'. injection Hreal' as <-.
    unfold Range.calculateBM25Score in Hfloat. rewrite Hlen, Hdoc in Hfloat.
    injection Hfloat as Hfloat.
    exists x. split; [exact Hfloat | apply Hnn; assumption].
Qed.

(** X1.  For a calculator whose documents no other holder of their
    backing array has stored into: the document frequency of a word is
    the number of documents of the corpus in which the word occurs,
    however often it occurs in each, and the document count is the
    length of the corpus. *)
Theorem docFreq_counts_documents (events : list Event) (id : nat)
    (c : Handle) (w : string) :
  undisturbed events id c ->
  let calc := current events c in
  index (docFreq calc) w
  = documents_with prose_tokens lower_trim w (documents calc) /\
  GetDocumentCount calc = Z.of_nat (length (documents calc)) /\
  0 <= index (docFreq calc) w <= GetDocumentCount calc.
Proof.
  intros Hu calc. subst calc.
  destruct (undisturbed_held events id c Hu) as [_ Hr].
  apply (held_docFreq_counts prose_tokens lower_trim _ w Hr).
Qed.

(** X2.  For a calculator whose documents no other holder of their
    backing array has stored into: the vocabulary gives each word the
    number of its occurrences in the whole corpus, its keys are exactly
    the tokens of the corpus, and [GetVocabularySize] is the number of
    distinct tokens. *)
Theorem vocabulary_counts_occurrences (events : list Event) (id : nat)
    (c : Handle) (w : string) :
  undisturbed events id c ->
  let calc := current events c in
  index (vocabulary calc) w
  = occurrences prose_tokens lower_trim w (documents calc) /\
  (is_Some (vocabulary calc !! w)
   <-> w ∈ corpus_tokens prose_tokens lower_trim (documents calc)) /\
  GetVocabularySize calc
  = Z.of_nat
      (size (list_to_set
               (corpus_tokens prose_tokens lower_trim (documents calc))
             : gset string)).
Proof.
  intros Hu calc. subst calc.
  destruct (undisturbed_held events id c Hu) as [_ Hr].
  apply (held_vocabulary_counts prose_tokens lower_trim _ w Hr).
Qed.

(** X4.  For a calculator whose documents no other holder of their
    backing array has stored into: [Calculate] returns a map whose keys
    are exactly the documents of the corpus, and which gives every
    document, also one whose text occurs several times, the BM25 score
    of the query against it. *)
Theorem Calculate_scores_each_document (events : list Event) (id : nat)
    (c : Handle) (text : string) :
  undisturbed events id c ->
  let calc := current events c in
  exists result,
    Calculate prose_tokens lower_trim calc text = Some result /\
    (forall i doc,
        documents calc !! i = Some doc ->
        result !! doc = Score prose_tokens lower_trim calc text i) /\
    (forall doc, is_Some (result !! doc) <-> doc ∈ documents calc).
Proof.
  intros Hu calc. subst calc.
  destruct (undisturbed_held events id c Hu) as [_ Hr].
  apply (held_Calculate_scores prose_tokens lower_trim _ text Hr).
Qed.

(** X5.  For a calculator whose documents no other holder of their
    backing array has stored into: [CalculateQuerySimilarity] of a query
    against the text of a document of the corpus is the score
    [Calculate] gives that document. *)
Theorem CalculateQuerySimilarity_on_corpus (events : list Event) (id : nat)
    (c : Handle) (query : string) (i : nat) (doc : string) :
  undisturbed events id c ->
  documents (current events c) !! i = Some doc ->
  let calc := current events c in
  Score prose_tokens lower_trim calc query i
  = Some (CalculateQuerySimilarity prose_tokens lower_trim calc query doc).
Proof.
  intros Hu Hdoc calc. subst calc.
  destruct (undisturbed_held events id c Hu) as [_ Hr].
  apply (held_similarity_on_corpus prose_tokens lower_trim _ query i doc Hr
           Hdoc).
Qed.


End Shared.

(** *** On concrete heaps *)

(** A runtime that doubles. *)
Definition twice (needed : nat) : nat := 2 * needed.

(** The client makes a slice with one text and builds a calculator over
    it; the calculator adds a second text, for which [append] has to
    allocate. *)
Definition own_events : list Event :=
  [Make ["aa bb aa"%string]; New (mkSlice 0 0 1 1); Add 0 "aa cc"%string].

Definition own_handle : Handle := mkHandle (mkSlice 1 0 2 4) two_documents.

Lemma own_undisturbed : undisturbed fields lower twice own_events 0 own_handle.
Proof. split; reflexivity. Qed.

Lemma own_magnitude query :
  length query = 1%nat ->
  (magnitude (current fields lower twice own_events own_handle) query 2
   <= MaxFloat64)%R.
Proof.
  intros Hq. unfold magnitude. rewrite Hq.
  change (totalDocs (current fields lower twice own_events own_handle))
    with 2.
  change (k1 (current fields lower twice own_events own_handle))
    with 1.5%R.
  cbn [INR]. unfold MaxFloat64. pose proof ulp_top_four. lra.
Qed.

Lemma calculateBM25Score_nonneg_witness :
  let calc := current fields lower twice own_events own_handle in
  exists s,
    Range.calculateBM25Score fields lower calc ["cc"%string] 1 = Some s /\
    (tokenize fields lower "aa cc" = [] -> s = Finite 0) /\
    ((forall w, In w ["cc"%string] ->
                ~ In w (tokenize fields lower "aa cc")) ->
     s = Finite 0) /\
    exists x, s = Finite x /\ (0 <= x)%R.
Proof.
  intros calc.
  destruct (calculateBM25Score_nonneg fields lower twice own_events 0
              own_handle ["cc"%string] 1 "aa cc" own_undisturbed eq_refl)
    as (s & Hs & Hempty & Hdisjoint & Hnn).
  exists s. split; [exact Hs|]. split; [exact Hempty|].
  split; [exact Hdisjoint|].
  apply Hnn.
  - change (0 <= 1.5)%R. lra.
  - change (0 <= 0.75 <= 1)%R. lra.
  - apply (own_magnitude ["cc"%string]). reflexivity.
Defined.

Lemma docFreq_counts_documents_witness :
  let calc := current fields lower twice own_events own_handle in
  index (docFreq calc) "cc"
  = documents_with fields lower "cc" (documents calc) /\
  GetDocumentCount calc = Z.of_nat (length (documents calc)) /\
  0 <= index (docFreq calc) "cc" <= GetDocumentCount calc.
Proof.
  exact (docFreq_counts_documents fields lower twice own_events 0 own_handle
           "cc" own_undisturbed).
Defined.

Lemma vocabulary_counts_occurrences_witness :
  let calc := current fields lower twice own_events own_handle in
  index (vocabulary calc) "aa"
  = occurrences fields lower "aa" (documents calc) /\
  (is_Some (vocabulary calc !! "aa"%string)
   <-> "aa"%string ∈ corpus_tokens fields lower (documents calc)) /\
  GetVocabularySize calc
  = Z.of_nat
      (size (list_to_set (corpus_tokens fields lower (documents calc))
             : gset string)).
Proof.
  exact (vocabulary_counts_occurrences fields lower twice own_events 0
           own_handle "aa" own_undisturbed).
Defined.

Lemma Calculate_scores_each_document_witness :
  let calc := current fields lower twice own_events own_handle in
  exists result,
    Calculate fields lower calc "cc" = Some result /\
    (forall i doc,
        documents calc !! i = Some doc ->
        result !! doc = Score fields lower calc "cc" i) /\
    (forall doc, is_Some (result !! doc) <-> doc ∈ documents calc).
Proof.
  exact (Calculate_scores_each_document fields lower twice own_events 0
           own_handle "cc" own_undisturbed).
Defined.

Lemma CalculateQuerySimilarity_on_corpus_witness :
  let calc := current fields lower twice own_events own_handle in
  Score fields lower calc "cc" 1
  = Some (CalculateQuerySimilarity fields lower calc "cc" "aa cc").
Proof.
  exact (CalculateQuerySimilarity_on_corpus fields lower twice own_events 0
           own_handle "cc" 1 "aa cc" own_undisturbed eq_refl).
Defined.



(** Two calculators over one backing array.  The client makes a slice
    of two texts, builds a first calculator over its first element (the
    slice [base[:1]], of capacity 2) and a second one over both, and
    the first calculator adds a text: [append] has room and stores it
    over the second text.  The second calculator then has the documents
    "aa bb" and "zz zz", and an index that still counts "cc dd". *)
Definition shared_events : list Event :=
  [Make ["aa bb"%string; "cc dd"%string];
   New (mkSlice 0 0 1 2); New (mkSlice 0 0 2 2); Add 0 "zz zz"%string].

Example aliased_calculator_miscounts :
  let world := run fields lower twice shared_events in
  exists second,
    calculators world !! 1%nat = Some second /\
    ~ intact (heap world) second /\
    let calc := snapshot (heap world) second in
    documents calc = ["aa bb"%string; "zz zz"%string] /\
    index (docFreq calc) "cc" = 1 /\
    documents_with fields lower "cc" (documents calc) = 0 /\
    index (vocabulary calc) "zz" = 0 /\
    occurrences fields lower "zz" (documents calc) = 2.
Proof.
  eexists. split; [reflexivity|]. split; [|repeat split; vm_compute; reflexivity].
  unfold intact. intros Heq. vm_compute in Heq. discriminate Heq.
Qed.

(** Beyond the range.  With [k1 = math.MaxFloat64] and [b = 1], which
    satisfy [0 <= k1] and [0 <= b <= 1]: for "aa" against "aa aa bb"
    the numerator [2 * (k1 + 1)] and the denominator
    [2 + k1 * (0 + 1 * 3 / 2)] are both [+Inf], and the score is NaN. *)
Example calculateBM25Score_overflows :
  let calc :=
    SetParameters
      (NewBM25Calculator fields lower ["aa aa bb"%string; "cc"%string])
      MaxFloat64 1 in
  (0 <= k1 calc)%R /\ (0 <= b calc <= 1)%R /\
  Range.calculateBM25Score fields lower calc ["aa"%string] 0 = Some NaN.
Proof.
  intros calc. pose proof ulp_top_four as Htop.
  assert (Hmax : (4 <= MaxFloat64)%R) by (unfold MaxFloat64; lra).
  split; [change (0 <= MaxFloat64)%R; lra|].
  split; [change (0 <= 1 <= 1)%R; lra|].
  assert (Hlen : docLengths calc !! 0%nat = Some 3) by reflexivity.
  assert (Hdoc : documents calc !! 0%nat = Some "aa aa bb"%string)
    by reflexivity.
  assert (Htf :
    index (count_words (tokenize fields lower "aa aa bb") ∅) "aa" = 2)
    by (vm_compute; reflexivity).
  assert (Havg : avgDocLength calc = (4 / 2)%R).
  { unfold calc. rewrite NewBM25Calculator_spec.
    cbn [SetParameters avgDocLength index_of length Nat.ltb Nat.leb].
    replace (sum_lengths _) with 4 by (vm_compute; reflexivity).
    reflexivity. }
  unfold Range.calculateBM25Score. rewrite Hlen, Hdoc. f_equal.
  cbn [fold_left]. unfold Range.score_word. rewrite Htf, Havg.
  change (k1 calc) with MaxFloat64. change (b calc) with 1%R.
  unfold of_int, is_positive.
  destruct (Rlt_dec 0 2) as [_ | Hn]; [|lra].
  assert (E1 : add (Finite MaxFloat64) (Finite 1) = Finite (MaxFloat64 + 1)).
  { apply add_finite. rewrite Rabs_pos_eq by lra.
    unfold overflow, MaxFloat64. lra. }
  assert (E2 : mul (Finite 2) (Finite (MaxFloat64 + 1)) = Inf false).
  { apply mul_overflow. unfold overflow, MaxFloat64. lra. }
  assert (E3 : sub (Finite 1) (Finite 1) = Finite (1 - 1))
    by (apply sub_exact; lra).
  assert (E4 : mul (Finite 1) (Finite 3) = Finite (1 * 3))
    by (apply mul_exact; lra).
  assert (E5 : div (Finite (1 * 3)) (Finite (4 / 2)) = Finite (1 * 3 / (4 / 2)))
    by (apply div_exact; lra).
  assert (E6 : add (Finite (1 - 1)) (Finite (1 * 3 / (4 / 2)))
               = Finite (1 - 1 + 1 * 3 / (4 / 2)))
    by (apply add_exact; lra).
  assert (E7 : mul (Finite MaxFloat64) (Finite (1 - 1 + 1 * 3 / (4 / 2)))
               = Inf false).
  { apply mul_overflow. unfold overflow, MaxFloat64. lra. }
  rewrite E1, E2, E3, E4, E5, E6, E7.
  destruct (Range.calculateIDF calc "aa") as [x | sign |]; cbn [mul];
    [destruct (Req_dec_T x 0)| |]; reflexivity.
Qed.

(** And on the empty corpus with [k1 = math.MaxFloat64]: every IDF is
    0, the numerator [2 * (k1 + 1)] is [+Inf], and their product is
    NaN. *)
Example CalculateQuerySimilarity_overflows :
  let calc := SetParameters (NewBM25Calculator fields lower []) MaxFloat64 0.75 in
  (0 <= k1 calc)%R /\ (0 <= b calc <= 1)%R /\ totalDocs calc = 0 /\
  Range.CalculateQuerySimilarity fields lower calc "aa" "aa aa" = NaN.
Proof.
  intros calc. pose proof ulp_top_four as Htop.
  assert (Hmax : (4 <= MaxFloat64)%R) by (unfold MaxFloat64; lra).
  split; [change (0 <= MaxFloat64)%R; lra|].
  split; [change (0 <= 0.75 <= 1)%R; lra|].
  split; [reflexivity|].
  assert (Htf :
    index (count_words (tokenize fields lower "aa aa") ∅) "aa" = 2)
    by (vm_compute; reflexivity).
  unfold Range.CalculateQuerySimilarity.
  change (tokenize fields lower "aa") with ["aa"%string].
  cbn [fold_left]. unfold Range.score_word. rewrite Htf.
  change (Range.calculateIDF calc "aa") with (Finite 0).
  change (k1 calc) with MaxFloat64.
  unfold of_int, is_positive.
  destruct (Rlt_dec 0 2) as [_ | Hn]; [|lra].
  assert (E1 : add (Finite MaxFloat64) (Finite 1) = Finite (MaxFloat64 + 1)).
  { apply add_finite. rewrite Rabs_pos_eq by lra.
    unfold overflow, MaxFloat64. lra. }
  assert (E2 : mul (Finite 2) (Finite (MaxFloat64 + 1)) = Inf false).
  { apply mul_overflow. unfold overflow, MaxFloat64. lra. }
  rewrite E1, E2. cbn [mul].
  destruct (Req_dec_T 0 0) as [_ | Hne]; [reflexivity | contradiction].
Qed.

(** The same sharing with texts that have no tokens at first.  The
    second calculator is built over "a" and the empty text: every
    document length is 0 and so is the average.  The first calculator
    then stores "xx yy" over the second text.  For "xx" against that
    document the second calculator finds a term frequency of 1 and
    divides [b * 0] by the average 0: the score is NaN, with the default
    parameters. *)
Definition empty_then_shared : list Event :=
  [Make ["a"%string; ""%string];
   New (mkSlice 0 0 1 2); New (mkSlice 0 0 2 2); Add 0 "xx yy"%string].

Example aliased_calculator_scores_NaN :
  let world := run fields lower twice empty_then_shared in
  exists second,
    calculators world !! 1%nat = Some second /\
    ~ intact (heap world) second /\
    let calc := snapshot (heap world) second in
    documents calc = ["a"%string; "xx yy"%string] /\
    k1 calc = 1.5%R /\ b calc = 0.75%R /\
    Range.calculateBM25Score fields lower calc ["xx"%string] 1 = Some NaN.
Proof.
  eexists. split; [reflexivity|]. split.
  { unfold intact. intros Heq. vm_compute in Heq. discriminate Heq. }
  cbv zeta. split; [reflexivity|]. split; [reflexivity|].
  split; [reflexivity|].
  set (calc := snapshot _ _).
  assert (Hlen : docLengths calc !! 1%nat = Some 0) by reflexivity.
  assert (Hdoc : documents calc !! 1%nat = Some "xx yy"%string)
    by reflexivity.
  assert (Htf :
    index (count_words (tokenize fields lower "xx yy") ∅) "xx" = 1)
    by (vm_compute; reflexivity).
  assert (Havg : avgDocLength calc = (0 / 2)%R).
  { change (avgDocLength calc)
      with (avgDocLength
              (NewBM25Calculator fields lower ["a"%string; ""%string])).
    rewrite NewBM25Calculator_spec.
    cbn [avgDocLength index_of length Nat.ltb Nat.leb].
    replace (sum_lengths _) with 0 by (vm_compute; reflexivity).
    reflexivity. }
  unfold Range.calculateBM25Score. rewrite Hlen, Hdoc. f_equal.
  cbn [fold_left]. unfold Range.score_word. rewrite Htf, Havg.
  change (k1 calc) with 1.5%R. change (b calc) with 0.75%R.
  unfold of_int, is_positive.
  destruct (Rlt_dec 0 1) as [_ | Hn]; [|lra].
  pose proof ulp_top_four as Htop.
  assert (Hmax : (4 <= MaxFloat64)%R) by (unfold MaxFloat64; lra).
  assert (E1 : sub (Finite 1) (Finite 0.75) = Finite (1 - 0.75))
    by (apply sub_exact; lra).
  assert (E2 : mul (Finite 0.75) (Finite 0) = Finite (0.75 * 0))
    by (apply mul_exact; lra).
  assert (E3 : div (Finite (0.75 * 0)) (Finite (0 / 2)) = NaN).
  { cbn [div]. destruct (Req_dec_T (0 / 2) 0) as [_ | Hne]; [|lra].
    destruct (Req_dec_T (0.75 * 0) 0) as [_ | Hne]; [reflexivity | lra]. }
  rewrite E1, E2, E3. clear E1 E2 E3. cbn [add mul].
  destruct (mul (Range.calculateIDF calc "xx") _); reflexivity.
Qed.

End BM25.

(** * Messages (schema.Message of the eino library, as the code uses it) *)
Module Schema.

Record ToolCall := mkToolCall { FunctionName : string }.

Record Message := mkMessage {
  Role : string;
  Content : string;
  ToolCalls : list ToolCall
}.

Definition UserMessage (content : string) : Message :=
  {| Role := "user"; Content := content; ToolCalls := [] |}.

Definition AssistantMessage (content : string) : Message :=
  {| Role := "assistant"; Content := content; ToolCalls := [] |}.

End Schema.

(** * The history filter *)
Module Filter.

Import Schema.

(** Insertion into a list kept in the order [precedes]; an element goes
    in front of the first one it precedes. *)
Fixpoint insert_sorted {A} (precedes : A -> A -> bool) (x : A) (l : list A)
  : list A :=
  match l with
  | [] => [x]
  | y :: l' =>
      if precedes x y then x :: y :: l' else y :: insert_sorted precedes x l'
  end.

Definition sort_by {A} (precedes : A -> A -> bool) (l : list A) : list A :=
  foldr (insert_sorted precedes) [] l.

(** Each message with its position in the history. *)
Fixpoint indexed_from (i : nat) (history : list Message)
  : list (nat * Message) :=
  match history with
  | [] => []
  | m :: history' => (i, m) :: indexed_from (S i) history'
  end.

Definition chronological (x y : nat * Message) : bool := (fst x <=? fst y)%nat.

Section Strategy.

(** The active relevance strategy (cosine similarity of embeddings, or
    the BM25 score of the query against the message text) and the
    comparison of its scores. *)
Variable Relevance : Type.
Variable higher : Relevance -> Relevance -> bool.
Variable relevance : string -> Message -> Relevance.

(** A message is ranked in front of another unless the other scores
    strictly higher; among equal scores the earlier message comes
    first. *)
Definition by_relevance (q : string) (x y : nat * Message) : bool :=
  negb (higher (relevance q (snd y)) (relevance q (snd x))).

(** Modelled from the spec: [chat.FilterRelevantHistory] (package
    internal/chat) is not among the sources; this is the selection
    policy of section 4.2: score every prior message against the query
    with the active strategy, retain the highest-scoring messages up to
    [budget] (a message count), and put them back into chronological
    order. *)
Definition FilterRelevantHistory (history : list Message) (q : string)
    (budget : nat) : list Message :=
  let ranked := sort_by (by_relevance q) (indexed_from 0 history) in
  let kept := take budget ranked in
  map snd (sort_by chronological kept).

End Strategy.

Arguments by_relevance {Relevance} higher relevance q x y.
Arguments FilterRelevantHistory {Relevance} higher relevance history q budget.

(** ** Sorting *)

Lemma insert_sorted_perm {A} (precedes : A -> A -> bool) x l :
  insert_sorted precedes x l ≡ₚ x :: l.
Proof.
  induction l as [|y l IH]; cbn [insert_sorted]; [reflexivity|].
  destruct (precedes x y); [reflexivity|].
  rewrite IH. apply perm_swap.
Qed.

Lemma sort_by_perm {A} (precedes : A -> A -> bool) l :
  sort_by precedes l ≡ₚ l.
Proof.
  unfold sort_by. induction l as [|x l IH]; cbn [foldr]; [reflexivity|].
  rewrite insert_sorted_perm, IH. reflexivity.
Qed.

Lemma sort_by_length {A} (precedes : A -> A -> bool) l :
  length (sort_by precedes l) = length l.
Proof. apply Permutation_length, sort_by_perm. Qed.

Definition index_le (x y : nat * Message) : Prop := (fst x <= fst y)%nat.
Definition index_lt (x y : nat * Message) : Prop := (fst x < fst y)%nat.

Lemma insert_chronological x l :
  StronglySorted index_le l ->
  StronglySorted index_le (insert_sorted chronological x l).
Proof.
  induction 1 as [|y l Hl IH Hy]; cbn [insert_sorted].
  - repeat constructor.
  - unfold chronological at 1.
    destruct (Nat.leb_spec (fst x) (fst y)) as [Hle | Hgt].
    + constructor; [constructor; assumption|].
      constructor; [exact Hle|].
      eapply Forall_impl; [exact Hy|]. unfold index_le. intros z Hz. lia.
    + constructor; [exact IH|].
      rewrite insert_sorted_perm. constructor; [|exact Hy].
      unfold index_le. lia.
Qed.

Lemma sort_chronological l :
  StronglySorted index_le (sort_by chronological l).
Proof.
  unfold sort_by. induction l as [|x l IH]; cbn [foldr].
  - constructor.
  - apply insert_chronological, IH.
Qed.

Lemma sorted_strict l :
  NoDup (map fst l) -> StronglySorted index_le l -> StronglySorted index_lt l.
Proof.
  intros Hnd Hs. induction Hs as [|x l Hl IH Hx]; [constructor|].
  cbn [map] in Hnd. apply NoDup_cons in Hnd as [Hnotin Hnd].
  constructor; [apply IH, Hnd|].
  rewrite Forall_forall in Hx |- *. intros y Hy.
  specialize (Hx y Hy). unfold index_le, index_lt in *.
  assert (fst x <> fst y); [|lia].
  intros Heq. apply Hnotin. rewrite Heq.
  apply list_elem_of_fmap. exists y. split; [reflexivity | exact Hy].
Qed.

(** ** Positions *)

Lemma indexed_from_snd history : forall i,
  map snd (indexed_from i history) = history.
Proof.
  induction history as [|m h IH]; intros i; cbn [indexed_from map];
    [reflexivity|].
  rewrite IH. reflexivity.
Qed.

Lemma indexed_from_length history : forall i,
  length (indexed_from i history) = length history.
Proof.
  induction history as [|m h IH]; intros i; cbn [indexed_from length]; auto.
Qed.

Lemma indexed_from_ge history : forall i x,
  x ∈ indexed_from i history -> (i <= fst x)%nat.
Proof.
  induction history as [|m h IH]; intros i x Hx; cbn [indexed_from] in Hx.
  - apply elem_of_nil in Hx. contradiction.
  - apply elem_of_cons in Hx as [-> | Hx]; [simpl; lia|].
    apply IH in Hx. lia.
Qed.

Lemma indexed_from_NoDup history : forall i,
  NoDup (map fst (indexed_from i history)).
Proof.
  induction history as [|m h IH]; intros i; cbn [indexed_from map].
  - constructor.
  - apply NoDup_cons. split; [|apply IH].
    intros Hin. apply list_elem_of_fmap in Hin as (x & Hx & Hin).
    apply indexed_from_ge in Hin. simpl in Hx. lia.
Qed.

(** A selection of positions in strictly increasing order reads the
    history from left to right. *)
Lemma increasing_selection_sublist history : forall i l,
  StronglySorted index_lt l ->
  (forall x, x ∈ l -> x ∈ indexed_from i history) ->
  l `sublist_of` indexed_from i history.
Proof.
  induction history as [|m h IH]; intros i l Hs Hin; cbn [indexed_from] in *.
  - destruct l as [|x l]; [constructor|].
    specialize (Hin x ltac:(left)). apply elem_of_nil in Hin. contradiction.
  - destruct l as [|x l]; [apply sublist_nil_l|].
    apply StronglySorted_cons in Hs as [Hx Hs].
    rewrite Forall_forall in Hx.
    assert (Hrest : forall y, y ∈ l -> y ∈ indexed_from (S i) h).
    { intros y Hy. specialize (Hx y Hy). unfold index_lt in Hx.
      pose proof (Hin x ltac:(left)) as Hxin.
      specialize (Hin y ltac:(right; exact Hy)).
      apply elem_of_cons in Hin as [-> | Hin]; [|exact Hin].
      exfalso. apply elem_of_cons in Hxin as [-> | Hxin]; simpl in Hx; [lia|].
      apply indexed_from_ge in Hxin. lia. }
    pose proof (Hin x ltac:(left)) as Hxin.
    apply elem_of_cons in Hxin as [-> | Hxin].
    + apply sublist_skip, IH; assumption.
    + apply sublist_cons, IH.
      * apply StronglySorted_cons. rewrite Forall_forall. auto.
      * intros y Hy. apply elem_of_cons in Hy as [-> | Hy]; auto.
Qed.

Lemma sublist_same_length {A} (l1 l2 : list A) :
  l1 `sublist_of` l2 -> (length l2 <= length l1)%nat -> l1 = l2.
Proof.
  induction 1 as [|x l1 l2 Hsub IH|x l1 l2 Hsub IH]; cbn [length]; intros Hlen.
  - reflexivity.
  - f_equal. apply IH. lia.
  - apply sublist_length in Hsub. lia.
Qed.

Lemma sublist_map {A B} (f : A -> B) (l1 l2 : list A) :
  l1 `sublist_of` l2 -> map f l1 `sublist_of` map f l2.
Proof. induction 1; cbn [map]; constructor; assumption. Qed.

Section Properties.

Variable Relevance : Type.
Variable higher : Relevance -> Relevance -> bool.
Variable relevance : string -> Message -> Relevance.

(** What the filter keeps before the projection to messages: positions
    in strictly increasing order, all of them positions of [history]. *)
Lemma kept_chronological history q budget :
  let ranked := sort_by (by_relevance higher relevance q)
                  (indexed_from 0 history) in
  sort_by chronological (take budget ranked)
  `sublist_of` indexed_from 0 history.
Proof.
  intros ranked.
  assert (Hranked : ranked ≡ₚ indexed_from 0 history)
    by apply sort_by_perm.
  apply increasing_selection_sublist.
  - apply sorted_strict; [|apply sort_chronological].
    rewrite (sort_by_perm chronological (take budget ranked)).
    apply (sublist_NoDup _ (map fst ranked)).
    + rewrite Hranked. apply indexed_from_NoDup.
    + apply sublist_map, sublist_take.
  - intros x Hx. rewrite (sort_by_perm chronological) in Hx.
    rewrite <- Hranked. eapply elem_of_sublist; [exact Hx|].
    apply sublist_take.
Qed.

(** C7.  The filter returns a subsequence of the history in its original
    order, of at most [budget] messages (exactly [min budget (length
    history)]); when the budget is at least the length of the history,
    it returns the history unchanged. *)
Theorem FilterRelevantHistory_subsequence
    (history : list Message) (q : string) (budget : nat) :
  let result := FilterRelevantHistory higher relevance history q budget in
  result `sublist_of` history /\
  (length result <= budget)%nat /\
  length result = Nat.min budget (length history) /\
  ((length history <= budget)%nat -> result = history).
Proof.
  intros result. subst result. unfold FilterRelevantHistory.
  pose proof (kept_chronological history q budget) as Hsub.
  cbv zeta in Hsub.
  set (ranked := sort_by (by_relevance higher relevance q)
                   (indexed_from 0 history)) in *.
  assert (Hlen : length (map snd (sort_by chronological (take budget ranked)))
                 = Nat.min budget (length history)).
  { rewrite length_map, sort_by_length, length_take.
    unfold ranked. rewrite sort_by_length, indexed_from_length. reflexivity. }
  split; [|split; [|split]].
  - pose proof (sublist_map snd _ _ Hsub) as Hmsgs.
    rewrite (indexed_from_snd history 0) in Hmsgs. exact Hmsgs.
  - rewrite Hlen. lia.
  - exact Hlen.
  - intros Hbudget.
    transitivity (map snd (indexed_from 0 history));
      [|apply indexed_from_snd].
    f_equal.
    apply sublist_same_length; [exact Hsub|].
    rewrite sort_by_length, length_take.
    unfold ranked. rewrite sort_by_length, indexed_from_length. lia.
Qed.

End Properties.

(** Four messages scored 1, 5, 5, 0 by relevance, with a budget of two:
    the second and third are kept, in their original order. *)
Example FilterRelevantHistory_example :
  let history :=
    [UserMessage "hi"; AssistantMessage "rocq"; UserMessage "coq";
     AssistantMessage ""] in
  let relevance (q : string) (m : Message) : nat :=
    if decide (Content m = "hi"%string) then 1%nat
    else if decide (Content m = ""%string) then 0%nat else 5%nat in
  FilterRelevantHistory (fun a b => (b <? a)%nat) relevance history "rocq" 2
  = [AssistantMessage "rocq"; UserMessage "coq"] /\
  FilterRelevantHistory (fun a b => (b <? a)%nat) relevance history "rocq" 9
  = history.
Proof. split; reflexivity. Qed.

End Filter.

(** * Stream readers (schema.StreamReader) *)
Module Reader.

Import Schema.

(** [io.EOF], or any other error. *)
Inductive error := EOF | Failure (msg : string).

(** A reader that has [pending] increments to deliver and answers
    [final] once they are gone.  [recv_calls] and [close_calls] count
    the calls it has received, as a mock source would. *)
Record StreamReader := mkReader {
  pending : list Message;
  final : error;
  recv_calls : nat;
  close_calls : nat
}.

Definition Recv (r : StreamReader) : (Message + error) * StreamReader :=
  match pending r with
  | message :: rest =>
      (inl message,
       {| pending := rest; final := final r;
          recv_calls := S (recv_calls r); close_calls := close_calls r |})
  | [] =>
      (inr (final r),
       {| pending := []; final := final r;
          recv_calls := S (recv_calls r); close_calls := close_calls r |})
  end.

Definition Close (r : StreamReader) : StreamReader :=
  {| pending := pending r; final := final r;
     recv_calls := recv_calls r; close_calls := S (close_calls r) |}.

Definition fresh (chunks : list Message) (final : error) : StreamReader :=
  {| pending := chunks; final := final; recv_calls := 0; close_calls := 0 |}.

End Reader.

(** * services/aichat/internal/service/chat_service_impl.go *)
Module ChatService.

Import Schema Reader.

Open Scope string_scope.

(** What a call leaves behind, next to what it returns. *)
Record Outcome := mkOutcome {
  returned : string * option error;
  logged : list string;
  saved : option (list Message);
  reader_after : option StreamReader
}.

(** [chatHistoryStr]: one line "role: content" per message with content. *)
Fixpoint render (filteredHistory : list Message) : string :=
  match filteredHistory with
  | [] => ""
  | msg :: rest =>
      (if decide (Content msg = "") then ""
       else Role msg ++ ": " ++ Content msg ++ String "010"%char "")
      ++ render rest
  end.

(** The loop of [ProcessUserInput]:
    [for { message, err := streamReader.Recv(); if err != nil { break };
    fullContent.WriteString(message.Content) }].  It is run with one
    turn per pending increment and one for the final error. *)
Fixpoint collect (turns : nat) (streamReader : StreamReader)
    (fullContent : string) : string * StreamReader :=
  match turns with
  | O => (fullContent, streamReader)
  | S turns' =>
      match Recv streamReader with
      | (inr _, streamReader') => (fullContent, streamReader')
      | (inl message, streamReader') =>
          collect turns' streamReader' (fullContent ++ Content message)
      end
  end.

(** How the loop of [ProcessUserInputStream] stands: it has left by
    [break], it has left by [return "", err], or it is still turning
    (the polls given to it are used up). *)
Record LoopState := mkLoop {
  reader : StreamReader;
  fullContent : string;
  emitted : list (string * bool)
}.

Inductive LoopResult :=
| Break (st : LoopState)
| Return (err : error) (st : LoopState)
| Running (st : LoopState).

Definition tool_content (toolCall : ToolCall) : string :=
  "[调用工具: " ++ FunctionName toolCall ++ "]".

(** The increments of a stream, one after the other. *)
Fixpoint text_of (chunks : list Message) : string :=
  match chunks with
  | [] => ""
  | message :: rest => Content message ++ text_of rest
  end.

Section Callbacks.

(** [streamCallback(content, isToolCall)]: the error it returns, if any. *)
Variable streamCallback : string -> bool -> option error.

(** [for _, toolCall := range message.ToolCalls { ... }] *)
Fixpoint emit_tool_calls (toolCalls : list ToolCall) (st : LoopState)
  : LoopState + error * LoopState :=
  match toolCalls with
  | [] => inl st
  | toolCall :: rest =>
      let toolContent := tool_content toolCall in
      let st' := {| reader := reader st; fullContent := fullContent st;
                    emitted := (emitted st ++ [(toolContent, true)])%list |} in
      match streamCallback toolContent true with
      | Some err => inr (err, st')
      | None =>
          emit_tool_calls rest
            {| reader := reader st';
               fullContent := fullContent st' ++ toolContent;
               emitted := emitted st' |}
      end
  end.

(** The streaming loop; [controls] holds what [controlCallback()]
    answers, [(isPaused, isStopped)], one entry per turn of the loop. *)
Fixpoint stream_loop (controls : list (bool * bool)) (st : LoopState)
  : LoopResult :=
  match controls with
  | [] => Running st
  | (isPaused, isStopped) :: controls' =>
      if isStopped then Break st
      else if negb isPaused then
        match Recv (reader st) with
        | (inr _, reader') =>
            Break {| reader := reader'; fullContent := fullContent st;
                     emitted := emitted st |}
        | (inl message, reader') =>
            let st' := {| reader := reader'; fullContent := fullContent st;
                          emitted := emitted st |} in
            if (0 <? length (ToolCalls message))%nat then
              match emit_tool_calls (ToolCalls message) st' with
              | inr (err, st'') => Return err st''
              | inl st'' => stream_loop controls' st''
              end
            else
              let st'' := {| reader := reader'; fullContent := fullContent st;
                             emitted :=
                               (emitted st ++ [(Content message, false)])%list |} in
              match streamCallback (Content message) false with
              | Some err => Return err st''
              | None =>
                  stream_loop controls'
                    {| reader := reader'; 
                       fullContent := fullContent st ++ Content message;
                       emitted := emitted st'' |}
              end
        end
      else stream_loop controls' st
  end.

End Callbacks.

Section Collaborators.

(** The collaborators of the service: the cache, the history filter with
    the service's embedder, the prompt template (its variables are the
    question and the rendered history; role and style are constants) and
    the agent. *)
Variable LoadChatHistory : string -> list Message + error.
Variable SaveChatHistory : string -> list Message -> option error.
Variable FilterRelevantHistory : list Message -> string -> nat -> list Message.
Variable Format : string -> string -> list Message + error.
Variable agentStream : list Message -> StreamReader + error.

Definition load (userID : string) : list Message * list string :=
  match LoadChatHistory userID with
  | inl chatHistory => (chatHistory, [])
  | inr _ => ([], ["加载对话历史失败，将使用空历史"])
  end.

Definition save (userID : string) (chatHistory : list Message)
  : list string :=
  match SaveChatHistory userID chatHistory with
  | Some _ => ["保存对话历史失败"]
  | None => []
  end.

Definition ProcessUserInput (userInput userID : string) : Outcome :=
  let '(chatHistory, log_load) := load userID in
  let filteredHistory := FilterRelevantHistory chatHistory userInput 50 in
  let chatHistoryStr := render filteredHistory in
  match Format userInput chatHistoryStr with
  | inr err =>
      {| returned := ("", Some err);
         logged := (log_load ++ ["format template failed"])%list;
         saved := None; reader_after := None |}
  | inl messages =>
      match agentStream messages with
      | inr err =>
          {| returned := ("", Some err);
             logged := (log_load ++ ["生成回复失败"])%list;
             saved := None; reader_after := None |}
      | inl streamReader =>
          let '(resultContent, streamReader') :=
            collect (S (length (pending streamReader))) streamReader "" in
          let chatHistory' :=
            (chatHistory ++ [UserMessage userInput;
                             AssistantMessage resultContent])%list in
          {| returned := (resultContent, None);
             logged := (log_load ++ save userID chatHistory')%list;
             saved := Some chatHistory';
             reader_after := Some (Close streamReader') |}
      end
  end.

(** [None] while the streaming loop is still turning. *)
Definition ProcessUserInputStream
    (streamCallback : string -> bool -> option error)
    (controls : list (bool * bool))
    (userInput userID : string) : option Outcome :=
  let '(chatHistory, log_load) := load userID in
  let filteredHistory := FilterRelevantHistory chatHistory userInput 50 in
  let chatHistoryStr := render filteredHistory in
  match Format userInput chatHistoryStr with
  | inr err =>
      Some {| returned := ("", Some err);
              logged := (log_load ++ ["format template failed"])%list;
              saved := None; reader_after := None |}
  | inl messages =>
      let log_stream :=
        (log_load ++ ["===agent stream generate==="])%list in
      match agentStream messages with
      | inr err =>
          Some {| returned := ("", Some err);
                  logged := (log_stream ++ ["生成回复失败"])%list;
                  saved := None; reader_after := None |}
      | inl streamReader =>
          match stream_loop streamCallback controls
                  {| reader := streamReader; fullContent := "";
                     emitted := [] |} with
          | Running _ => None
          | Return err st =>
              Some {| returned := ("", Some err);
                      logged := log_stream;
                      saved := None;
                      reader_after := Some (Close (reader st)) |}
          | Break st =>
              let resultContent := fullContent st in
              let chatHistory' :=
                (chatHistory ++ [UserMessage userInput;
                                 AssistantMessage resultContent])%list in
              Some {| returned := (resultContent, None);
                      logged := (log_stream ++ save userID chatHistory')%list;
                      saved := Some chatHistory';
                      reader_after := Some (Close (reader st)) |}
          end
      end
  end.

End Collaborators.

(** ** The collecting loop of [ProcessUserInput] *)

Lemma string_app_assoc (a b c : string) : (a ++ b) ++ c = a ++ (b ++ c).
Proof.
  induction a as [|x a IH]; [reflexivity|].
  change (String x ((a ++ b) ++ c) = String x (a ++ (b ++ c))).
  f_equal. exact IH.
Qed.

Lemma string_app_nil_r (a : string) : a ++ "" = a.
Proof.
  induction a as [|x a IH]; [reflexivity|].
  change (String x (a ++ "") = String x a). f_equal. exact IH.
Qed.

Lemma collect_step turns streamReader content :
  collect (S turns) streamReader content
  = match Recv streamReader with
    | (inr _, streamReader') => (content, streamReader')
    | (inl message, streamReader') =>
        collect turns streamReader' (content ++ Content message)
    end.
Proof. reflexivity. Qed.

Lemma collect_spec chunks : forall final recvs closes content,
  collect (S (length chunks))
    {| pending := chunks; final := final;
       recv_calls := recvs; close_calls := closes |} content
  = (content ++ text_of chunks,
     {| pending := []; final := final;
        recv_calls := recvs + S (length chunks); close_calls := closes |}).
Proof.
  induction chunks as [|m chunks IH]; intros final recvs closes content.
  - cbn [length collect Recv pending Reader.final recv_calls close_calls
         text_of].
    rewrite string_app_nil_r. f_equal. f_equal. lia.
  - cbn [length]. rewrite collect_step.
    cbn [Recv pending Reader.final recv_calls close_calls].
    rewrite IH. cbn [text_of]. rewrite string_app_assoc.
    f_equal. f_equal. lia.
Qed.

Lemma collect_all streamReader :
  collect (S (length (pending streamReader))) streamReader ""
  = (text_of (pending streamReader),
     {| pending := []; final := final streamReader;
        recv_calls := recv_calls streamReader
                      + S (length (pending streamReader));
        close_calls := close_calls streamReader |}).
Proof. destruct streamReader. apply collect_spec. Qed.

(** C8.  Once the template has been formatted and the agent has handed
    out a stream, [ProcessUserInput] returns the text accumulated from
    the stream with a nil error; when saving the updated history fails,
    the failure is logged and the returned pair is the same as with any
    other behaviour of the cache's save. *)
Theorem ProcessUserInput_save_failure_not_fatal
    (LoadChatHistory : string -> list Message + error)
    (SaveChatHistory : string -> list Message -> option error)
    (FilterRelevantHistory : list Message -> string -> nat -> list Message)
    (Format : string -> string -> list Message + error)
    (agentStream : list Message -> StreamReader + error)
    (userInput userID : string)
    (messages : list Message) (streamReader : StreamReader) (err : error) :
  let chatHistory := fst (load LoadChatHistory userID) in
  let resultContent := text_of (pending streamReader) in
  Format userInput
    (render (FilterRelevantHistory chatHistory userInput 50%nat))
  = inl messages ->
  agentStream messages = inl streamReader ->
  SaveChatHistory userID
    (chatHistory ++ [UserMessage userInput;
                     AssistantMessage resultContent])%list = Some err ->
  let out := ProcessUserInput LoadChatHistory SaveChatHistory
               FilterRelevantHistory Format agentStream userInput userID in
  returned out = (resultContent, None) /\
  In "保存对话历史失败" (logged out) /\
  forall SaveChatHistory',
    returned (ProcessUserInput LoadChatHistory SaveChatHistory'
                FilterRelevantHistory Format agentStream userInput userID)
    = returned out.
Proof.
  intros chatHistory resultContent HFormat HStream HSave out.
  subst out chatHistory resultContent.
  unfold ProcessUserInput.
  destruct (load LoadChatHistory userID) as [chatHistory log_load].
  cbn [fst] in *. rewrite HFormat, HStream, collect_all.
  cbn [returned logged]. repeat split.
  - apply in_or_app. right. unfold save. rewrite HSave. left. reflexivity.
Qed.

(** The hypotheses of the theorem, with a cache whose save always fails
    and a stream of the two increments "Hel" and "lo". *)
Lemma ProcessUserInput_save_failure_not_fatal_witness :
  let Load (_ : string) : list Message + error := inl [] in
  let Save (_ : string) (_ : list Message) := Some (Failure "cache down") in
  let Filter (h : list Message) (_ : string) (_ : nat) := h in
  let Format (q _ : string) : list Message + error := inl [UserMessage q] in
  let Stream (_ : list Message) : StreamReader + error :=
    inl (fresh [AssistantMessage "Hel"; AssistantMessage "lo"] EOF) in
  returned (ProcessUserInput Load Save Filter Format Stream "hi" "u1")
  = ("Hello", None).
Proof.
  intros Load Save Filter Format Stream.
  refine (proj1 (ProcessUserInput_save_failure_not_fatal
                   Load Save Filter Format Stream "hi" "u1"
                   [UserMessage "hi"]
                   (fresh [AssistantMessage "Hel"; AssistantMessage "lo"] EOF)
                   (Failure "cache down") _ _ _));
    reflexivity.
Defined.

(** ** The streaming loop of [ProcessUserInputStream] *)

Definition state_of (r : LoopResult) : LoopState :=
  match r with
  | Break st | Return _ st | Running st => st
  end.

Definition turning (r : LoopResult) : Prop :=
  match r with
  | Running _ => True
  | _ => False
  end.

Section Loop.

Variable streamCallback : string -> bool -> option error.

Lemma emit_tool_calls_reader toolCalls : forall st,
  reader (match emit_tool_calls streamCallback toolCalls st with
          | inl st' => st'
          | inr (_, st') => st'
          end) = reader st.
Proof.
  induction toolCalls as [|toolCall rest IH]; intros st;
    cbn [emit_tool_calls]; [reflexivity|].
  destruct (streamCallback (tool_content toolCall) true); [reflexivity|].
  rewrite IH. reflexivity.
Qed.

(** The loop never closes the reader itself. *)
Lemma stream_loop_close_calls controls : forall st,
  close_calls (reader (state_of (stream_loop streamCallback controls st)))
  = close_calls (reader st).
Proof.
  induction controls as [|[isPaused isStopped] controls IH]; intros st;
    cbn [stream_loop]; [reflexivity|].
  destruct isStopped; [reflexivity|].
  destruct isPaused; cbn [negb]; [apply IH|].
  unfold Recv. destruct (pending (reader st)) as [|message rest];
    [reflexivity|].
  destruct (0 <? length (ToolCalls message))%nat.
  - pose proof (emit_tool_calls_reader (ToolCalls message)
        {| reader := {| pending := rest; final := final (reader st);
                        recv_calls := S (recv_calls (reader st));
                        close_calls := close_calls (reader st) |};
           fullContent := fullContent st; emitted := emitted st |}) as Hr.
    destruct (emit_tool_calls _ _ _) as [st'' | [err st'']];
      cbn [reader] in Hr.
    + rewrite IH, Hr. reflexivity.
    + cbn [state_of]. rewrite Hr. reflexivity.
  - destruct (streamCallback (Content message) false); [reflexivity|].
    rewrite IH. reflexivity.
Qed.

(** A paused poll changes nothing and asks for nothing. *)
Lemma stream_loop_paused n : forall controls st,
  stream_loop streamCallback (replicate n (true, false) ++ controls) st
  = stream_loop streamCallback controls st.
Proof.
  induction n as [|n IH]; intros controls st; [reflexivity|].
  cbn [replicate app stream_loop negb]. apply IH.
Qed.

(** A stop among the polls ends the loop. *)
Lemma stream_loop_stops controls : forall st,
  (exists isPaused, In (isPaused, true) controls) ->
  ~ turning (stream_loop streamCallback controls st).
Proof.
  induction controls as [|[isPaused isStopped] controls IH];
    intros st [p Hin]; [destruct Hin|].
  cbn [stream_loop].
  destruct isStopped; [cbn; tauto|].
  destruct Hin as [Heq | Hin]; [discriminate|].
  assert (Hrest : exists isPaused, In (isPaused, true) controls) by eauto.
  destruct isPaused; cbn [negb]; [apply IH, Hrest|].
  destruct (Recv (reader st)) as [[message | err] reader']; [|cbn; tauto].
  destruct (0 <? length (ToolCalls message))%nat.
  - destruct (emit_tool_calls _ _ _) as [st'' | [err st'']];
      [apply IH, Hrest | cbn; tauto].
  - destruct (streamCallback (Content message) false);
      [cbn; tauto | apply IH, Hrest].
Qed.

(** Without pause or stop, the end of the stream (or a failure of
    [Recv]) ends the loop after one poll per increment and one more. *)
Lemma stream_loop_drains chunks : forall final recvs closes content out,
  ~ turning
      (stream_loop streamCallback
         (replicate (S (length chunks)) (false, false))
         {| reader := {| pending := chunks; final := final;
                         recv_calls := recvs; close_calls := closes |};
            fullContent := content; emitted := out |}).
Proof.
  induction chunks as [|message chunks IH];
    intros final recvs closes content out.
  - cbn. tauto.
  - cbn [length replicate]. 
    change (replicate (S (length chunks)) (false, false))
      with ((false, false) :: replicate (length chunks) (false, false)).
    cbn [stream_loop negb Recv reader pending Reader.final
         recv_calls close_calls fullContent emitted].
    change ((false, false) :: replicate (length chunks) (false, false))
      with (replicate (S (length chunks)) (false, false)).
    destruct (0 <? length (ToolCalls message))%nat.
    + pose proof (emit_tool_calls_reader (ToolCalls message)
        {| reader := {| pending := chunks; final := final;
                        recv_calls := S recvs; close_calls := closes |};
           fullContent := content; emitted := out |}) as Hr.
      destruct (emit_tool_calls _ _ _) as [[r c o] | [err st'']];
        [|cbn; tauto].
      cbn [reader] in Hr. subst r. apply IH.
    + destruct (streamCallback (Content message) false);
        [cbn; tauto | apply IH].
Qed.

End Loop.

(** X20.  In [ProcessUserInputStream] the reader the agent handed out is
    closed exactly once whenever the call returns: after a stop, after
    the end of the stream, after a failed [Recv] and after a failed
    callback alike. *)
Lemma ProcessUserInputStream_closes_once
    LoadChatHistory SaveChatHistory FilterRelevantHistory Format agentStream
    streamCallback controls userInput userID messages streamReader out :
  Format userInput
    (render (FilterRelevantHistory (fst (load LoadChatHistory userID))
               userInput 50%nat)) = inl messages ->
  agentStream messages = inl streamReader ->
  ProcessUserInputStream LoadChatHistory SaveChatHistory
    FilterRelevantHistory Format agentStream streamCallback controls
    userInput userID = Some out ->
  exists r,
    reader_after out = Some r /\
    close_calls r = S (close_calls streamReader).
Proof.
  intros HFormat HStream. unfold ProcessUserInputStream.
  destruct (load LoadChatHistory userID) as [chatHistory log_load].
  cbn [fst] in HFormat. rewrite HFormat, HStream.
  pose proof (stream_loop_close_calls streamCallback controls
                {| reader := streamReader; fullContent := "";
                   emitted := [] |}) as Hclose.
  destruct (stream_loop _ _ _) as [st | err st | st]; intros Hout;
    [| |discriminate]; injection Hout as <-; cbn [reader_after];
    eexists; (split; [reflexivity|]); cbn [Close close_calls];
    cbn [state_of reader] in Hclose; rewrite Hclose; reflexivity.
Qed.

(** X21.  [ProcessUserInputStream] returns once [controlCallback] answers
    stop at some poll, whatever the earlier polls, the stream and the
    callback do: the loop cannot outlast a stop. *)
Lemma ProcessUserInputStream_returns_after_stop
    LoadChatHistory SaveChatHistory FilterRelevantHistory Format agentStream
    streamCallback controls userInput userID :
  (exists isPaused, In (isPaused, true) controls) ->
  exists out,
    ProcessUserInputStream LoadChatHistory SaveChatHistory
      FilterRelevantHistory Format agentStream streamCallback controls
      userInput userID = Some out.
Proof.
  intros Hstop. unfold ProcessUserInputStream.
  destruct (load LoadChatHistory userID) as [chatHistory log_load].
  destruct (Format _ _) as [messages | err]; [|eauto].
  destruct (agentStream messages) as [streamReader | err]; [|eauto].
  pose proof (stream_loop_stops streamCallback controls
                {| reader := streamReader; fullContent := "";
                   emitted := [] |} Hstop) as Hends.
  destruct (stream_loop _ _ _) as [st | err st | st]; [eauto | eauto|].
  destruct Hends. exact I.
Qed.

(** ** What a streamed turn accumulates *)

(** The contents shown to [streamCallback], one after the other. *)
Fixpoint shown_text (emitted : list (string * bool)) : string :=
  match emitted with
  | [] => ""
  | (content, _) :: rest => content ++ shown_text rest
  end.

Definition go : bool * bool := (false, false).

(** An increment without tool calls whose content the callback takes. *)
Definition accepted (streamCallback : string -> bool -> option error)
    (message : Message) : Prop :=
  ToolCalls message = [] /\ streamCallback (Content message) false = None.

Definition mark (message : Message) : string * bool :=
  (Content message, false).

Lemma shown_text_app e1 e2 :
  shown_text (e1 ++ e2)%list = shown_text e1 ++ shown_text e2.
Proof.
  induction e1 as [|[c f] e1 IH]; [reflexivity|].
  cbn [app shown_text]. rewrite IH, string_app_assoc. reflexivity.
Qed.

Lemma text_of_app c1 c2 :
  text_of (c1 ++ c2)%list = text_of c1 ++ text_of c2.
Proof.
  induction c1 as [|m c1 IH]; [reflexivity|].
  cbn [app text_of]. rewrite IH, string_app_assoc. reflexivity.
Qed.

Lemma stream_loop_step_accepted streamCallback message rest final
    recvs closes content out controls :
  accepted streamCallback message ->
  stream_loop streamCallback (go :: controls)
    {| reader := {| pending := message :: rest; final := final;
                    recv_calls := recvs; close_calls := closes |};
       fullContent := content; emitted := out |}
  = stream_loop streamCallback controls
      {| reader := {| pending := rest; final := final;
                      recv_calls := S recvs; close_calls := closes |};
         fullContent := content ++ Content message;
         emitted := (out ++ [mark message])%list |}.
Proof.
  intros [Htools Hcb]. unfold go.
  cbn [stream_loop negb Recv reader pending Reader.final recv_calls
       close_calls fullContent emitted].
  rewrite Htools. cbn [length Nat.ltb Nat.leb]. rewrite Hcb. reflexivity.
Qed.

(** The number of polls that found the loop neither paused nor stopped,
    and the absence of a stop. *)
Definition received (controls : list (bool * bool)) : nat :=
  length (List.filter (fun c => negb (fst c)) controls).

Definition no_stop (controls : list (bool * bool)) : Prop :=
  Forall (fun c => snd c = false) controls.

(** Polls without a stop take one increment for each poll that is not
    paused. *)
Lemma stream_loop_takes streamCallback polls :
  forall chunks final recvs closes content out controls,
    no_stop polls ->
    (received polls <= length chunks)%nat ->
    Forall (accepted streamCallback) (take (received polls) chunks) ->
    stream_loop streamCallback (polls ++ controls)%list
      {| reader := {| pending := chunks; final := final;
                      recv_calls := recvs; close_calls := closes |};
         fullContent := content; emitted := out |}
    = stream_loop streamCallback controls
        {| reader := {| pending := drop (received polls) chunks;
                        final := final;
                        recv_calls := recvs + received polls;
                        close_calls := closes |};
           fullContent := content ++ text_of (take (received polls) chunks);
           emitted := (out ++ map mark (take (received polls) chunks))%list |}.
Proof.
  unfold no_stop.
  induction polls as [|[isPaused isStopped] polls IH];
    intros chunks final recvs closes content out controls Hno Hk Hacc.
  - cbn [received List.filter length app take drop text_of map].
    rewrite string_app_nil_r, app_nil_r, Nat.add_0_r. reflexivity.
  - apply Forall_cons_1 in Hno as [Hs Hno]. cbn [snd] in Hs. subst isStopped.
    destruct isPaused.
    + change (received ((true, false) :: polls)) with (received polls) in *.
      cbn [app stream_loop negb]. apply IH; assumption.
    + change (received ((false, false) :: polls))
        with (S (received polls)) in *.
      destruct chunks as [|message chunks]; [cbn in Hk; lia|].
      cbn [take] in Hacc. apply Forall_cons_1 in Hacc as [Hm Hacc].
      change (((false, false) :: polls) ++ controls)%list
        with (go :: (polls ++ controls))%list.
      rewrite stream_loop_step_accepted by exact Hm.
      rewrite IH by (cbn [length] in Hk; try lia; assumption).
      cbn [take drop text_of map].
      rewrite string_app_assoc, <- app_assoc.
      replace (S recvs + received polls)%nat
        with (recvs + S (received polls))%nat by lia.
      reflexivity.
Qed.

Lemma received_go n : received (replicate n go) = n.
Proof.
  induction n as [|n IH]; [reflexivity|].
  change (received (replicate (S n) go)) with (S (received (replicate n go))).
  rewrite IH. reflexivity.
Qed.

Lemma no_stop_go n : no_stop (replicate n go).
Proof. induction n; constructor; [reflexivity | assumption]. Qed.

(** The text the loop holds is the text it has shown. *)
Definition shown_all (st : LoopState) : Prop :=
  fullContent st = shown_text (emitted st).

Definition refused (streamCallback : string -> bool -> option error)
    (err : error) (st : LoopState) : Prop :=
  exists shown content isToolCall,
    emitted st = (shown ++ [(content, isToolCall)])%list /\
    fullContent st = shown_text shown /\
    streamCallback content isToolCall = Some err.

Lemma emit_tool_calls_shown streamCallback toolCalls : forall st,
  shown_all st ->
  match emit_tool_calls streamCallback toolCalls st with
  | inl st' => shown_all st'
  | inr (err, st') => refused streamCallback err st'
  end.
Proof.
  unfold shown_all.
  induction toolCalls as [|toolCall rest IH]; intros st Hst;
    cbn [emit_tool_calls]; [exact Hst|].
  destruct (streamCallback (tool_content toolCall) true) as [err|] eqn:Hcb.
  - exists (emitted st), (tool_content toolCall), true.
    cbn [emitted fullContent]. auto.
  - apply IH. cbn [fullContent emitted].
    rewrite shown_text_app, Hst. cbn [shown_text].
    rewrite string_app_nil_r. reflexivity.
Qed.

Lemma stream_loop_shown streamCallback controls : forall st,
  shown_all st ->
  match stream_loop streamCallback controls st with
  | Break st' | Running st' => shown_all st'
  | Return err st' => refused streamCallback err st'
  end.
Proof.
  induction controls as [|[isPaused isStopped] controls IH]; intros st Hst;
    cbn [stream_loop]; [exact Hst|].
  destruct isStopped; [exact Hst|].
  destruct isPaused; cbn [negb]; [apply IH, Hst|].
  unfold Recv. destruct (pending (reader st)) as [|message rest];
    [exact Hst|].
  destruct (0 <? length (ToolCalls message))%nat.
  - pose proof (emit_tool_calls_shown streamCallback (ToolCalls message)
        {| reader := {| pending := rest; final := final (reader st);
                        recv_calls := S (recv_calls (reader st));
                        close_calls := close_calls (reader st) |};
           fullContent := fullContent st; emitted := emitted st |} Hst)
      as Hemit.
    destruct (emit_tool_calls _ _ _) as [st'' | [err st'']];
      [apply IH, Hemit | exact Hemit].
  - destruct (streamCallback (Content message) false) as [err|] eqn:Hcb.
    + exists (emitted st), (Content message), false.
      cbn [emitted fullContent]. auto.
    + apply IH. unfold shown_all in *. cbn [fullContent emitted].
      rewrite shown_text_app, Hst. cbn [shown_text].
      rewrite string_app_nil_r. reflexivity.
Qed.

(** X10.  Whatever the polls answer and whatever the stream delivers,
    tool calls included: while the streaming loop turns and when it
    leaves by [break], the accumulated text is exactly the concatenation
    of the contents [streamCallback] was shown; when it leaves because
    the callback refused a content, the text is what was shown before
    that content. *)
Theorem stream_loop_accumulates_what_it_shows
    (streamCallback : string -> bool -> option error)
    (controls : list (bool * bool)) (streamReader : StreamReader) :
  match stream_loop streamCallback controls
          {| reader := streamReader; fullContent := ""; emitted := [] |} with
  | Break st | Running st => fullContent st = shown_text (emitted st)
  | Return err st =>
      exists shown content isToolCall,
        emitted st = (shown ++ [(content, isToolCall)])%list /\
        fullContent st = shown_text shown /\
        streamCallback content isToolCall = Some err
  end.
Proof.
  apply (stream_loop_shown streamCallback controls
           {| reader := streamReader; fullContent := ""; emitted := [] |}).
  reflexivity.
Qed.

Section Turn.

Variable LoadChatHistory : string -> list Message + error.
Variable SaveChatHistory : string -> list Message -> option error.
Variable FilterRelevantHistory : list Message -> string -> nat -> list Message.
Variable Format : string -> string -> list Message + error.
Variable agentStream : list Message -> StreamReader + error.
Variable userInput userID : string.

Local Abbreviation chatHistory := (fst (load LoadChatHistory userID)).
Local Abbreviation prompt :=
  (Format userInput
     (render (FilterRelevantHistory chatHistory userInput 50%nat))).
Local Abbreviation answer :=
  (ProcessUserInput LoadChatHistory SaveChatHistory FilterRelevantHistory
     Format agentStream userInput userID).
Local Abbreviation streamed :=
  (fun streamCallback controls =>
     ProcessUserInputStream LoadChatHistory SaveChatHistory
       FilterRelevantHistory Format agentStream streamCallback controls
       userInput userID).

(** The history a turn with the text [text] hands to the cache. *)
Definition turn_history (text : string) : list Message :=
  (chatHistory ++ [UserMessage userInput; AssistantMessage text])%list.

(** X11.  When the prompt is formatted and the agent hands out a stream,
    [ProcessUserInput] saves the loaded history followed by the user's
    message and the assistant's message with the returned text, in this
    order; if loading the history failed, these two messages are all it
    saves.  It reads the stream to its end, with one [Recv] per
    increment and one more, and closes it once. *)
Theorem ProcessUserInput_saves_turn
    (messages : list Message) (streamReader : StreamReader) :
  prompt = inl messages ->
  agentStream messages = inl streamReader ->
  saved answer = Some (turn_history (fst (returned answer))) /\
  (forall err,
      LoadChatHistory userID = inr err ->
      saved answer
      = Some [UserMessage userInput;
              AssistantMessage (text_of (pending streamReader))]) /\
  reader_after answer
  = Some {| pending := []; final := final streamReader;
            recv_calls := recv_calls streamReader
                          + S (length (pending streamReader));
            close_calls := S (close_calls streamReader) |}.
Proof.
  intros HFormat HStream. unfold turn_history, ProcessUserInput, load in *.
  destruct (LoadChatHistory userID) as [history | loadErr];
    cbn [fst] in *; rewrite HFormat, HStream, collect_all;
    cbn [returned saved reader_after fst Close pending Reader.final
         recv_calls close_calls];
    (split; [reflexivity|]); (split; [|reflexivity]); intros err Herr;
    [discriminate | reflexivity].
Qed.

(** X12.  When formatting the prompt fails, or the agent fails to hand
    out a stream, both [ProcessUserInput] and [ProcessUserInputStream]
    return the empty text with that error, save nothing and leave no
    stream behind, whatever the callback and the polls are. *)
Theorem generation_failure_aborts (err : error) :
  prompt = inr err \/
  (exists messages, prompt = inl messages /\ agentStream messages = inr err) ->
  let aborted out :=
    returned out = ("", Some err) /\ saved out = None /\
    reader_after out = None in
  aborted answer /\
  forall streamCallback controls,
    exists out, streamed streamCallback controls = Some out /\ aborted out.
Proof.
  intros Hfail aborted. subst aborted.
  unfold ProcessUserInput, ProcessUserInputStream.
  destruct (load LoadChatHistory userID) as [history log_load].
  cbn [fst] in Hfail.
  destruct Hfail as [HFormat | (messages & HFormat & HStream)];
    rewrite HFormat; [|rewrite HStream];
    (split; [repeat split | intros cb controls; eexists; repeat split]).
Qed.

Lemma stream_loop_to_the_end streamCallback chunks final recvs closes
    controls :
  Forall (accepted streamCallback) chunks ->
  stream_loop streamCallback
    (replicate (S (length chunks)) go ++ controls)%list
    {| reader := {| pending := chunks; final := final;
                    recv_calls := recvs; close_calls := closes |};
       fullContent := ""; emitted := [] |}
  = Break {| reader := {| pending := []; final := final;
                          recv_calls := recvs + S (length chunks);
                          close_calls := closes |};
             fullContent := text_of chunks;
             emitted := map mark chunks |}.
Proof.
  intros Hacc.
  replace (replicate (S (length chunks)) go ++ controls)%list
    with (replicate (length chunks) go ++ go :: controls)%list.
  2:{ change (go :: controls) with ([go] ++ controls)%list.
      rewrite app_assoc. f_equal.
      change [go] with (replicate 1 go).
      rewrite <- replicate_add. f_equal. lia. }
  rewrite stream_loop_takes;
    rewrite ?received_go, ?take_ge by lia;
    [|apply no_stop_go | lia | exact Hacc].
  rewrite drop_ge by lia. unfold go.
  cbn [stream_loop negb Recv reader pending Reader.final recv_calls
       close_calls fullContent emitted app].
  do 2 f_equal. f_equal. lia.
Qed.

(** X13.  For a stream whose increments carry no tool calls and a
    callback that takes them all, [ProcessUserInputStream] with no pause
    and no stop until the stream has ended returns what
    [ProcessUserInput] returns, saves the same history and leaves the
    reader after the same calls.  Its log is the log of
    [ProcessUserInput] with one more line, "===agent stream
    generate===", between the lines of loading and those of saving. *)
Theorem streaming_agrees_with_collecting
    (messages : list Message) (streamReader : StreamReader)
    (streamCallback : string -> bool -> option error)
    (controls : list (bool * bool)) :
  prompt = inl messages ->
  agentStream messages = inl streamReader ->
  Forall (accepted streamCallback) (pending streamReader) ->
  exists out,
    streamed streamCallback
      (replicate (S (length (pending streamReader))) go ++ controls)%list
    = Some out /\
    returned out = returned answer /\
    saved out = saved answer /\
    reader_after out = reader_after answer /\
    exists log_save,
      logged answer
      = (snd (load LoadChatHistory userID) ++ log_save)%list /\
      logged out
      = (snd (load LoadChatHistory userID)
         ++ "===agent stream generate===" :: log_save)%list.
Proof.
  intros HFormat HStream Hacc.
  unfold ProcessUserInput, ProcessUserInputStream.
  destruct (load LoadChatHistory userID) as [history log_load].
  cbn [fst snd] in *. rewrite HFormat, HStream, collect_all.
  destruct streamReader as [chunks final recvs closes].
  cbn [pending Reader.final recv_calls close_calls] in *.
  rewrite stream_loop_to_the_end by exact Hacc.
  eexists. split; [reflexivity|].
  cbn [returned saved reader_after logged fullContent reader].
  repeat split.
  eexists. split; [reflexivity|].
  rewrite <- app_assoc. reflexivity.
Qed.

(** X14.  A stop keeps what has arrived.  If, before the first poll that
    reports a stop, [k] polls found the loop not paused, [k] being at
    most the number of increments and the first [k] increments being
    without tool calls and taken by the callback, then
    [ProcessUserInputStream] returns the text of exactly these [k]
    increments with a nil error, saves the turn with this text, and
    leaves the reader closed once after [k] calls of [Recv], the other
    increments unread. *)
Theorem stop_keeps_received_prefix
    (messages : list Message) (streamReader : StreamReader)
    (streamCallback : string -> bool -> option error)
    (polls : list (bool * bool)) (isPaused : bool)
    (controls : list (bool * bool)) :
  prompt = inl messages ->
  agentStream messages = inl streamReader ->
  no_stop polls ->
  (received polls <= length (pending streamReader))%nat ->
  Forall (accepted streamCallback)
    (take (received polls) (pending streamReader)) ->
  let text := text_of (take (received polls) (pending streamReader)) in
  exists out,
    streamed streamCallback (polls ++ (isPaused, true) :: controls)%list
    = Some out /\
    returned out = (text, None) /\
    saved out = Some (turn_history text) /\
    reader_after out
    = Some {| pending := drop (received polls) (pending streamReader);
              final := final streamReader;
              recv_calls := recv_calls streamReader + received polls;
              close_calls := S (close_calls streamReader) |}.
Proof.
  intros HFormat HStream Hno Hk Hacc text. subst text.
  unfold turn_history, ProcessUserInputStream.
  destruct (load LoadChatHistory userID) as [history log_load].
  cbn [fst] in *. rewrite HFormat, HStream.
  destruct streamReader as [chunks final recvs closes].
  cbn [pending Reader.final recv_calls close_calls] in *.
  rewrite stream_loop_takes by assumption.
  cbn [stream_loop]. eexists. split; [reflexivity|].
  cbn [returned saved reader_after fullContent reader Close pending
       Reader.final recv_calls close_calls].
  repeat split.
Qed.

(** X15.  A content the callback refuses costs the whole turn.  If the
    callback has taken [k] increments and refuses the next one, which
    carries no tool call, [ProcessUserInputStream] returns the empty
    text with the callback's error, not the text of the [k] increments,
    and saves nothing; the reader is closed once all the same. *)
Theorem refused_content_discards_turn
    (messages : list Message) (streamReader : StreamReader)
    (streamCallback : string -> bool -> option error)
    (polls controls : list (bool * bool))
    (message : Message) (err : error) :
  prompt = inl messages ->
  agentStream messages = inl streamReader ->
  no_stop polls ->
  Forall (accepted streamCallback)
    (take (received polls) (pending streamReader)) ->
  pending streamReader !! received polls = Some message ->
  ToolCalls message = [] ->
  streamCallback (Content message) false = Some err ->
  exists out reader',
    streamed streamCallback (polls ++ go :: controls)%list = Some out /\
    returned out = ("", Some err) /\
    saved out = None /\
    reader_after out = Some reader' /\
    close_calls reader' = S (close_calls streamReader).
Proof.
  intros HFormat HStream Hno Hacc Hnext Htools Hcb.
  unfold ProcessUserInputStream.
  destruct (load LoadChatHistory userID) as [history log_load].
  cbn [fst] in *. rewrite HFormat, HStream.
  destruct streamReader as [chunks final recvs closes].
  cbn [pending Reader.final recv_calls close_calls] in *.
  pose proof (lookup_lt_Some _ _ _ Hnext) as Hlt.
  rewrite stream_loop_takes by (try assumption; lia).
  rewrite (drop_S _ _ _ Hnext). unfold go.
  cbn [stream_loop negb Recv reader pending Reader.final recv_calls
       close_calls fullContent emitted].
  rewrite Htools. cbn [length Nat.ltb Nat.leb]. rewrite Hcb.
  eexists. eexists. repeat split.
Qed.

End Turn.

(** *** The theorems on a turn of three increments *)

Definition demo_load (_ : string) : list Message + error :=
  inl [UserMessage "earlier"].
Definition failing_load (_ : string) : list Message + error :=
  inr (Failure "cache down").
Definition demo_save (_ : string) (_ : list Message) : option error := None.
Definition demo_filter (h : list Message) (_ : string) (_ : nat) := h.
Definition demo_format (q _ : string) : list Message + error :=
  inl [UserMessage q].
Definition failing_format (_ _ : string) : list Message + error :=
  inr (Failure "template").
Definition demo_reader : StreamReader :=
  fresh [AssistantMessage "Hel"; AssistantMessage "lo";
         AssistantMessage " world"] EOF.
Definition demo_stream (_ : list Message) : StreamReader + error :=
  inl demo_reader.
Definition demo_callback (_ : string) (_ : bool) : option error := None.
Definition strict_callback (content : string) (_ : bool) : option error :=
  if decide (content = "lo") then Some (Failure "closed") else None.

Lemma ProcessUserInput_saves_turn_witness :
  let answer :=
    ProcessUserInput failing_load demo_save demo_filter demo_format
      demo_stream "hi" "u1" in
  saved answer
  = Some (turn_history failing_load "hi" "u1" (fst (returned answer))) /\
  (forall err,
      failing_load "u1" = inr err ->
      saved answer
      = Some [UserMessage "hi";
              AssistantMessage (text_of (pending demo_reader))]) /\
  reader_after answer
  = Some {| pending := []; final := final demo_reader;
            recv_calls := recv_calls demo_reader
                          + S (length (pending demo_reader));
            close_calls := S (close_calls demo_reader) |}.
Proof.
  exact (ProcessUserInput_saves_turn failing_load demo_save demo_filter
           demo_format demo_stream "hi" "u1" [UserMessage "hi"] demo_reader
           eq_refl eq_refl).
Defined.

Lemma generation_failure_aborts_witness :
  let aborted out :=
    returned out = ("", Some (Failure "template")) /\ saved out = None /\
    reader_after out = None in
  aborted (ProcessUserInput demo_load demo_save demo_filter failing_format
             demo_stream "hi" "u1") /\
  forall streamCallback controls,
    exists out,
      ProcessUserInputStream demo_load demo_save demo_filter failing_format
        demo_stream streamCallback controls "hi" "u1" = Some out /\
      aborted out.
Proof.
  exact (generation_failure_aborts demo_load demo_save demo_filter
           failing_format demo_stream "hi" "u1" (Failure "template")
           (or_introl eq_refl)).
Defined.

Lemma demo_accepted : Forall (accepted demo_callback) (pending demo_reader).
Proof. repeat constructor. Qed.

Lemma streaming_agrees_with_collecting_witness :
  let answer :=
    ProcessUserInput demo_load demo_save demo_filter demo_format
      demo_stream "hi" "u1" in
  exists out,
    ProcessUserInputStream demo_load demo_save demo_filter demo_format
      demo_stream demo_callback
      (replicate (S (length (pending demo_reader))) go ++ [(true, false)])%list
      "hi" "u1"
    = Some out /\
    returned out = returned answer /\
    saved out = saved answer /\
    reader_after out = reader_after answer /\
    exists log_save,
      logged answer = (snd (load demo_load "u1") ++ log_save)%list /\
      logged out
      = (snd (load demo_load "u1")
         ++ "===agent stream generate===" :: log_save)%list.
Proof.
  exact (streaming_agrees_with_collecting demo_load demo_save demo_filter
           demo_format demo_stream "hi" "u1" [UserMessage "hi"] demo_reader
           demo_callback [(true, false)] eq_refl eq_refl demo_accepted).
Defined.

Lemma stop_keeps_received_prefix_witness :
  exists out,
    ProcessUserInputStream demo_load demo_save demo_filter demo_format
      demo_stream demo_callback
      ([go; (true, false); go] ++ (true, true) :: [go])%list "hi" "u1"
    = Some out /\
    returned out = ("Hello", None) /\
    saved out = Some (turn_history demo_load "hi" "u1" "Hello") /\
    reader_after out
    = Some {| pending := [AssistantMessage " world"]; final := EOF;
              recv_calls := 2; close_calls := 1 |}.
Proof.
  refine (stop_keeps_received_prefix demo_load demo_save demo_filter
            demo_format demo_stream "hi" "u1" [UserMessage "hi"] demo_reader
            demo_callback [go; (true, false); go] true [go]
            eq_refl eq_refl _ _ _).
  - repeat constructor.
  - cbn. lia.
  - repeat constructor.
Defined.

Lemma refused_content_discards_turn_witness :
  exists out reader',
    ProcessUserInputStream demo_load demo_save demo_filter demo_format
      demo_stream strict_callback ([go] ++ go :: [go])%list "hi" "u1"
    = Some out /\
    returned out = ("", Some (Failure "closed")) /\
    saved out = None /\
    reader_after out = Some reader' /\
    close_calls reader' = S (close_calls demo_reader).
Proof.
  refine (refused_content_discards_turn demo_load demo_save demo_filter
            demo_format demo_stream "hi" "u1" [UserMessage "hi"] demo_reader
            strict_callback [go] [go] (AssistantMessage "lo")
            (Failure "closed") eq_refl eq_refl _ _ eq_refl eq_refl eq_refl).
  - repeat constructor.
  - repeat constructor.
Defined.

(** One increment received, then a stop. *)
Definition stopped_early : option Outcome :=
  ProcessUserInputStream demo_load demo_save demo_filter demo_format
    demo_stream demo_callback [go; (false, true)] "hi" "u1".

Lemma ProcessUserInputStream_closes_once_witness :
  exists out r,
    stopped_early = Some out /\
    reader_after out = Some r /\
    close_calls r = S (close_calls demo_reader).
Proof.
  destruct stopped_early as [out|] eqn:E.
  - exists out.
    destruct (ProcessUserInputStream_closes_once demo_load demo_save
                demo_filter demo_format demo_stream demo_callback
                [go; (false, true)] "hi" "u1" [UserMessage "hi"] demo_reader
                out eq_refl eq_refl E) as [r Hr].
    exists r. split; [reflexivity | exact Hr].
  - cbv in E. discriminate E.
Defined.

Lemma ProcessUserInputStream_returns_after_stop_witness :
  exists out,
    ProcessUserInputStream demo_load demo_save demo_filter demo_format
      demo_stream demo_callback [go; (true, false); (false, true); go]
      "hi" "u1" = Some out.
Proof.
  exact (ProcessUserInputStream_returns_after_stop demo_load demo_save
           demo_filter demo_format demo_stream demo_callback
           [go; (true, false); (false, true); go] "hi" "u1"
           (ex_intro _ false
              (or_intror (or_intror (or_introl eq_refl))))).
Defined.

End ChatService.

(** * services/aichat/cmd/main.go: the streaming turn of the command
      line *)
Module CLI.

Import Schema Reader.

Open Scope string_scope.

(** What one turn of the loop [for { select { ... } }] meets.  The
    command goroutine runs beside the loop; its effect on the loop is
    what the loop finds when it looks: a value waiting on [stopChan] at
    the outer [select]; otherwise the flag [isPaused], and, when the
    flag is set, which of [pauseChan] and [stopChan] the inner [select]
    receives from first. *)
Inductive Observation :=
| StopWaiting
| NotPaused
| PausedThenPauseChan
| PausedThenStopChan.

Record TurnState := mkTurn {
  streamReader : StreamReader;
  fullContent : string;
  printed : list string;
  logged : list string
}.

(** The loop has reached [endStream], or is still turning (the
    observations given to it are used up). *)
Inductive TurnResult :=
| EndStream (st : TurnState)
| Turning (st : TurnState).

Definition close_reader (st : TurnState) : TurnState :=
  {| streamReader := Close (streamReader st);
     fullContent := fullContent st;
     printed := printed st;
     logged := logged st |}.

(** The loop of lines 152-188.  In the branch of a failed [Recv] both
    [break] statements end the [select] they stand in, and the [for]
    goes round again. *)
Fixpoint stream_loop (observations : list Observation) (st : TurnState)
  : TurnResult :=
  match observations with
  | [] => Turning st
  | StopWaiting :: _ => EndStream (close_reader st)
  | PausedThenPauseChan :: rest => stream_loop rest st
  | PausedThenStopChan :: _ => EndStream (close_reader st)
  | NotPaused :: rest =>
      match Recv (streamReader st) with
      | (inr err, reader') =>
          stream_loop rest
            {| streamReader := reader';
               fullContent := fullContent st;
               printed := printed st;
               logged :=
                 match err with
                 | EOF => logged st
                 | Failure _ => (logged st ++ ["流式接收失败"])%list
                 end |}
      | (inl message, reader') =>
          stream_loop rest
            {| streamReader := reader';
               fullContent := fullContent st ++ Content message;
               printed := (printed st ++ [Content message])%list;
               logged := logged st |}
      end
  end.

Definition start (reader : StreamReader) : TurnState :=
  {| streamReader := reader; fullContent := ""; printed := [];
     logged := [] |}.

(** One turn of the conversation from the moment the stream is there,
    and then the return of [main]: the [defer streamReader.Close()] of
    line 106 belongs to [main], so it runs when [main] returns.  The
    result is the reader after that, with the text of the turn; [None]
    while the loop has not reached [endStream]. *)
Definition turn_then_exit (reader : StreamReader)
    (observations : list Observation) : option (string * StreamReader) :=
  match stream_loop observations (start reader) with
  | Turning _ => None
  | EndStream st => Some (fullContent st, Close (streamReader st))
  end.

(** ** While paused *)

Lemma turn_loop_paused n : forall observations st,
  stream_loop (replicate n PausedThenPauseChan ++ observations) st
  = stream_loop observations st.
Proof.
  induction n as [|n IH]; intros observations st; [reflexivity|].
  cbn [replicate app stream_loop]. apply IH.
Qed.

(** In both loops, the turns in which the loop finds itself paused
    call [Recv] not once and append nothing: after any number of them
    the loop is still turning with the reader (and its count of [Recv]
    calls) and the accumulated text as they were, and it goes on from
    exactly that state with whatever comes next, be it a resume (the
    next turn calls [Recv]) or a stop (the loop ends with the text
    unchanged).  This is about what the loop finds when it looks; what
    happens between its look and its [Recv] is the matter of
    [pause_holds_from_the_next_look] below. *)
Lemma paused_turns_change_nothing :
  (forall streamCallback n st,
      ChatService.stream_loop streamCallback (replicate n (true, false)) st
      = ChatService.Running st) /\
  (forall streamCallback n controls st,
      ChatService.stream_loop streamCallback
        (replicate n (true, false) ++ controls) st
      = ChatService.stream_loop streamCallback controls st) /\
  (forall streamCallback n isPaused controls st,
      ChatService.stream_loop streamCallback
        (replicate n (true, false) ++ (isPaused, true) :: controls) st
      = ChatService.Break st) /\
  (forall n st,
      stream_loop (replicate n PausedThenPauseChan) st = Turning st) /\
  (forall n observations st,
      stream_loop (replicate n PausedThenPauseChan ++ observations) st
      = stream_loop observations st) /\
  (forall n observations st,
      stream_loop
        (replicate n PausedThenPauseChan ++ PausedThenStopChan :: observations)
        st
      = EndStream (close_reader st)).
Proof.
  repeat split; intros.
  - rewrite <- (app_nil_r (replicate n (true, false))).
    apply ChatService.stream_loop_paused.
  - apply ChatService.stream_loop_paused.
  - rewrite ChatService.stream_loop_paused. reflexivity.
  - rewrite <- (app_nil_r (replicate n PausedThenPauseChan)).
    apply turn_loop_paused.
  - apply turn_loop_paused.
  - rewrite turn_loop_paused. reflexivity.
Qed.

(** ** Leaving the loop *)

Definition is_stop (o : Observation) : bool :=
  match o with
  | StopWaiting | PausedThenStopChan => true
  | _ => false
  end.

Definition state_of (r : TurnResult) : TurnState :=
  match r with
  | EndStream st | Turning st => st
  end.

(** Only a stop leads to [endStream]: the end of the stream and a failed
    [Recv] leave the loop turning. *)
Lemma stream_loop_turns_without_stop observations : forall st,
  forallb (fun o => negb (is_stop o)) observations = true ->
  exists st', stream_loop observations st = Turning st'.
Proof.
  induction observations as [|o observations IH]; intros st Hno;
    cbn [stream_loop]; [eauto|].
  cbn [forallb] in Hno. apply andb_true_iff in Hno as [Ho Hno].
  destruct o; try discriminate; [|apply IH, Hno].
  destruct (Recv (streamReader st)) as [[message | err] reader'];
    apply IH, Hno.
Qed.

(** When the loop reaches [endStream] it has closed the reader once
    itself. *)
Lemma turn_loop_close_calls observations : forall st st',
  stream_loop observations st = EndStream st' ->
  close_calls (streamReader st') = S (close_calls (streamReader st)).
Proof.
  induction observations as [|o observations IH]; intros st st' Hend;
    cbn [stream_loop] in Hend; [discriminate|].
  destruct o.
  - injection Hend as <-. reflexivity.
  - unfold Recv in Hend.
    destruct (pending (streamReader st)) as [|message rest];
      apply IH in Hend; exact Hend.
  - apply IH, Hend.
  - injection Hend as <-. reflexivity.
Qed.

(** Every turn of the command line that ends leaves the reader closed
    twice once [main] has returned. *)
Lemma turn_then_exit_closes_twice reader observations content reader' :
  turn_then_exit reader observations = Some (content, reader') ->
  close_calls reader' = S (S (close_calls reader)).
Proof.
  unfold turn_then_exit.
  destruct (stream_loop observations (start reader)) as [st | st] eqn:Hloop;
    [|discriminate].
  intros Hsome. injection Hsome as _ <-.
  apply turn_loop_close_calls in Hloop.
  cbn [Close close_calls]. rewrite Hloop. reflexivity.
Qed.

(** C2 on the command line.  A stream of "Hel", "lo", " world": with a
    stop found after the first increment, or a pause and then a stop,
    the turn ends with the text "Hel" and the reader is closed by the
    loop and again by the deferred call, twice in all; without a stop,
    the loop is still turning after any number of turns, the end of the
    stream does not end it. *)
Theorem main_closes_twice_or_never_ends :
  let reader :=
    fresh [AssistantMessage "Hel"; AssistantMessage "lo";
           AssistantMessage " world"] EOF in
  (exists reader',
      turn_then_exit reader [NotPaused; StopWaiting] = Some ("Hel", reader')
      /\ close_calls reader' = 2%nat) /\
  (exists reader',
      turn_then_exit reader
        [NotPaused; PausedThenPauseChan; PausedThenStopChan]
      = Some ("Hel", reader')
      /\ close_calls reader' = 2%nat) /\
  (forall n, turn_then_exit reader (replicate n NotPaused) = None).
Proof.
  intros reader. split; [|split].
  - eexists. split; reflexivity.
  - eexists. split; reflexivity.
  - intros n. unfold turn_then_exit.
    destruct (stream_loop_turns_without_stop (replicate n NotPaused)
                (start reader)) as [st' ->]; [|reflexivity].
    induction n as [|n IH]; [reflexivity | exact IH].
Qed.

(** The same stream through [ProcessUserInputStream]: on each way out
    the reader is closed once. *)
Example ProcessUserInputStream_exits :
  let Load (_ : string) : list Message + error := inl [] in
  let Save (_ : string) (_ : list Message) : option error := None in
  let Filter (h : list Message) (_ : string) (_ : nat) := h in
  let Format (q _ : string) : list Message + error := inl [UserMessage q] in
  let chunks :=
    [AssistantMessage "Hel"; AssistantMessage "lo";
     AssistantMessage " world"] in
  let run final controls :=
    match ChatService.ProcessUserInputStream Load Save Filter Format
            (fun _ => inl (fresh chunks final)) (fun _ _ => None) controls
            "hi" "u1" with
    | Some out =>
        Some (ChatService.returned out,
              option_map close_calls (ChatService.reader_after out))
    | None => None
    end in
  let go := (false, false) in
  let pause := (true, false) in
  let stop := (false, true) in
  run EOF [go; go; go; go] = Some (("Hello world", None), Some 1%nat) /\
  run EOF [go; stop] = Some (("Hel", None), Some 1%nat) /\
  run EOF [go; pause; pause; (true, true)]
  = Some (("Hel", None), Some 1%nat) /\
  run (Failure "reset") [go; go; go; go]
  = Some (("Hello world", None), Some 1%nat) /\
  run EOF [go; pause; pause] = None.
Proof. repeat split; reflexivity. Qed.

(** ** What a turn of the command line accumulates *)

(** The number of turns of the loop that call [Recv]: those that find
    the loop not paused, up to the first stop. *)
Fixpoint receiving (observations : list Observation) : nat :=
  match observations with
  | [] => 0
  | NotPaused :: rest => S (receiving rest)
  | PausedThenPauseChan :: rest => receiving rest
  | StopWaiting :: _ | PausedThenStopChan :: _ => 0
  end.

Lemma turn_loop_takes observations :
  forall chunks final recvs closes content shown logs,
    let st := state_of
                (stream_loop observations
                   {| streamReader :=
                        {| pending := chunks; final := final;
                           recv_calls := recvs; close_calls := closes |};
                      fullContent := content; printed := shown;
                      logged := logs |}) in
    fullContent st
    = content ++ ChatService.text_of (take (receiving observations) chunks)
    /\ printed st
       = (shown ++ map Content (take (receiving observations) chunks))%list
    /\ pending (streamReader st) = drop (receiving observations) chunks
    /\ recv_calls (streamReader st)
       = (recvs + receiving observations)%nat.
Proof.
  induction observations as [|o observations IH];
    intros chunks final recvs closes content shown logs.
  - cbn. rewrite ChatService.string_app_nil_r, app_nil_r, Nat.add_0_r.
    repeat split.
  - destruct o; cbv zeta; cbn [stream_loop receiving].
    + cbn. rewrite ChatService.string_app_nil_r, app_nil_r, Nat.add_0_r.
      repeat split.
    + unfold Recv.
      cbn [streamReader pending Reader.final recv_calls close_calls
           fullContent printed logged].
      destruct chunks as [|message chunks].
      * specialize (IH [] final (S recvs) closes content shown
                      (match final with
                       | EOF => logs
                       | Failure _ => (logs ++ ["流式接收失败"])%list
                       end)).
        cbv zeta in IH. destruct IH as (Hc & Hp & Hq & Hr).
        rewrite Hc, Hp, Hq, Hr, !take_nil, !drop_nil.
        repeat split. lia.
      * specialize (IH chunks final (S recvs) closes
                      (content ++ Content message)
                      (shown ++ [Content message])%list logs).
        cbv zeta in IH. destruct IH as (Hc & Hp & Hq & Hr).
        rewrite Hc, Hp, Hq, Hr.
        cbn [take drop map ChatService.text_of].
        rewrite ChatService.string_app_assoc, <- app_assoc.
        repeat split. lia.
    + apply IH.
    + cbn. rewrite ChatService.string_app_nil_r, app_nil_r, Nat.add_0_r.
      repeat split.
Qed.

(** X16.  At every moment of a turn of the command line, stopped or
    not: the accumulated text is the text of the first increments of
    the stream, as many as turns of the loop called [Recv] (all of them
    once the stream is exhausted); what has been printed is these
    increments one by one; the others are still unread; and every such
    turn cost one call of [Recv], also after the stream has ended. *)
Theorem turn_accumulates_received_prefix
    (reader : StreamReader) (observations : list Observation) :
  let st := state_of (stream_loop observations (start reader)) in
  let n := receiving observations in
  fullContent st = ChatService.text_of (take n (pending reader)) /\
  printed st = map Content (take n (pending reader)) /\
  pending (streamReader st) = drop n (pending reader) /\
  recv_calls (streamReader st) = (recv_calls reader + n)%nat.
Proof.
  destruct reader as [chunks final recvs closes]. unfold start.
  apply (turn_loop_takes observations chunks final recvs closes "" [] []).
Qed.

(** ** The loop beside the command goroutine *)

(** The flag [isPaused] is written by the command goroutine (lines
    129-139) and read by the loop (lines 159-161); nothing orders a write
    against the [Recv] of line 175.  Here both run as one sequence of
    atomic steps. *)

(** The commands the goroutine tells apart (lines 128-145). *)
Inductive Command := CmdPause | CmdContinue | CmdStop | CmdOther.

(** Where the command goroutine stands: scanning the next line; in the
    send on [pauseChan] (line 133 or 139), which waits for the loop's
    receive of line 166; in the send on [stopChan] (line 143), which
    waits for the receive of line 154 or 168; returned (line 144). *)
Inductive Commander := Scanning | SendingPause | SendingStop | Returned.

(** Where the loop stands: at the outer [select] (line 153); in the
    inner [select] (line 165), having read the flag as set; before
    [Recv] (line 175), having read it as not set; at [endStream]. *)
Inductive Place := OuterSelect | InnerSelect | BeforeRecv | EndOfStream.

Record Beside := mkBeside {
  isPaused : bool;
  commander : Commander;
  place : Place;
  turn : TurnState
}.

Inductive Action :=
| Typed (cmd : Command)
| TakeStop
| ReadPaused
| TakePause
| TakeStopPaused
| Receive.

(** One atomic step; [None] when the step cannot be taken where the two
    stand.  [Typed] is the goroutine from [cmdScanner.Scan()] to its
    send; the outer [select] takes its [default] only while no send on
    [stopChan] is waiting. *)
Definition step (a : Action) (s : Beside) : option Beside :=
  match a, commander s, place s with
  | Typed CmdPause, Scanning, _ =>
      Some (mkBeside true SendingPause (place s) (turn s))
  | Typed CmdContinue, Scanning, _ =>
      Some (mkBeside false SendingPause (place s) (turn s))
  | Typed CmdStop, Scanning, _ =>
      Some (mkBeside (isPaused s) SendingStop (place s) (turn s))
  | Typed CmdOther, Scanning, _ => Some s
  | TakeStop, SendingStop, OuterSelect =>
      Some (mkBeside (isPaused s) Returned EndOfStream
              (close_reader (turn s)))
  | ReadPaused, (Scanning | SendingPause | Returned), OuterSelect =>
      Some (mkBeside (isPaused s) (commander s)
              (if isPaused s then InnerSelect else BeforeRecv) (turn s))
  | TakePause, SendingPause, InnerSelect =>
      Some (mkBeside (isPaused s) Scanning OuterSelect (turn s))
  | TakeStopPaused, SendingStop, InnerSelect =>
      Some (mkBeside (isPaused s) Returned EndOfStream
              (close_reader (turn s)))
  | Receive, _, BeforeRecv =>
      Some (mkBeside (isPaused s) (commander s) OuterSelect
              (state_of (stream_loop [NotPaused] (turn s))))
  | _, _, _ => None
  end.

Fixpoint run (actions : list Action) (s : Beside) : option Beside :=
  match actions with
  | [] => Some s
  | a :: rest =>
      match step a s with
      | Some s' => run rest s'
      | None => None
      end
  end.

Definition no_resume (a : Action) : Prop := a <> Typed CmdContinue.

(** [ProcessUserInputStream] beside its caller.  [controlCallback]
    reports the caller's two flags (line 193); the caller may set them
    at any moment, also between the poll and the [Recv] of line 199. *)
Inductive Spot := AtPoll | ToReceive | LeftLoop.

Record Polled := mkPolled {
  callerPaused : bool;
  callerStopped : bool;
  spot : Spot;
  loop : ChatService.LoopState
}.

Inductive Event :=
| Caller (isPaused isStopped : bool)
| Poll
| RecvTurn.

(** [RecvTurn] is the rest of a turn that polled neither pause nor stop:
    lines 199-220. *)
Definition move (streamCallback : string -> bool -> option error)
    (e : Event) (p : Polled) : option Polled :=
  match e, spot p with
  | Caller isPaused isStopped, _ =>
      Some (mkPolled isPaused isStopped (spot p) (loop p))
  | Poll, AtPoll =>
      Some (mkPolled (callerPaused p) (callerStopped p)
              (if callerStopped p then LeftLoop
               else if callerPaused p then AtPoll else ToReceive)
              (loop p))
  | RecvTurn, ToReceive =>
      let r :=
        ChatService.stream_loop streamCallback [(false, false)] (loop p) in
      Some (mkPolled (callerPaused p) (callerStopped p)
              (match r with
               | ChatService.Running _ => AtPoll
               | _ => LeftLoop
               end)
              (ChatService.state_of r))
  | _, _ => None
  end.

Fixpoint moves (streamCallback : string -> bool -> option error)
    (events : list Event) (p : Polled) : option Polled :=
  match events with
  | [] => Some p
  | e :: rest =>
      match move streamCallback e p with
      | Some p' => moves streamCallback rest p'
      | None => None
      end
  end.

Definition stays_paused (e : Event) : Prop :=
  match e with
  | Caller isPaused _ => isPaused = true
  | _ => True
  end.

(** What a run under a set flag leaves of the turn, by where the loop
    stood when the run began. *)
Definition held_back (s : Beside) (t : TurnState) : Prop :=
  match place s with
  | EndOfStream => t = turn s
  | BeforeRecv =>
      let once := state_of (stream_loop [NotPaused] (turn s)) in
      t = turn s \/ t = once \/ t = close_reader once
  | OuterSelect | InnerSelect => t = turn s \/ t = close_reader (turn s)
  end.

Lemma run_under_pause actions : forall s s',
  isPaused s = true ->
  Forall no_resume actions ->
  run actions s = Some s' ->
  held_back s (turn s').
Proof.
  induction actions as [|a actions IH]; intros s s' Hp Hno Hrun.
  - injection Hrun as <-. unfold held_back.
    destruct (place s); auto.
  - apply Forall_cons in Hno as [Ha Hno]. cbn [run] in Hrun.
    destruct (step a s) as [s1|] eqn:Hstep; [|discriminate].
    assert (Hp1 : isPaused s1 = true /\ held_back s1 (turn s') ->
                  held_back s (turn s')).
    { intros [_ H1]. revert Hstep H1. unfold step, held_back.
      destruct s as [flag c pl t]. cbn [isPaused commander place turn] in *.
      subst flag.
      destruct a as [[ | | | ] | | | | | ], c, pl; intros Hstep;
        try discriminate; injection Hstep as <-;
        cbn [place turn isPaused]; intros H1;
        repeat (destruct H1 as [H1 | H1]); subst; auto. }
    apply Hp1. split.
    + revert Hstep. unfold step. destruct s as [flag c pl t].
      cbn [isPaused commander place turn] in *. subst flag.
      destruct a as [[ | | | ] | | | | | ], c, pl; intros Hstep;
        try discriminate; try (injection Hstep as <-; reflexivity).
      all: exfalso; apply Ha; reflexivity.
    + apply IH; [|exact Hno|exact Hrun].
      revert Hstep. unfold step. destruct s as [flag c pl t].
      cbn [isPaused commander place turn] in *. subst flag.
      destruct a as [[ | | | ] | | | | | ], c, pl; intros Hstep;
        try discriminate; try (injection Hstep as <-; reflexivity).
      all: exfalso; apply Ha; reflexivity.
Qed.

Definition polled_back (streamCallback : string -> bool -> option error)
    (p : Polled) (l : ChatService.LoopState) : Prop :=
  match spot p with
  | ToReceive =>
      l = loop p \/
      l = ChatService.state_of
            (ChatService.stream_loop streamCallback [(false, false)] (loop p))
  | AtPoll | LeftLoop => l = loop p
  end.

Lemma moves_under_pause streamCallback events : forall p p',
  callerPaused p = true ->
  Forall stays_paused events ->
  moves streamCallback events p = Some p' ->
  polled_back streamCallback p (loop p').
Proof.
  induction events as [|e events IH]; intros p p' Hp Hkeep Hrun.
  - injection Hrun as <-. unfold polled_back. destruct (spot p); auto.
  - apply Forall_cons in Hkeep as [He Hkeep]. cbn [moves] in Hrun.
    destruct (move streamCallback e p) as [p1|] eqn:Hmove; [|discriminate].
    specialize (IH p1 p').
    revert Hmove IH. unfold move, polled_back.
    destruct p as [flag halt sp l].
    cbn [callerPaused callerStopped spot loop] in *. subst flag.
    remember (ChatService.stream_loop streamCallback [(false, false)] l)
      as r eqn:Hr.
    destruct e as [isPaused isStopped | | ]; cbn [stays_paused] in He.
    + subst isPaused. intros Hmove. injection Hmove as <-.
      cbn [callerPaused spot loop]. rewrite <- Hr. intros IH.
      apply IH; [reflexivity | exact Hkeep | exact Hrun].
    + destruct sp; try discriminate. intros Hmove. injection Hmove as <-.
      cbn [callerPaused spot loop]. intros IH.
      specialize (IH eq_refl Hkeep Hrun). destruct halt; exact IH.
    + destruct sp; try discriminate. intros Hmove. injection Hmove as <-.
      cbn [callerPaused spot loop]. intros IH.
      specialize (IH eq_refl Hkeep Hrun). right.
      destruct r; exact IH.
Qed.

(** C5, as the code has it.  From the moment the pause flag is set and
    for as long as no resume arrives, in the command line and in
    [ProcessUserInputStream] alike: a loop that was not between its look
    at the flag and its [Recv] issues no [Recv] and appends nothing, the
    turn is as it was (on the command line a stop may have closed the
    reader); a loop that had already read the flag as not set at most
    completes that one turn, with its one [Recv] and what it appends,
    and nothing after it. *)
Theorem pause_holds_from_the_next_look
    (s s' : Beside) (actions : list Action)
    (streamCallback : string -> bool -> option error)
    (p p' : Polled) (events : list Event) :
  isPaused s = true ->
  Forall no_resume actions ->
  run actions s = Some s' ->
  callerPaused p = true ->
  Forall stays_paused events ->
  moves streamCallback events p = Some p' ->
  (place s <> BeforeRecv ->
   turn s' = turn s \/ turn s' = close_reader (turn s)) /\
  (place s = BeforeRecv ->
   let once := state_of (stream_loop [NotPaused] (turn s)) in
   turn s' = turn s \/ turn s' = once \/ turn s' = close_reader once) /\
  (spot p <> ToReceive -> loop p' = loop p) /\
  (spot p = ToReceive ->
   loop p' = loop p \/
   loop p'
   = ChatService.state_of
       (ChatService.stream_loop streamCallback [(false, false)] (loop p))).
Proof.
  intros Hs Hno Hrun Hp Hkeep Hmoves.
  pose proof (run_under_pause actions s s' Hs Hno Hrun) as Hback.
  pose proof (moves_under_pause streamCallback events p p' Hp Hkeep Hmoves)
    as Hpolled.
  unfold held_back in Hback. unfold polled_back in Hpolled.
  repeat split.
  - intros Hplace. destruct (place s); auto. contradiction.
  - intros Hplace. rewrite Hplace in Hback. exact Hback.
  - intros Hspot. destruct (spot p); auto. contradiction.
  - intros Hspot. rewrite Hspot in Hpolled. exact Hpolled.
Qed.

(** *** On a stream of "Hel", "lo", " world" *)

Definition three_chunks : StreamReader :=
  fresh [AssistantMessage "Hel"; AssistantMessage "lo";
         AssistantMessage " world"] EOF.

Definition beside_start : Beside :=
  mkBeside false Scanning OuterSelect (start three_chunks).

Definition polled_start : Polled :=
  mkPolled false false AtPoll
    {| ChatService.reader := three_chunks; ChatService.fullContent := "";
       ChatService.emitted := [] |}.

Definition silent (_ : string) (_ : bool) : option error := None.

(** C5 as stated fails.  The loop reads the flag as not set; the user
    types pause and the flag is set; the loop goes on to [Recv] and
    appends "Hel", with the flag set and neither resume nor stop in
    sight.  Likewise in [ProcessUserInputStream] when the caller starts
    to report a pause after the poll of line 193. *)
Lemma increment_appended_while_paused :
  (exists s1 s2,
      run [ReadPaused; Typed CmdPause] beside_start = Some s1 /\
      isPaused s1 = true /\
      recv_calls (streamReader (turn s1)) = 0%nat /\
      fullContent (turn s1) = "" /\
      step Receive s1 = Some s2 /\
      isPaused s2 = true /\
      recv_calls (streamReader (turn s2)) = 1%nat /\
      fullContent (turn s2) = "Hel") /\
  (exists p1 p2,
      moves silent [Poll; Caller true false] polled_start = Some p1 /\
      callerPaused p1 = true /\
      recv_calls (ChatService.reader (loop p1)) = 0%nat /\
      ChatService.fullContent (loop p1) = "" /\
      move silent RecvTurn p1 = Some p2 /\
      callerPaused p2 = true /\
      recv_calls (ChatService.reader (loop p2)) = 1%nat /\
      ChatService.fullContent (loop p2) = "Hel").
Proof.
  split; do 2 eexists; repeat split; reflexivity.
Qed.

(** The pause arrives between the look and the [Recv]; then the loop
    takes "Hel", finds the flag, waits, and is stopped. *)
Lemma pause_holds_from_the_next_look_witness :
  let s := mkBeside true SendingPause BeforeRecv (start three_chunks) in
  let once := state_of (stream_loop [NotPaused] (start three_chunks)) in
  let s' := mkBeside true Returned EndOfStream (close_reader once) in
  let l :=
    {| ChatService.reader := three_chunks; ChatService.fullContent := "";
       ChatService.emitted := [] |} in
  let p := mkPolled true false ToReceive l in
  let after :=
    ChatService.state_of (ChatService.stream_loop silent [(false, false)] l) in
  let p' := mkPolled true true LeftLoop after in
  (place s <> BeforeRecv ->
   turn s' = turn s \/ turn s' = close_reader (turn s)) /\
  (place s = BeforeRecv ->
   turn s' = turn s \/ turn s' = once \/ turn s' = close_reader once) /\
  (spot p <> ToReceive -> loop p' = loop p) /\
  (spot p = ToReceive -> loop p' = loop p \/ loop p' = after).
Proof.
  intros s once s' l p after p'.
  refine (pause_holds_from_the_next_look s s'
            [Receive; ReadPaused; TakePause; Typed CmdOther; ReadPaused;
             Typed CmdStop; TakeStopPaused]
            silent p p' [RecvTurn; Poll; Poll; Caller true true; Poll]
            eq_refl _ eq_refl eq_refl _ eq_refl).
  - repeat constructor; discriminate.
  - repeat constructor.
Defined.

End CLI.

(** * The server's main.go: loadEnvFile *)
Module Server.

(** [strings.Index(s, sep)] for a separator of one byte; -1 when the
    byte does not occur. *)
Fixpoint Index_from (sep : ascii) (s : string) (i : Z) : Z :=
  match s with
  | EmptyString => -1
  | String x s' => if Ascii.eqb x sep then i else Index_from sep s' (i + 1)
  end.

Definition Index (s : string) (sep : ascii) : Z := Index_from sep s 0.

(** [strings.Split(s, sep)] for a separator of one byte. *)
Fixpoint Split (s : string) (sep : ascii) : list string :=
  match s with
  | EmptyString => [EmptyString]
  | String x s' =>
      if Ascii.eqb x sep then EmptyString :: Split s' sep
      else
        match Split s' sep with
        | piece :: pieces => String x piece :: pieces
        | [] => [String x EmptyString]
        end
  end.

Definition newline : ascii := "010"%char.
Definition equals : ascii := "="%char.

Section LoadEnv.

(** [strings.TrimSpace] *)
Variable TrimSpace : string -> string.

(** The body of the loop of [loadEnvFile] for one line: the call of
    [os.Setenv] it makes, if any. *)
Definition set_from_line (line : string) : list (string * string) :=
  let idx := Index line equals in
  if 0 <? idx then
    let key := TrimSpace (substring 0 (Z.to_nat idx) line) in
    let value :=
      TrimSpace
        (substring (Z.to_nat (idx + 1))
           (String.length line - Z.to_nat (idx + 1)) line) in
    if decide (key = EmptyString) then [] else [(key, value)]
  else [].

(** [loadEnvFile]: the calls [os.Setenv(key, value)] it makes, in
    order; [content] is what [os.ReadFile] returned, [None] for an
    error. *)
Definition loadEnvFile (content : option string) : list (string * string) :=
  match content with
  | None => []
  | Some content => flat_map set_from_line (Split content newline)
  end.

End LoadEnv.

(** A line of a file: an entry [key=value], or anything else without
    "=". *)
Inductive Line :=
| Entry (key value : string)
| Other (text : string).

Definition line_text (l : Line) : string :=
  match l with
  | Entry key value => (key ++ String equals value)%string
  | Other text => text
  end.

(** The lines joined by newlines, as they stand in a file. *)
Fixpoint file_of (lines : list string) : string :=
  match lines with
  | [] => EmptyString
  | [line] => line
  | line :: rest => (line ++ String newline (file_of rest))%string
  end.

Definition has (c : ascii) (s : string) : Prop :=
  In c (list_ascii_of_string s).

Definition well_formed (l : Line) : Prop :=
  match l with
  | Entry key value =>
      key <> EmptyString /\ ~ has equals key /\ ~ has newline key /\
      ~ has newline value
  | Other text => ~ has equals text /\ ~ has newline text
  end.

Lemma has_app c (a s : string) :
  has c (a ++ s)%string <-> has c a \/ has c s.
Proof.
  unfold has. rewrite Email.list_ascii_of_string_app. apply in_app_iff.
Qed.

Lemma Split_no_separator (s : string) (sep : ascii) :
  ~ has sep s -> Split s sep = [s].
Proof.
  induction s as [|x s IH]; intros Hno; [reflexivity|].
  cbn [Split]. destruct (Ascii.eqb_spec x sep) as [-> | Hne].
  - exfalso. apply Hno. left. reflexivity.
  - rewrite IH; [reflexivity|]. intros Hs. apply Hno. right. exact Hs.
Qed.

Lemma Split_line (line rest : string) (sep : ascii) :
  ~ has sep line ->
  Split (line ++ String sep rest)%string sep = line :: Split rest sep.
Proof.
  induction line as [|x line IH]; intros Hno.
  - change (Split (String sep rest) sep = EmptyString :: Split rest sep).
    cbn [Split]. rewrite Ascii.eqb_refl. reflexivity.
  - change (String x line ++ String sep rest)%string
      with (String x (line ++ String sep rest)%string).
    cbn [Split]. destruct (Ascii.eqb_spec x sep) as [-> | Hne].
    + exfalso. apply Hno. left. reflexivity.
    + rewrite IH; [reflexivity|]. intros Hs. apply Hno. right. exact Hs.
Qed.

(** Splitting a file at the newlines gives back its lines. *)
Lemma Split_file_of (lines : list string) :
  lines <> [] ->
  Forall (fun line => ~ has newline line) lines ->
  Split (file_of lines) newline = lines.
Proof.
  induction lines as [|line [|next rest] IH]; intros Hne Hno;
    [congruence | |].
  - apply Forall_cons_1 in Hno as [Hline _].
    apply Split_no_separator, Hline.
  - apply Forall_cons_1 in Hno as [Hline Hno].
    change (file_of (line :: next :: rest))
      with (line ++ String newline (file_of (next :: rest)))%string.
    rewrite Split_line by exact Hline.
    rewrite IH by (try discriminate; exact Hno). reflexivity.
Qed.

Lemma Index_from_absent (sep : ascii) (s : string) : forall i,
  ~ has sep s -> Index_from sep s i = -1.
Proof.
  induction s as [|x s IH]; intros i Hno; [reflexivity|].
  cbn [Index_from]. destruct (Ascii.eqb_spec x sep) as [-> | Hne].
  - exfalso. apply Hno. left. reflexivity.
  - apply IH. intros Hs. apply Hno. right. exact Hs.
Qed.

Lemma Index_from_first (sep : ascii) (key rest : string) : forall i,
  ~ has sep key ->
  Index_from sep (key ++ String sep rest)%string i
  = i + Z.of_nat (String.length key).
Proof.
  induction key as [|x key IH]; intros i Hno.
  - change (Index_from sep (String sep rest) i = i + 0).
    cbn [Index_from]. rewrite Ascii.eqb_refl. lia.
  - change (String x key ++ String sep rest)%string
      with (String x (key ++ String sep rest)%string).
    cbn [Index_from String.length].
    destruct (Ascii.eqb_spec x sep) as [-> | Hne].
    + exfalso. apply Hno. left. reflexivity.
    + rewrite IH by (intros Hs; apply Hno; right; exact Hs). lia.
Qed.

Lemma substring_all (s : string) : substring 0 (String.length s) s = s.
Proof.
  induction s as [|x s IH]; [reflexivity|].
  change (String x (substring 0 (String.length s) s) = String x s).
  f_equal. exact IH.
Qed.

Lemma substring_after (key value : string) (sep : ascii) :
  substring (S (String.length key)) (String.length value)
    (key ++ String sep value)%string = value.
Proof.
  induction key as [|x key IH]; [apply substring_all|].
  exact IH.
Qed.

Section Loaded.

Variable TrimSpace : string -> string.

Lemma set_from_entry key value :
  key <> EmptyString -> ~ has equals key ->
  set_from_line TrimSpace (line_text (Entry key value))
  = if decide (TrimSpace key = EmptyString) then []
    else [(TrimSpace key, TrimSpace value)].
Proof.
  intros Hkey Hno. unfold set_from_line, Index. cbn [line_text].
  rewrite Index_from_first by exact Hno.
  assert (Hlen : (0 < String.length key)%nat)
    by (destruct key; [congruence | simpl; lia]).
  replace (0 <? 0 + Z.of_nat (String.length key)) with true
    by (symmetry; apply Z.ltb_lt; lia).
  replace (Z.to_nat (0 + Z.of_nat (String.length key)))
    with (String.length key) by lia.
  replace (Z.to_nat (0 + Z.of_nat (String.length key) + 1))
    with (S (String.length key)) by lia.
  rewrite Email.substring_prefix.
  rewrite Email.string_length_app. cbn [String.length].
  replace (String.length key + S (String.length value)
           - S (String.length key))%nat
    with (String.length value) by lia.
  rewrite substring_after. reflexivity.
Qed.

Lemma set_from_other text :
  ~ has equals text -> set_from_line TrimSpace (line_text (Other text)) = [].
Proof.
  intros Hno. unfold set_from_line, Index. cbn [line_text].
  rewrite Index_from_absent by exact Hno. reflexivity.
Qed.

(** The calls a line stands for. *)
Definition setting (l : Line) : list (string * string) :=
  match l with
  | Entry key value =>
      if decide (TrimSpace key = EmptyString) then []
      else [(TrimSpace key, TrimSpace value)]
  | Other _ => []
  end.

(** X18.  For a file of lines that are either [key=value], with a key
    that is not empty and holds no "=", or lines without any "=":
    [loadEnvFile] calls [os.Setenv] once for each entry whose trimmed
    key is not empty, in the order of the file, with the trimmed key and
    the trimmed rest of the line after the first "=", so a value keeps
    the "=" it holds; the other lines set nothing; and when the file
    cannot be read, nothing is set. *)
Theorem loadEnvFile_sets_entries (lines : list Line) :
  Forall well_formed lines ->
  loadEnvFile TrimSpace (Some (file_of (map line_text lines)))
  = flat_map setting lines /\
  loadEnvFile TrimSpace None = [].
Proof.
  intros Hwf. split; [|reflexivity]. unfold loadEnvFile.
  destruct lines as [|l lines]; [reflexivity|].
  rewrite Split_file_of.
  - induction (l :: lines) as [|l' ls IH]; [reflexivity|].
    apply Forall_cons_1 in Hwf as [Hl Hwf]. cbn [map flat_map].
    rewrite (IH Hwf). f_equal.
    destruct l' as [key value | text]; cbn [well_formed] in Hl.
    + apply set_from_entry; tauto.
    + apply set_from_other; tauto.
  - discriminate.
  - clear -Hwf. induction Hwf as [|l' ls Hl Hwf IH]; cbn [map];
      constructor; [|exact IH].
    destruct l' as [key value | text]; cbn [well_formed line_text] in *.
    + rewrite has_app. intros [Hk | [Hnl | Hv]]; try tauto.
      discriminate Hnl.
    + tauto.
Qed.

End Loaded.

(** A file of three lines; the identity stands for [strings.TrimSpace],
    which it is on these keys and values. *)
Lemma loadEnvFile_sets_entries_witness :
  let lines :=
    [Entry "DB_URL" "postgres://u:p@h/db?sslmode=disable";
     Other "# no entry here"; Entry "PORT" "8080"] in
  Forall well_formed lines /\
  loadEnvFile (fun s => s) (Some (file_of (map line_text lines)))
  = [("DB_URL"%string, "postgres://u:p@h/db?sslmode=disable"%string);
     ("PORT"%string, "8080"%string)].
Proof.
  intros lines.
  assert (Hwf : Forall well_formed lines).
  { repeat constructor; try discriminate; unfold has; cbn;
      intuition discriminate. }
  split; [exact Hwf|].
  exact (proj1 (loadEnvFile_sets_entries (fun s => s) lines Hwf)).
Defined.

End Server.
